(** * City-based subsetting: a shallow embedding of [subset.py]

    The script reads a seed set of rows from a root table of a source
    database, follows foreign keys in both directions breadth-first to
    collect every related row, and inserts the collected rows into a
    freshly cleared target database.

    The embedding keeps the shape of the script.  Python dictionaries
    whose iteration order is observable ([collected], rows) are
    insertion-ordered association lists; dictionaries that are only
    looked up ([references], [referenced_by], [pk_cache]) are [gmap]s.
    Exceptions are a result type, the two database connections are
    explicit values, and the [while q:] loop is driven by fuel. *)

From stdpp Require Import base option list strings gmap sorting.
From Stdlib Require Import ZArith Lia Ascii.

Local Open Scope string_scope.
Local Open Scope nat_scope.
Local Open Scope list_scope.
Local Open Scope stdpp_scope.

(** ** Python values, exceptions *)

(** The scalar values a MySQL cursor hands to Python. *)
Inductive Value :=
| VNull
| VInt (z : Z)
| VStr (s : string).

#[global] Instance Value_eq_dec : EqDecision Value.
Proof. solve_decision. Defined.

(** [x is None] *)
Definition is_None (v : Value) : bool :=
  match v with VNull => true | _ => false end.

Inductive Exn :=
| KeyError
| DatabaseError.

Inductive Result (A : Type) :=
| Ok (a : A)
| Raise (e : Exn).
Arguments Ok {A} a.
Arguments Raise {A} e.

Definition bind {A B} (m : Result A) (k : A → Result B) : Result B :=
  match m with
  | Ok a => k a
  | Raise e => Raise e
  end.

Notation "'let*' x := m 'in' k" := (bind m (fun x => k))
  (at level 10, x pattern, m at level 100, k at level 200).

(** A [for] loop whose body may raise: the first exception leaves the loop. *)
Fixpoint for_each {A S} (body : S → A → Result S) (xs : list A) (s : S) : Result S :=
  match xs with
  | [] => Ok s
  | x :: xs' => let* s' := body s x in for_each body xs' s'
  end.

(** ** Insertion-ordered dictionaries *)

Section Dict.
Context {K V : Type} `{EqDecision K}.

(** [d.get(k)] *)
Fixpoint dict_get (d : list (K * V)) (k : K) : option V :=
  match d with
  | [] => None
  | (k', v) :: d' => if decide (k' = k) then Some v else dict_get d' k
  end.

(** [k in d] *)
Definition dict_mem (d : list (K * V)) (k : K) : bool :=
  match dict_get d k with Some _ => true | None => false end.

(** [d[k] = v]: an existing key keeps its position, a new one goes last. *)
Fixpoint dict_set (d : list (K * V)) (k : K) (v : V) : list (K * V) :=
  match d with
  | [] => [(k, v)]
  | (k', v') :: d' =>
      if decide (k' = k) then (k, v) :: d' else (k', v') :: dict_set d' k v
  end.

Definition dict_keys (d : list (K * V)) : list K := d.*1.
Definition dict_values (d : list (K * V)) : list V := d.*2.
End Dict.

(** ** Rows and row keys *)

(** A row as returned by a dictionary cursor: column name to value. *)
Definition Row : Type := list (string * Value).

(** The tuple of a row's primary-key values. *)
Definition Key : Type := list Value.

(** [row[c]], which raises [KeyError] on a missing column. *)
Definition row_item (row : Row) (c : string) : Result Value :=
  match dict_get row c with
  | Some v => Ok v
  | None => Raise KeyError
  end.

(** [row.get(c)], which yields [None] on a missing column. *)
Definition row_get (row : Row) (c : string) : Value :=
  default VNull (dict_get row c).

(** [tuple(row[c] for c in pk)] *)
Fixpoint row_key (row : Row) (pk : list string) : Result Key :=
  match pk with
  | [] => Ok []
  | c :: pk' =>
      let* v := row_item row c in
      let* vs := row_key row pk' in
      Ok (v :: vs)
  end.

(** ** Stable sorting by a numeric key, as [list.sort(key=...)] and
    [ORDER BY] on distinct positions do *)

Section Sort.
Context {A : Type} (key : A → nat).

Fixpoint insert_by (x : A) (l : list A) : list A :=
  match l with
  | [] => [x]
  | y :: l' => if decide (key x ≤ key y) then x :: y :: l' else y :: insert_by x l'
  end.

Fixpoint sort_by (l : list A) : list A :=
  match l with
  | [] => []
  | x :: l' => insert_by x (sort_by l')
  end.
End Sort.

(** ** The source database *)

(** One line of [information_schema.KEY_COLUMN_USAGE].  The two
    [REFERENCED_*] columns are null together, for a constraint that is
    not a foreign key. *)
Record KeyColumnUsage := {
  TABLE_SCHEMA : string;
  TABLE_NAME : string;
  CONSTRAINT_NAME : string;
  COLUMN_NAME : string;
  ORDINAL_POSITION : nat;
  REFERENCED : option (string * string);
}.

(** The statements the script sends over the source connection. *)
Inductive Query :=
| QPrimaryKey (db table : string)
| QForeignKeys (db : string)
| QSeedIn (table : string) (cities : list Value)
| QSeedEq (table : string) (city : Value)
| QParent (table col : string) (v : Value)
| QChildren (table col : string) (v : Value).

(** The source: its catalog, its tables, and the statements on which
    [cursor.execute] raises (lost connection, unknown table, missing
    privilege, malformed statement). *)
Record Source := {
  src_catalog : list KeyColumnUsage;
  src_tables : list (string * list Row);
  src_raises : Query → bool;
}.

Definition execute (src : Source) (q : Query) : Result unit :=
  if src_raises src q then Raise DatabaseError else Ok tt.

(** The rows of a table; a table that does not exist has none. *)
Definition table_rows (src : Source) (t : string) : list Row :=
  default [] (dict_get (src_tables src) t).

(** SQL [col = v]: a null on either side never matches. *)
Definition sql_eq (a b : Value) : bool :=
  negb (is_None a) && negb (is_None b) && bool_decide (a = b).

(** [SELECT * FROM t WHERE col = v] *)
Definition select_where (src : Source) (t col : string) (v : Value) : list Row :=
  filter (λ r, sql_eq (row_get r col) v = true) (table_rows src t).

(** ** Primary key fetcher *)

(** [WHERE TABLE_SCHEMA=%s AND TABLE_NAME=%s AND CONSTRAINT_NAME='PRIMARY'] *)
Definition primary_key_rows (src : Source) (db table : string) : list KeyColumnUsage :=
  filter (λ r, TABLE_SCHEMA r = db ∧ TABLE_NAME r = table ∧ CONSTRAINT_NAME r = "PRIMARY")
         (src_catalog src).

Definition get_pk (src : Source) (db table : string) : Result (list string) :=
  let* _ := execute src (QPrimaryKey db table) in
  let rows := sort_by ORDINAL_POSITION (primary_key_rows src db table) in
  Ok (COLUMN_NAME <$> rows).

(** ** FK discovery *)

(** [(other table, column of the referencing table, referenced column)] *)
Definition Edge : Type := string * string * string.

Abbreviation Graph := (gmap string (list Edge)).

(** [g[t].append(e)] on a [defaultdict(list)] *)
Definition graph_append (g : Graph) (t : string) (e : Edge) : Graph :=
  <[t := default [] (g !! t) ++ [e]]> g.

(** [g.get(t, [])] *)
Definition graph_get (g : Graph) (t : string) : list Edge :=
  default [] (g !! t).

Definition discover_fk_rows (src : Source) (db : string)
  : list (string * string * string * string) :=
  omap (λ r, if decide (TABLE_SCHEMA r = db)
             then (λ ref, (TABLE_NAME r, COLUMN_NAME r, ref.1, ref.2)) <$> REFERENCED r
             else None)
       (src_catalog src).

Definition discover_fk (src : Source) (db : string) : Result (Graph * Graph) :=
  let* _ := execute src (QForeignKeys db) in
  Ok (foldl (λ '(references, referenced_by) '(tbl, col, ref_tbl, ref_col),
             (graph_append references tbl (ref_tbl, col, ref_col),
              graph_append referenced_by ref_tbl (tbl, col, ref_col)))
            (∅, ∅) (discover_fk_rows src db)).

(** ** The seed query *)

(** [cfg.get("city_filter")]: a list of cities or a single value. *)
Inductive CityFilter :=
| CityList (cities : list Value)
| CityScalar (city : Value).

Definition select_seeds (src : Source) (root_table : string) (city_filter : CityFilter)
  : Result (list Row) :=
  match city_filter with
  | CityList cities =>
      let* _ := execute src (QSeedIn root_table cities) in
      Ok (filter (λ r, existsb (sql_eq (row_get r "city")) cities = true)
                 (table_rows src root_table))
  | CityScalar city =>
      let* _ := execute src (QSeedEq root_table city) in
      Ok (select_where src root_table "city" city)
  end.

(** ** The traversal state *)

(** [collected]: table name to (row key to row), both in insertion order. *)
Abbreviation Collected := (list (string * list (Key * Row))).

Record Traversal := {
  collected : Collected;
  pk_cache : gmap string (list string);
  q : list (string * list string * Key);
}.

(** [collected[t]] on a [defaultdict(dict)]: reading a table that is not
    there yet creates it, empty, at the end. *)
Definition collected_item (c : Collected) (t : string) : Collected * list (Key * Row) :=
  match dict_get c t with
  | Some d => (c, d)
  | None => (dict_set c t [], [])
  end.

(** [collected[t][k] = r] *)
Definition collected_store (c : Collected) (t : string) (k : Key) (r : Row) : Collected :=
  let '(c1, d) := collected_item c t in
  dict_set c1 t (dict_set d k r).

(** The rows collected for a table, none if the table is not there. *)
Definition collected_rows (c : Collected) (t : string) : list (Key * Row) :=
  default [] (dict_get c t).

(** [if d:] on a dictionary *)
Definition truthy (r : Row) : bool :=
  match r with [] => false | _ => true end.

Section Closure.
Variables (src : Source) (dbname : string).
Variables (references referenced_by : Graph).

Definition ensure_pk (cache : gmap string (list string)) (table : string)
  : Result (list string * gmap string (list string)) :=
  match cache !! table with
  | Some pk => Ok (pk, cache)
  | None =>
      let* pk := get_pk src dbname table in
      Ok (pk, <[table := pk]> cache)
  end.

(** Lines 204-208 and 221-225, the same up to the names: key the fetched
    row by its table's primary key, and collect and enqueue it unless a
    row with that key is collected already. *)
Definition collect_row (tbl : string) (r : Row) (st : Traversal) : Result Traversal :=
  let* (pk, cache) := ensure_pk (pk_cache st) tbl in
  let* key := row_key r pk in
  let '(c1, d) := collected_item (collected st) tbl in
  if dict_mem d key
  then Ok {| collected := c1; pk_cache := cache; q := q st |}
  else Ok {| collected := dict_set c1 tbl (dict_set d key r);
             pk_cache := cache;
             q := q st ++ [(tbl, pk, key)] |}.

(** One turn of [for (parent_tbl, fk_col, parent_pk_col) in references.get(table, [])]. *)
Definition follow_parent (row : Row) (st : Traversal) (e : Edge) : Result Traversal :=
  let '(parent_tbl, fk_col, parent_pk_col) := e in
  if is_None (row_get row fk_col) then Ok st
  else
    let* _ := execute src (QParent parent_tbl parent_pk_col (row_get row fk_col)) in
    match head (select_where src parent_tbl parent_pk_col (row_get row fk_col)) with
    | Some parent => if truthy parent then collect_row parent_tbl parent st else Ok st
    | None => Ok st
    end.

(** One turn of [for (child_tbl, child_fk_col, child_ref_col) in referenced_by.get(table, [])]. *)
Definition follow_child (row : Row) (st : Traversal) (e : Edge) : Result Traversal :=
  let '(child_tbl, child_fk_col, child_ref_col) := e in
  let val := row_get row child_ref_col in
  if is_None val then Ok st
  else
    let* _ := execute src (QChildren child_tbl child_fk_col val) in
    for_each (λ st child, collect_row child_tbl child st)
             (select_where src child_tbl child_fk_col val) st.

(** The body of [while q:], after [q.popleft()]. *)
Definition bfs_body (table : string) (pk_key : Key) (st : Traversal) : Result Traversal :=
  let '(c1, d) := collected_item (collected st) table in
  let* row := match dict_get d pk_key with
              | Some r => Ok r
              | None => Raise KeyError
              end in
  let st0 := {| collected := c1; pk_cache := pk_cache st; q := q st |} in
  let* st1 := for_each (follow_parent row) (graph_get references table) st0 in
  for_each (follow_child row) (graph_get referenced_by table) st1.

Definition popleft (st : Traversal) : Traversal :=
  {| collected := collected st; pk_cache := pk_cache st; q := tail (q st) |}.

(** [while q:], at most [fuel] turns; [None] when the fuel runs out
    before the queue does. *)
Fixpoint bfs (fuel : nat) (st : Traversal) : option (Result Traversal) :=
  match q st with
  | [] => Some (Ok st)
  | (table, pk_cols, pk_key) :: _ =>
      match fuel with
      | 0 => None
      | S fuel' =>
          match bfs_body table pk_key (popleft st) with
          | Ok st' => bfs fuel' st'
          | Raise e => Some (Raise e)
          end
      end
  end.

(** Lines 180-183: one seed row. *)
Definition seed_row (root_table : string) (root_pk : list string)
           (st : Traversal) (row : Row) : Result Traversal :=
  let* key := row_key row root_pk in
  Ok {| collected := collected_store (collected st) root_table key row;
        pk_cache := pk_cache st;
        q := q st ++ [(root_table, root_pk, key)] |}.

Definition seed (root_table : string) (root_pk : list string) (seeds : list Row)
  : Result Traversal :=
  for_each (seed_row root_table root_pk) seeds
           {| collected := []; pk_cache := ∅; q := [] |}.
End Closure.

(** ** The target database *)

(** The statements the script sends over the target connection. *)
Inductive Stmt :=
| SListTables
| SSetForeignKeyChecks (on : bool)
| STruncate (t : string)
| SInsert (t : string) (cols : list string) (vals : list Value)
| SCommit.

#[global] Instance Stmt_eq_dec : EqDecision Stmt.
Proof. solve_decision. Defined.

(** The target: the tables as the session sees them, the tables as of the
    last commit, the [FOREIGN_KEY_CHECKS] flag, the statements received so
    far (oldest first), and the statements the server refuses: a
    [TRUNCATE] of some tables, an [INSERT] of some rows given what the
    tables hold, and, for the statements the script does not guard with
    [try] (the table listing, [SET FOREIGN_KEY_CHECKS] and [COMMIT]), any
    of them given the statements received so far. *)
Record Target := {
  tgt_tables : list (string * list Row);
  tgt_committed : list (string * list Row);
  tgt_fk_checks : bool;
  tgt_log : list Stmt;
  tgt_truncate_raises : string → bool;
  tgt_insert_raises : list (string * list Row) → string → Row → bool;
  tgt_connection_raises : list Stmt → Stmt → bool;
}.

Definition tgt_update (tgt : Target) (tables committed : list (string * list Row))
           (fk : bool) (s : Stmt) : Target :=
  {| tgt_tables := tables; tgt_committed := committed; tgt_fk_checks := fk;
     tgt_log := tgt_log tgt ++ [s];
     tgt_truncate_raises := tgt_truncate_raises tgt;
     tgt_insert_raises := tgt_insert_raises tgt;
     tgt_connection_raises := tgt_connection_raises tgt |}.

(** A statement that raises is logged and changes nothing else. *)
Definition tgt_refuse (tgt : Target) (s : Stmt) : Target * Result unit :=
  (tgt_update tgt (tgt_tables tgt) (tgt_committed tgt) (tgt_fk_checks tgt) s,
   Raise DatabaseError).

Definition tgt_execute (tgt : Target) (s : Stmt) : Target * Result unit :=
  match s with
  | SListTables =>
      if tgt_connection_raises tgt (tgt_log tgt) s then tgt_refuse tgt s
      else (tgt_update tgt (tgt_tables tgt) (tgt_committed tgt) (tgt_fk_checks tgt) s,
            Ok tt)
  | SSetForeignKeyChecks on =>
      if tgt_connection_raises tgt (tgt_log tgt) s then tgt_refuse tgt s
      else (tgt_update tgt (tgt_tables tgt) (tgt_committed tgt) on s, Ok tt)
  | STruncate t =>
      if dict_mem (tgt_tables tgt) t && negb (tgt_truncate_raises tgt t)
      then (tgt_update tgt (dict_set (tgt_tables tgt) t []) (tgt_committed tgt)
                       (tgt_fk_checks tgt) s, Ok tt)
      else tgt_refuse tgt s
  | SInsert t cols vals =>
      match dict_get (tgt_tables tgt) t with
      | Some rows =>
          if tgt_insert_raises tgt (tgt_tables tgt) t (zip cols vals)
          then tgt_refuse tgt s
          else (tgt_update tgt (dict_set (tgt_tables tgt) t (rows ++ [zip cols vals]))
                           (tgt_committed tgt) (tgt_fk_checks tgt) s, Ok tt)
      | None => tgt_refuse tgt s
      end
  | SCommit =>
      if tgt_connection_raises tgt (tgt_log tgt) s then tgt_refuse tgt s
      else (tgt_update tgt (tgt_tables tgt) (tgt_tables tgt) (tgt_fk_checks tgt) s,
            Ok tt)
  end.

(** One unguarded call on the target after another: an exception of the
    first ends the sequence. *)
Definition and_then (r : Target * Result unit) (k : Target → Target * Result unit)
  : Target * Result unit :=
  match r with
  | (tgt, Ok _) => k tgt
  | (tgt, Raise e) => (tgt, Raise e)
  end.

(** [tgt.commit()] *)
Definition commit (tgt : Target) : Target * Result unit := tgt_execute tgt SCommit.

(** ** Insert row to target *)

Definition insert_row (tgt : Target) (table : string) (row : Row) : Target * Result unit :=
  let cols := dict_keys row in
  tgt_execute tgt (SInsert table cols ((λ c, row_get row c) <$> cols)).

(** ** Clear target database *)

(** [try: execute(TRUNCATE) except Exception: print(warn)] *)
Definition try_truncate (tgt : Target) (t : string) : Target :=
  match tgt_execute tgt (STruncate t) with
  | (tgt', Ok _) => tgt'
  | (tgt', Raise _) => tgt'
  end.

Definition clear_target_database (tgt : Target) : Target * Result unit :=
  and_then (tgt_execute tgt SListTables) (λ tgt1,
    let tables := dict_keys (tgt_tables tgt1) in
    and_then (tgt_execute tgt1 (SSetForeignKeyChecks false)) (λ tgt2,
      let tgt3 := foldl try_truncate tgt2 tables in
      tgt_execute tgt3 (SSetForeignKeyChecks true))).

(** ** Materialization (lines 231-245) *)

Definition edge_count (references : Graph) (t : string) : nat :=
  length (graph_get references t).

(** [list(collected.keys())] sorted by [len(references.get(t, []))] *)
Definition ordered_tables (references : Graph) (c : Collected) : list string :=
  sort_by (edge_count references) (dict_keys c).

(** [try: insert_row(...) except Exception: print(warn)] *)
Definition try_insert (t : string) (tgt : Target) (r : Row) : Target :=
  match insert_row tgt t r with
  | (tgt', Ok _) => tgt'
  | (tgt', Raise _) => tgt'
  end.

(** One turn of [for t in ordered_tables]: the rows, each under its
    [try], then the commit, which is not under any. *)
Definition materialize_table (c : Collected) (tgt : Target) (t : string)
  : Target * Result unit :=
  let rows := dict_values (collected_rows c t) in
  commit (foldl (try_insert t) tgt rows).

(** [for t in ordered_tables]: an exception of a commit leaves the loop. *)
Fixpoint materialize_tables (c : Collected) (tgt : Target) (ts : list string)
  : Target * Result unit :=
  match ts with
  | [] => (tgt, Ok tt)
  | t :: ts' => and_then (materialize_table c tgt t) (λ tgt', materialize_tables c tgt' ts')
  end.

Definition materialize (references : Graph) (c : Collected) (tgt : Target)
  : Target * Result unit :=
  materialize_tables c tgt (ordered_tables references c).

(** ** MAIN *)

Record Config := {
  source_database : string;
  city_filter : CityFilter;
  root_table : string;
}.

(** What a run leaves behind: the target, and how [main] ended. *)
Definition Run : Type := Target * Result unit.

(** The part of [main] after the target is cleared and committed, up to
    the end of the traversal: the closure, or [None] if no seed matched. *)
Definition closure (fuel : nat) (cfg : Config) (src : Source)
  : option (Result (option (Graph * Collected))) :=
  let dbname := source_database cfg in
  match discover_fk src dbname with
  | Raise e => Some (Raise e)
  | Ok (references, referenced_by) =>
  match get_pk src dbname (root_table cfg) with
  | Raise e => Some (Raise e)
  | Ok root_pk =>
  match select_seeds src (root_table cfg) (city_filter cfg) with
  | Raise e => Some (Raise e)
  | Ok [] => Some (Ok None)
  | Ok seeds =>
  match seed (root_table cfg) root_pk seeds with
  | Raise e => Some (Raise e)
  | Ok st0 =>
  match bfs src dbname references referenced_by fuel st0 with
  | None => None
  | Some (Raise e) => Some (Raise e)
  | Some (Ok st) => Some (Ok (Some (references, collected st)))
  end end end end end.

(** Lines 136-137: [clear_target_database(tgt_cur, tgt_cfg)], then
    [tgt.commit()]. *)
Definition cleared (tgt : Target) : Target * Result unit :=
  and_then (clear_target_database tgt) commit.

Definition main (fuel : nat) (cfg : Config) (src : Source) (tgt : Target) : option Run :=
  match cleared tgt with
  | (tgt0, Raise e) => Some (tgt0, Raise e)
  | (tgt0, Ok _) =>
      match closure fuel cfg src with
      | None => None
      | Some (Raise e) => Some (tgt0, Raise e)
      | Some (Ok None) => Some (tgt0, Ok tt)
      | Some (Ok (Some (references, c))) => Some (materialize references c tgt0)
      end
  end.

(** * Vocabulary of the properties *)

(** Ascending order of a numeric key. *)
Definition key_le {A : Type} (key : A → nat) (x y : A) : Prop := key x ≤ key y.

(** The [INSERT] statement [insert_row] builds for a row. *)
Definition insert_stmt (t : string) (r : Row) : Stmt :=
  SInsert t (dict_keys r) ((λ c, row_get r c) <$> dict_keys r).

(** What one table contributes to the target's log: an [INSERT] per
    collected row, in collection order, then one [COMMIT]. *)
Definition table_stmts (c : Collected) (t : string) : list Stmt :=
  (insert_stmt t <$> dict_values (collected_rows c t)) ++ [SCommit].

(** The foreign keys of the catalog that leave table [t], and those that
    point at it, in catalog order. *)
Definition outgoing_edges (src : Source) (db t : string) : list Edge :=
  omap (λ '(tbl, col, ref_tbl, ref_col),
          if decide (tbl = t) then Some (ref_tbl, col, ref_col) else None)
       (discover_fk_rows src db).

Definition incoming_edges (src : Source) (db t : string) : list Edge :=
  omap (λ '(tbl, col, ref_tbl, ref_col),
          if decide (ref_tbl = t) then Some (tbl, col, ref_col) else None)
       (discover_fk_rows src db).

(** What clearing and committing adds to the target's log. *)
Definition clear_stmts (tgt : Target) : list Stmt :=
  [SListTables; SSetForeignKeyChecks false]
    ++ (STruncate <$> dict_keys (tgt_tables tgt))
    ++ [SSetForeignKeyChecks true; SCommit].

Definition is_insert (s : Stmt) : bool :=
  match s with SInsert _ _ _ => true | _ => false end.

Definition is_insert_into (t : string) (s : Stmt) : bool :=
  match s with SInsert t' _ _ => bool_decide (t' = t) | _ => false end.

(** The statements of a log that insert into table [t]. *)
Definition inserts_into (t : string) (log : list Stmt) : list Stmt :=
  filter (λ s, is_insert_into t s = true) log.

(** [collected[t].get(k)] without creating the table. *)
Definition lookup_row (c : Collected) (t : string) (k : Key) : option Row :=
  dict_get (collected_rows c t) k.

(** Every table once, and within a table every row key once. *)
Definition keys_unique (c : Collected) : Prop :=
  NoDup (dict_keys c) ∧ ∀ t, NoDup (dict_keys (collected_rows c t)).

(** The run of [main] up to the first turn of [while q:]. *)
Definition start (cfg : Config) (src : Source) : Result (Graph * Graph * Traversal) :=
  let dbname := source_database cfg in
  let* (references, referenced_by) := discover_fk src dbname in
  let* root_pk := get_pk src dbname (root_table cfg) in
  let* seeds := select_seeds src (root_table cfg) (city_filter cfg) in
  let* st0 := seed (root_table cfg) root_pk seeds in
  Ok (references, referenced_by, st0).

Section Vocabulary.
Variables (src : Source) (dbname : string).
Variables (references referenced_by : Graph).

(** The row keys the source can ever yield: each row of each table, keyed
    by the primary key of its table. *)
Definition universe : list (string * Key) :=
  '(t, rows) ← src_tables src;
  r ← rows;
  match get_pk src dbname t with
  | Ok pk => match row_key r pk with Ok k => [(t, k)] | Raise _ => [] end
  | Raise _ => []
  end.

(** The keys of the universe not collected yet. *)
Definition missing (c : Collected) : list (string * Key) :=
  filter (λ p, lookup_row c p.1 p.2 = None) universe.

(** Bounds the turns [while q:] still has to make. *)
Definition potential (st : Traversal) : nat :=
  length (q st) + length (missing (collected st)).

(** The memoized primary keys are the ones the catalog gives. *)
Definition cache_ok (cache : gmap string (list string)) : Prop :=
  ∀ t pk, cache !! t = Some pk → get_pk src dbname t = Ok pk.

(** Every collected row is a row of its table in the source, filed under
    its own row key. *)
Definition rows_ok (c : Collected) : Prop :=
  ∀ t k r, lookup_row c t k = Some r →
    r ∈ table_rows src t ∧ ∃ pk, get_pk src dbname t = Ok pk ∧ row_key r pk = Ok k.

Definition traversal_ok (st : Traversal) : Prop :=
  cache_ok (pk_cache st) ∧ rows_ok (collected st) ∧ keys_unique (collected st).

(** [st'] comes after [st] in a traversal: the collected rows of [st] are
    still there, unchanged; the queue has only grown, by keys that were not
    collected in [st]; every row collected since is queued; no table has
    lost a row; and the potential has not gone up. *)
Record extends (st st' : Traversal) : Prop := {
  ext_rows : ∀ t k r,
    lookup_row (collected st) t k = Some r → lookup_row (collected st') t k = Some r;
  ext_queue : ∃ new, q st' = q st ++ new
    ∧ ∀ t pk k, (t, pk, k) ∈ new → lookup_row (collected st) t k = None;
  ext_new : ∀ t k, is_Some (lookup_row (collected st') t k) →
    is_Some (lookup_row (collected st) t k) ∨ ∃ pk, (t, pk, k) ∈ q st';
  ext_size : ∀ t,
    length (collected_rows (collected st) t) ≤ length (collected_rows (collected st') t);
  ext_potential : potential st' ≤ potential st;
}.

(** One turn of [while q:]. *)
Definition bfs_step (st st' : Traversal) : Prop :=
  ∃ table pk_cols pk_key rest,
    q st = (table, pk_cols, pk_key) :: rest
    ∧ bfs_body src dbname references referenced_by table pk_key (popleft st) = Ok st'.

(** The foreign key [e] of row [r] is served by the collected rows [c]:
    if its value is not null, then a source row of the referenced table
    with that value in the referenced column has its row key collected, or
    the source has no such row. *)
Definition edge_served (c : Collected) (r : Row) (e : Edge) : Prop :=
  let '(parent_tbl, fk_col, parent_pk_col) := e in
  is_None (row_get r fk_col) = false →
  (∃ k p' p, lookup_row c parent_tbl k = Some p'
             ∧ p ∈ table_rows src parent_tbl
             ∧ row_get p parent_pk_col = row_get r fk_col
             ∧ ∃ pk, get_pk src dbname parent_tbl = Ok pk ∧ row_key p pk = Ok k)
  ∨ select_where src parent_tbl parent_pk_col (row_get r fk_col) = [].

(** Every collected row is still queued, or has all its foreign keys served. *)
Definition pending_or_served (st : Traversal) : Prop :=
  ∀ t k r, lookup_row (collected st) t k = Some r →
    (∃ pk, (t, pk, k) ∈ q st)
    ∨ ∀ e, e ∈ graph_get references t → edge_served (collected st) r e.
End Vocabulary.

(** The states a run of [main] goes through at the head of [while q:]. *)
Inductive reachable (cfg : Config) (src : Source) : Traversal → Prop :=
| reach_start references referenced_by st0 :
    start cfg src = Ok (references, referenced_by, st0) →
    reachable cfg src st0
| reach_step references referenced_by st st' :
    discover_fk src (source_database cfg) = Ok (references, referenced_by) →
    reachable cfg src st →
    bfs_step src (source_database cfg) references referenced_by st st' →
    reachable cfg src st'.

(** Fuel that is enough for any run on this source. *)
Definition traversal_bound (cfg : Config) (src : Source) : nat :=
  length (table_rows src (root_table cfg)) + length (universe src (source_database cfg)).

(** In table [t] of the source, rows with the same row key are the same
    row, as a primary key guarantees. *)
Definition table_keys_unique (src : Source) (dbname t : string) : bool :=
  match get_pk src dbname t with
  | Ok pk =>
      forallb (λ r1, forallb (λ r2,
        match row_key r1 pk, row_key r2 pk with
        | Ok k1, Ok k2 => implb (bool_decide (k1 = k2)) (bool_decide (r1 = r2))
        | _, _ => true
        end) (table_rows src t)) (table_rows src t)
  | Raise _ => true
  end.

(** * Example databases *)

Definition kcu (t cn c : string) (pos : nat) (ref : option (string * string))
  : KeyColumnUsage :=
  {| TABLE_SCHEMA := "shop"; TABLE_NAME := t; CONSTRAINT_NAME := cn;
     COLUMN_NAME := c; ORDINAL_POSITION := pos; REFERENCED := ref |}.

Definition customer (id : Z) (city region : string) : Row :=
  [("id", VInt id); ("city", VStr city); ("region", VStr region)].

Definition order (id customer_id : Z) : Row :=
  [("id", VInt id); ("customer_id", VInt customer_id)].

(** [customers] and [orders] have a primary key; [regions] has none and
    is referenced through its indexed column [code]. *)
Definition shop_catalog : list KeyColumnUsage :=
  [ kcu "customers" "PRIMARY" "id" 1 None;
    kcu "orders" "PRIMARY" "id" 1 None;
    kcu "orders" "fk_customer" "customer_id" 1 (Some ("customers", "id"));
    kcu "customers" "fk_region" "region" 1 (Some ("regions", "code")) ].

Definition shop_tables : list (string * list Row) :=
  [ ("customers", [ customer 1 "Springfield" "A";
                    customer 2 "Springfield" "B";
                    customer 3 "Shelbyville" "A" ]);
    ("orders", [ order 10 1; order 11 2; order 12 3 ]);
    ("regions", [ [("code", VStr "A")]; [("code", VStr "B")] ]) ].

Definition shop : Source :=
  {| src_catalog := shop_catalog; src_tables := shop_tables; src_raises := λ _, false |}.

Definition shop_cfg (city : string) : Config :=
  {| source_database := "shop"; city_filter := CityList [VStr city];
     root_table := "customers" |}.

(** A target with a stale row, and a view whose [TRUNCATE] raises. *)
Definition staging (view_raises : bool) : Target :=
  {| tgt_tables := [ ("customers", [customer 99 "Ogdenville" "Z"]); ("orders", []);
                     ("regions", []); ("v_report", [[("n", VInt 1)]]) ];
     tgt_committed := [ ("customers", [customer 99 "Ogdenville" "Z"]); ("orders", []);
                        ("regions", []); ("v_report", [[("n", VInt 1)]]) ];
     tgt_fk_checks := true;
     tgt_log := [];
     tgt_truncate_raises := λ t, view_raises && bool_decide (t = "v_report");
     tgt_insert_raises := λ _ _ _, false;
     tgt_connection_raises := λ _ _, false |}.

(** The same target on a connection that is lost at the second [COMMIT]:
    the one after the first table materialized. *)
Definition staging_lost : Target :=
  {| tgt_tables := tgt_tables (staging false);
     tgt_committed := tgt_committed (staging false);
     tgt_fk_checks := true;
     tgt_log := [];
     tgt_truncate_raises := λ _, false;
     tgt_insert_raises := λ _ _ _, false;
     tgt_connection_raises := λ log s,
       match s with
       | SCommit => bool_decide (SCommit ∈ log)
       | _ => false
       end |}.

(** The shop with a primary key on every table. *)
Definition shop_keyed : Source :=
  {| src_catalog := shop_catalog ++ [kcu "regions" "PRIMARY" "code" 1 None];
     src_tables := shop_tables;
     src_raises := λ _, false |}.

(** The shop whose connection is lost when the orders of a customer are
    fetched. *)
Definition shop_flaky : Source :=
  {| src_catalog := src_catalog shop_keyed;
     src_tables := shop_tables;
     src_raises := λ query, match query with
                            | QChildren t _ _ => bool_decide (t = "orders")
                            | _ => false
                            end |}.

(** The shop after region ["B"] was deleted: customer 2 still points at it. *)
Definition shop_dangling : Source :=
  {| src_catalog := src_catalog shop_keyed;
     src_tables := [ ("customers", [ customer 1 "Springfield" "A";
                                     customer 2 "Springfield" "B" ]);
                     ("orders", [ order 10 1 ]);
                     ("regions", [ [("code", VStr "A")] ]) ];
     src_raises := λ _, false |}.

(** The graphs a run discovers, its state at the first turn of the loop,
    and the state one turn after a given state. *)
Definition run_graphs (cfg : Config) (src : Source) : Graph * Graph :=
  match discover_fk src (source_database cfg) with
  | Ok graphs => graphs
  | Raise _ => (∅, ∅)
  end.

(** The graph and the collected set a run ends its traversal with. *)
Definition run_closure (fuel : nat) (cfg : Config) (src : Source) : Graph * Collected :=
  match closure fuel cfg src with
  | Some (Ok (Some rc)) => rc
  | _ => (∅, [])
  end.

Definition run_start (cfg : Config) (src : Source) : Traversal :=
  match start cfg src with
  | Ok (_, _, st0) => st0
  | Raise _ => {| collected := []; pk_cache := ∅; q := [] |}
  end.

Definition run_turn (cfg : Config) (src : Source) (st : Traversal) : Traversal :=
  match q st with
  | (table, _, pk_key) :: _ =>
      match bfs_body src (source_database cfg) (run_graphs cfg src).1 (run_graphs cfg src).2
                     table pk_key (popleft st) with
      | Ok st' => st'
      | Raise _ => st
      end
  | [] => st
  end.

(** Two employees who manage each other: a self-referencing table with a
    cycle among its rows. *)
Definition employee (id : Z) (city : string) (manager_id : Z) : Row :=
  [("id", VInt id); ("city", VStr city); ("manager_id", VInt manager_id)].

Definition staff : Source :=
  {| src_catalog := [ kcu "employees" "PRIMARY" "id" 1 None;
                      kcu "employees" "fk_manager" "manager_id" 1
                          (Some ("employees", "id")) ];
     src_tables := [ ("employees", [ employee 1 "Springfield" 2;
                                     employee 2 "Shelbyville" 1 ]) ];
     src_raises := λ _, false |}.

Definition staff_cfg : Config :=
  {| source_database := "shop"; city_filter := CityScalar (VStr "Springfield");
     root_table := "employees" |}.

(** * More of the script, and the vocabulary of its further properties *)

(** A table with a two-column primary key, whose catalog lines come in
    either order. *)
Definition order_detail (order_id product_id qty : Z) : Row :=
  [("order_id", VInt order_id); ("product_id", VInt product_id); ("qty", VInt qty)].

Definition details (swapped : bool) : Source :=
  {| src_catalog :=
       if swapped
       then [ kcu "order_details" "PRIMARY" "product_id" 2 None;
              kcu "order_details" "PRIMARY" "order_id" 1 None ]
       else [ kcu "order_details" "PRIMARY" "order_id" 1 None;
              kcu "order_details" "PRIMARY" "product_id" 2 None ];
     src_tables := [ ("order_details", [ order_detail 10 7 1; order_detail 10 8 3 ]) ];
     src_raises := λ _, false |}.

(** The rows the seed query of a run selects. *)
Definition run_seeds (cfg : Config) (src : Source) : list Row :=
  match select_seeds src (root_table cfg) (city_filter cfg) with
  | Ok seeds => seeds
  | Raise _ => []
  end.

(** Every collected row is still queued, or has property [S]. *)
Definition pending_or (S : Collected → string → Row → Prop) (st : Traversal) : Prop :=
  ∀ t k r, lookup_row (collected st) t k = Some r →
    (∃ pk, (t, pk, k) ∈ q st) ∨ S (collected st) t r.

(** Every key in the queue is the key of a collected row. *)
Definition queue_ok (st : Traversal) : Prop :=
  ∀ t pk k, (t, pk, k) ∈ q st → is_Some (lookup_row (collected st) t k).

Section MoreVocabulary.
Variables (src : Source) (dbname : string).
Variables (references referenced_by : Graph).

(** The rows that refer to row [r] through the incoming foreign key [e]
    all have their row key collected. *)
Definition children_served (c : Collected) (r : Row) (e : Edge) : Prop :=
  let '(child_tbl, child_fk_col, child_ref_col) := e in
  ∀ child, child ∈ select_where src child_tbl child_fk_col (row_get r child_ref_col) →
    ∃ pk k, get_pk src dbname child_tbl = Ok pk ∧ row_key child pk = Ok k
            ∧ is_Some (lookup_row c child_tbl k).

(** The rows the seeds drag along: a seed; the row a related row refers to
    through a foreign key; a row that refers to a related row through a
    foreign key. *)
Inductive related (root_table : string) (seeds : list Row) : string → Row → Prop :=
| related_seed r :
    r ∈ seeds → related root_table seeds root_table r
| related_parent t r parent_tbl fk_col parent_pk_col parent :
    related root_table seeds t r →
    (parent_tbl, fk_col, parent_pk_col) ∈ graph_get references t →
    parent ∈ select_where src parent_tbl parent_pk_col (row_get r fk_col) →
    related root_table seeds parent_tbl parent
| related_child t r child_tbl child_fk_col child_ref_col child :
    related root_table seeds t r →
    (child_tbl, child_fk_col, child_ref_col) ∈ graph_get referenced_by t →
    child ∈ select_where src child_tbl child_fk_col (row_get r child_ref_col) →
    related root_table seeds child_tbl child.
End MoreVocabulary.

(** Every row of every source table has a value, possibly null, for each
    column of the table's primary key, as the rows of [SELECT *] do. *)
Definition rows_have_pk (src : Source) (dbname : string) : bool :=
  forallb (λ '(t, rows),
    match get_pk src dbname t with
    | Ok pk => forallb (λ r : Row, forallb (λ c, dict_mem r c) pk) rows
    | Raise _ => true
    end) (src_tables src).

(** The exception is the database's, raised by a statement the source
    refuses. *)
Definition source_error (src : Source) (e : Exn) : Prop :=
  e = DatabaseError ∧ ∃ query, src_raises src query = true.

(** The row a target table gets from the [INSERT] built for row [r]: its
    columns, each with the value [r[c]]. *)
Definition stored_row (r : Row) : Row :=
  zip (dict_keys r) ((λ c, row_get r c) <$> dict_keys r).

(** No row of the source names a column twice, as the keys of a Python
    dictionary never do. *)
Definition columns_distinct (src : Source) : bool :=
  forallb (λ '(_, rows), forallb (λ r : Row, bool_decide (NoDup (dict_keys r))) rows)
          (src_tables src).

(** The target refuses no [INSERT]. *)
Definition accepts_all (tgt : Target) : Prop :=
  ∀ tables t r, tgt_insert_raises tgt tables t r = false.

(** The target connection refuses none of the statements the script sends
    outside a [try]. *)
Definition connection_holds (tgt : Target) : Prop :=
  ∀ log s, tgt_connection_raises tgt log s = false.

(** The exception is the database's, raised by a statement outside a
    [try] that the target connection refuses. *)
Definition target_error (tgt : Target) (e : Exn) : Prop :=
  e = DatabaseError ∧ ∃ log s, tgt_connection_raises tgt log s = true.


(** One turn of the loop over the tables, whatever its commit does. *)
Definition materialized_table (c : Collected) (tgt : Target) (t : string) : Target :=
  (materialize_table c tgt t).1.

(** ** The text of the statements *)

(** [sep.join(l)] *)
Definition join (sep : string) (l : list string) : string := String.concat sep l.

(** [','.join(['%s'] * n)] *)
Definition placeholders (n : nat) : string := join "," (replicate n "%s").

(** Line 82: the text [insert_row] sends, for a table and the columns of a
    row. *)
Definition insert_sql (table : string) (cols : list string) : string :=
  "INSERT INTO `" +:+ table +:+ "` ("
    +:+ join "," ((λ c, "`" +:+ c +:+ "`") <$> cols)
    +:+ ") VALUES (" +:+ placeholders (length cols) +:+ ")".

(** Line 83: the parameters that go with it, [tuple(row[c] for c in cols)]. *)
Definition insert_params (row : Row) : list Value :=
  (λ c, row_get row c) <$> dict_keys row.

(** Lines 153-159: the text and the parameters of the seed query. *)
Definition seed_sql (root_table : string) (city_filter : CityFilter) : string :=
  match city_filter with
  | CityList cities =>
      "SELECT * FROM " +:+ root_table +:+ " WHERE city IN ("
        +:+ placeholders (length cities) +:+ ")"
  | CityScalar _ => "SELECT * FROM " +:+ root_table +:+ " WHERE city=%s"
  end.

Definition seed_params (city_filter : CityFilter) : list Value :=
  match city_filter with
  | CityList cities => cities
  | CityScalar city => [city]
  end.

(** Lines 198-201 and 216-219: the texts of the two fetches of the loop;
    each goes with one parameter. *)
Definition parent_sql (parent_tbl parent_pk_col : string) : string :=
  "SELECT * FROM `" +:+ parent_tbl +:+ "` WHERE `" +:+ parent_pk_col +:+ "`=%s LIMIT 1".

Definition child_sql (child_tbl child_fk_col : string) : string :=
  "SELECT * FROM `" +:+ child_tbl +:+ "` WHERE `" +:+ child_fk_col +:+ "`=%s".

(** The number of [%] characters of a text: with names free of [%], the
    number of its [%s] parameter markers. *)
Fixpoint count_percent (s : string) : nat :=
  match s with
  | EmptyString => 0
  | String a s' => (if Ascii.eqb a "%"%char then 1 else 0) + count_percent s'
  end.

(** * Properties *)

(** ** Results and loops *)

Lemma bind_Ok {A B} (m : Result A) (k : A → Result B) (b : B) :
  bind m k = Ok b → ∃ a, m = Ok a ∧ k a = Ok b.
Proof. destruct m as [a|e]; simpl; [eauto | discriminate]. Qed.

(** An invariant of the body is an invariant of the loop. *)
Lemma for_each_inv {A S} (body : S → A → Result S) (P : S → Prop) xs :
  (∀ s x s', x ∈ xs → P s → body s x = Ok s' → P s') →
  ∀ s s', P s → for_each body xs s = Ok s' → P s'.
Proof.
  induction xs as [|x xs IH]; intros Hbody s s' HP Hrun; simpl in Hrun.
  - by injection Hrun as <-.
  - apply bind_Ok in Hrun as (s1 & H1 & H2).
    eapply IH; [| |done].
    + intros ? ? ? ?. apply Hbody. by right.
    + eapply Hbody; [left|done..].
Qed.

(** What each turn establishes for its element, and later turns keep,
    holds for every element when the loop ends. *)
Lemma for_each_post {A S} (body : S → A → Result S) (P : S → Prop)
      (Q : A → S → Prop) xs :
  (∀ s x s', x ∈ xs → P s → body s x = Ok s' → P s' ∧ Q x s') →
  (∀ s x y s', P s → Q y s → body s x = Ok s' → Q y s') →
  ∀ s s', P s → for_each body xs s = Ok s' → P s' ∧ ∀ x, x ∈ xs → Q x s'.
Proof.
  induction xs as [|x xs IH]; intros Hbody Hkeep s s' HP Hrun; simpl in Hrun.
  - injection Hrun as <-. split; [done|]. intros x Hx. by apply elem_of_nil in Hx.
  - apply bind_Ok in Hrun as (s1 & H1 & H2).
    destruct (Hbody s x s1) as [HP1 HQ1]; [left|done..|].
    destruct (IH (λ s0 y s0' Hy, Hbody s0 y s0' (list_elem_of_further _ _ _ Hy)) Hkeep
                 s1 s' HP1 H2) as [HP' HQ'].
    split; [done|]. intros y [->|Hy]%elem_of_cons; [|by apply HQ'].
    refine (proj2 (for_each_inv body (λ s0, P s0 ∧ Q x s0) xs _ s1 s' (conj HP1 HQ1) H2)).
    intros s0 z s0' Hz [HP0 HQ0] Hz'. split.
    + eapply Hbody; [right; exact Hz|done..].
    + eapply Hkeep; done.
Qed.

(** ** Dictionaries *)

Section DictFacts.
Context {K V : Type} `{EqDecision K}.
Implicit Types (d : list (K * V)) (k : K) (v : V).

Lemma dict_get_set d k v k' :
  dict_get (dict_set d k v) k' = if decide (k = k') then Some v else dict_get d k'.
Proof.
  induction d as [|[k0 v0] d IH]; simpl.
  - by destruct (decide (k = k')).
  - destruct (decide (k0 = k)) as [->|Hne]; simpl.
    + by destruct (decide (k = k')).
    + rewrite IH. destruct (decide (k0 = k')), (decide (k = k')); congruence.
Qed.

Lemma dict_get_None d k : dict_get d k = None ↔ k ∉ dict_keys d.
Proof.
  unfold dict_keys. induction d as [|[k0 v0] d IH]; simpl.
  - split; [intros _; apply not_elem_of_nil | done].
  - rewrite not_elem_of_cons. case_decide; [|naive_solver].
    split; [discriminate | naive_solver].
Qed.

Lemma dict_get_Some_elem d k v : dict_get d k = Some v → (k, v) ∈ d.
Proof.
  induction d as [|[k0 v0] d IH]; simpl; [discriminate|].
  case_decide; [|right; auto]. intros [= <-]. subst. left.
Qed.

Lemma dict_elem_get d k v :
  NoDup (dict_keys d) → (k, v) ∈ d → dict_get d k = Some v.
Proof.
  unfold dict_keys. induction d as [|[k0 v0] d IH]; simpl.
  - intros _ Hin. by apply elem_of_nil in Hin.
  - intros [Hk0 Hnd]%NoDup_cons [[= -> ->]|Hin]%elem_of_cons.
    + by case_decide.
    + case_decide; [|auto]. subst. exfalso. apply Hk0.
      apply list_elem_of_fmap. by exists (k, v).
Qed.

(** A new key goes last, an old one is updated where it is. *)
Lemma dict_set_new d k v : dict_get d k = None → dict_set d k v = d ++ [(k, v)].
Proof.
  induction d as [|[k0 v0] d IH]; simpl; [done|].
  case_decide; [discriminate|]. intros ?. by rewrite IH.
Qed.

Lemma dict_keys_set_old d k v :
  is_Some (dict_get d k) → dict_keys (dict_set d k v) = dict_keys d.
Proof.
  unfold dict_keys. induction d as [|[k0 v0] d IH]; simpl.
  - by intros [? ?].
  - case_decide; simpl; [by subst | intros ?; f_equal; auto].
Qed.

Lemma dict_keys_set_new d k v :
  dict_get d k = None → dict_keys (dict_set d k v) = dict_keys d ++ [k].
Proof. intros ?. rewrite dict_set_new by done. unfold dict_keys. by rewrite fmap_app. Qed.

Lemma dict_set_NoDup d k v : NoDup (dict_keys d) → NoDup (dict_keys (dict_set d k v)).
Proof.
  intros Hnd. destruct (dict_get d k) eqn:Hget.
  - by rewrite dict_keys_set_old.
  - rewrite dict_keys_set_new by done. apply NoDup_app. split_and!; [done| |apply NoDup_singleton].
    intros x Hx ->%list_elem_of_singleton. by apply dict_get_None in Hget.
Qed.

Lemma dict_mem_true d k : dict_mem d k = true ↔ is_Some (dict_get d k).
Proof. unfold dict_mem. destruct (dict_get d k); split; (done || by intros [? ?] || eauto). Qed.

Lemma dict_mem_false d k : dict_mem d k = false ↔ dict_get d k = None.
Proof. unfold dict_mem. by destruct (dict_get d k). Qed.
End DictFacts.

(** ** Sorting *)

Section SortFacts.
Context {A : Type} (key : A → nat).
Implicit Types (x : A) (l : list A).

Lemma insert_by_Permutation x l : insert_by key x l ≡ₚ x :: l.
Proof.
  induction l as [|y l IH]; simpl; [done|].
  case_decide; [done|]. rewrite IH. apply Permutation_swap.
Qed.

Lemma sort_by_Permutation l : sort_by key l ≡ₚ l.
Proof.
  induction l as [|x l IH]; simpl; [done|].
  by rewrite insert_by_Permutation, IH.
Qed.

Lemma insert_by_sorted x l :
  StronglySorted (key_le key) l → StronglySorted (key_le key) (insert_by key x l).
Proof.
  induction l as [|y l IH]; simpl; intros Hs.
  - repeat constructor.
  - apply StronglySorted_cons in Hs as [Hy Hs]. case_decide as Hle.
    + apply StronglySorted_cons. split; [|by apply StronglySorted_cons].
      constructor; [done|]. eapply Forall_impl; [exact Hy|].
      unfold key_le in *. simpl. intros. lia.
    + apply StronglySorted_cons. split; [|auto].
      rewrite insert_by_Permutation. constructor; [|done]. unfold key_le. lia.
Qed.

Lemma sort_by_sorted l : StronglySorted (key_le key) (sort_by key l).
Proof. induction l; simpl; [constructor | by apply insert_by_sorted]. Qed.


End SortFacts.

(** ** The target connection *)

Lemma tgt_execute_log tgt s : tgt_log (tgt_execute tgt s).1 = tgt_log tgt ++ [s].
Proof. destruct s; simpl; repeat case_match; done. Qed.

Lemma tgt_execute_truncate_raises tgt s :
  tgt_truncate_raises (tgt_execute tgt s).1 = tgt_truncate_raises tgt.
Proof. destruct s; simpl; repeat case_match; done. Qed.

Lemma tgt_execute_connection_raises tgt s :
  tgt_connection_raises (tgt_execute tgt s).1 = tgt_connection_raises tgt.
Proof. destruct s; simpl; repeat case_match; done. Qed.

(** Only [COMMIT] moves the committed tables. *)
Lemma tgt_execute_committed tgt s :
  s ≠ SCommit → tgt_committed (tgt_execute tgt s).1 = tgt_committed tgt.
Proof. destruct s; simpl; repeat case_match; done. Qed.

(** A statement that raises leaves the tables as they were, committed or
    not. *)
Lemma tgt_execute_Raise tgt s e :
  (tgt_execute tgt s).2 = Raise e →
  tgt_tables (tgt_execute tgt s).1 = tgt_tables tgt
  ∧ tgt_committed (tgt_execute tgt s).1 = tgt_committed tgt.
Proof. destruct s; simpl; repeat case_match; done. Qed.

(** The statements outside any [try] raise when the connection says so,
    and only then. *)
Lemma tgt_execute_unguarded tgt s :
  (∀ t, s ≠ STruncate t) → (∀ t cols vals, s ≠ SInsert t cols vals) →
  (tgt_execute tgt s).2
  = if tgt_connection_raises tgt (tgt_log tgt) s then Raise DatabaseError else Ok tt.
Proof.
  intros Htrunc Hins. destruct s as [|on|t|t cols vals|]; simpl.
  - by case_match.
  - by case_match.
  - by destruct (Htrunc t).
  - by destruct (Hins t cols vals).
  - by case_match.
Qed.

Lemma and_then_Ok r k tgt' :
  and_then r k = (tgt', Ok tt) → ∃ tgt0, r = (tgt0, Ok tt) ∧ k tgt0 = (tgt', Ok tt).
Proof. destruct r as [tgt0 [[]|e]]; simpl; [eauto | done]. Qed.

Lemma and_then_Raise r k tgt' e :
  and_then r k = (tgt', Raise e) →
  r = (tgt', Raise e) ∨ ∃ tgt0, r = (tgt0, Ok tt) ∧ k tgt0 = (tgt', Raise e).
Proof. destruct r as [tgt0 [[]|e0]]; simpl; [eauto | by intros [= -> ->]; left]. Qed.

Lemma try_truncate_eq tgt t : try_truncate tgt t = (tgt_execute tgt (STruncate t)).1.
Proof. unfold try_truncate. by destruct (tgt_execute _ _) as [? []]. Qed.

Lemma try_insert_eq t tgt r : try_insert t tgt r = (insert_row tgt t r).1.
Proof. unfold try_insert. by destruct (insert_row _ _ _) as [? []]. Qed.


Lemma try_insert_log t tgt r : tgt_log (try_insert t tgt r) = tgt_log tgt ++ [insert_stmt t r].
Proof. rewrite try_insert_eq. apply tgt_execute_log. Qed.

Lemma try_insert_committed t tgt r : tgt_committed (try_insert t tgt r) = tgt_committed tgt.
Proof. rewrite try_insert_eq. by apply tgt_execute_committed. Qed.

Lemma insert_rows_log t rows tgt :
  tgt_log (foldl (try_insert t) tgt rows) = tgt_log tgt ++ (insert_stmt t <$> rows).
Proof.
  revert tgt. induction rows as [|r rows IH]; intros tgt; simpl.
  - by rewrite app_nil_r.
  - by rewrite IH, try_insert_log, <- app_assoc.
Qed.

Lemma insert_rows_committed t rows tgt :
  tgt_committed (foldl (try_insert t) tgt rows) = tgt_committed tgt.
Proof.
  revert tgt. induction rows as [|r rows IH]; intros tgt; simpl; [done|].
  by rewrite IH, try_insert_committed.
Qed.


Lemma try_insert_connection_raises t tgt r :
  tgt_connection_raises (try_insert t tgt r) = tgt_connection_raises tgt.
Proof. rewrite try_insert_eq. apply tgt_execute_connection_raises. Qed.

Lemma insert_rows_connection_raises t rows tgt :
  tgt_connection_raises (foldl (try_insert t) tgt rows) = tgt_connection_raises tgt.
Proof.
  revert tgt. induction rows as [|r rows IH]; intros tgt; simpl; [done|].
  by rewrite IH, try_insert_connection_raises.
Qed.

Lemma commit_log tgt : tgt_log (commit tgt).1 = tgt_log tgt ++ [SCommit].
Proof. apply tgt_execute_log. Qed.

(** A commit that goes through makes the session's tables the committed
    ones; a commit that raises changes neither. *)
Lemma commit_Ok tgt :
  (commit tgt).2 = Ok tt →
  tgt_tables (commit tgt).1 = tgt_tables tgt
  ∧ tgt_committed (commit tgt).1 = tgt_tables tgt
  ∧ tgt_fk_checks (commit tgt).1 = tgt_fk_checks tgt.
Proof. unfold commit. simpl. by case_match. Qed.

Lemma commit_Raise tgt e :
  (commit tgt).2 = Raise e →
  tgt_tables (commit tgt).1 = tgt_tables tgt
  ∧ tgt_committed (commit tgt).1 = tgt_committed tgt.
Proof. apply tgt_execute_Raise. Qed.

Lemma commit_tables tgt : tgt_tables (commit tgt).1 = tgt_tables tgt.
Proof. unfold commit. simpl. by case_match. Qed.

Lemma commit_result tgt :
  (commit tgt).2
  = if tgt_connection_raises tgt (tgt_log tgt) SCommit then Raise DatabaseError else Ok tt.
Proof. by apply tgt_execute_unguarded. Qed.

Lemma materialize_table_log c tgt t :
  tgt_log (materialize_table c tgt t).1 = tgt_log tgt ++ table_stmts c t.
Proof.
  unfold materialize_table, table_stmts.
  by rewrite commit_log, insert_rows_log, <- app_assoc.
Qed.

Lemma materialize_table_connection_raises c tgt t :
  tgt_connection_raises (materialize_table c tgt t).1 = tgt_connection_raises tgt.
Proof.
  unfold materialize_table, commit.
  by rewrite tgt_execute_connection_raises, insert_rows_connection_raises.
Qed.

(** The loop over the tables gets through the tables before the first
    commit that raises, that one included, and through all of them when it
    returns. *)
Lemma materialize_tables_log c ts tgt :
  ∃ done rest,
    ts = done ++ rest
    ∧ tgt_log (materialize_tables c tgt ts).1 = tgt_log tgt ++ concat (table_stmts c <$> done)
    ∧ ((materialize_tables c tgt ts).2 = Ok tt → rest = []).
Proof.
  revert tgt. induction ts as [|t ts IH]; intros tgt; simpl.
  - exists [], []. simpl. rewrite app_nil_r. by split_and!.
  - pose proof (materialize_table_log c tgt t) as Hlog.
    destruct (materialize_table c tgt t) as [tgt1 [[]|e]]; simpl in *.
    + destruct (IH tgt1) as (done & rest & -> & Hlog' & Hrest).
      exists (t :: done), rest. split; [done|]. split; [|done].
      by rewrite Hlog', Hlog, fmap_cons, concat_cons, <- !app_assoc.
    + exists [t], ts. split; [done|]. split; [|done].
      by rewrite Hlog, fmap_cons, concat_cons, app_nil_r.
Qed.

(** Nothing but a commit can stop the loop. *)
Lemma materialize_tables_Ok c ts tgt :
  (∀ log, tgt_connection_raises tgt log SCommit = false) →
  (materialize_tables c tgt ts).2 = Ok tt.
Proof.
  revert tgt. induction ts as [|t ts IH]; intros tgt Hnever; simpl; [done|].
  pose proof (materialize_table_connection_raises c tgt t) as Hsame.
  assert (Hres : (materialize_table c tgt t).2 = Ok tt).
  { unfold materialize_table. rewrite commit_result, insert_rows_connection_raises.
    by rewrite Hnever. }
  destruct (materialize_table c tgt t) as [tgt1 res]; simpl in *; subst res. simpl.
  apply IH. intros log. by rewrite Hsame.
Qed.

(** Clearing: one [TRUNCATE] per table, whatever the earlier ones did. *)
Lemma truncate_all_log ts tgt :
  tgt_log (foldl try_truncate tgt ts) = tgt_log tgt ++ (STruncate <$> ts).
Proof.
  revert tgt. induction ts as [|t ts IH]; intros tgt; simpl.
  - by rewrite app_nil_r.
  - by rewrite IH, try_truncate_eq, tgt_execute_log, <- app_assoc.
Qed.

Lemma try_truncate_get tgt t t' :
  dict_get (tgt_tables (try_truncate tgt t)) t' =
  if decide (t = t' ∧ tgt_truncate_raises tgt t = false ∧ is_Some (dict_get (tgt_tables tgt) t))
  then Some [] else dict_get (tgt_tables tgt) t'.
Proof.
  rewrite try_truncate_eq. simpl. unfold dict_mem.
  destruct (dict_get (tgt_tables tgt) t) as [rows|] eqn:Ht; simpl;
    destruct (tgt_truncate_raises tgt t) eqn:Hr; simpl.
  - case_decide; [naive_solver | done].
  - rewrite dict_get_set. repeat case_decide; naive_solver.
  - case_decide as H; [|done]. destruct H as (_ & _ & [? ?]). done.
  - case_decide as H; [|done]. destruct H as (_ & _ & [? ?]). done.
Qed.

Lemma try_truncate_keys tgt t :
  dict_keys (tgt_tables (try_truncate tgt t)) = dict_keys (tgt_tables tgt).
Proof.
  rewrite try_truncate_eq. simpl. unfold dict_mem.
  destruct (dict_get (tgt_tables tgt) t) as [rows|] eqn:Ht; simpl; [|done].
  destruct (tgt_truncate_raises tgt t); simpl; [done|].
  apply dict_keys_set_old. by rewrite Ht.
Qed.

Lemma truncate_all_keys ts tgt :
  dict_keys (tgt_tables (foldl try_truncate tgt ts)) = dict_keys (tgt_tables tgt).
Proof.
  revert tgt. induction ts as [|t ts IH]; intros tgt; simpl; [done|].
  by rewrite IH, try_truncate_keys.
Qed.

(** A table whose [TRUNCATE] raises keeps its rows. *)
Lemma truncate_all_kept ts tgt t :
  tgt_truncate_raises tgt t = true →
  dict_get (tgt_tables (foldl try_truncate tgt ts)) t = dict_get (tgt_tables tgt) t.
Proof.
  revert tgt. induction ts as [|t0 ts IH]; intros tgt Hr; simpl; [done|].
  rewrite IH.
  - rewrite try_truncate_get. case_decide as H; [|done].
    destruct H as (-> & ? & _). congruence.
  - by rewrite try_truncate_eq, tgt_execute_truncate_raises.
Qed.

(** A listed table whose [TRUNCATE] goes through ends up empty, and an
    empty table stays empty. *)
Lemma truncate_all_empty ts tgt t :
  dict_get (tgt_tables tgt) t = Some [] →
  dict_get (tgt_tables (foldl try_truncate tgt ts)) t = Some [].
Proof.
  revert tgt. induction ts as [|t0 ts IH]; intros tgt Hget; simpl; [done|].
  apply IH. rewrite try_truncate_get. by case_decide.
Qed.

Lemma truncate_all_cleared ts tgt t :
  t ∈ ts → is_Some (dict_get (tgt_tables tgt) t) → tgt_truncate_raises tgt t = false →
  dict_get (tgt_tables (foldl try_truncate tgt ts)) t = Some [].
Proof.
  revert tgt. induction ts as [|t0 ts IH]; intros tgt Hin Hsome Hr; simpl.
  - by apply elem_of_nil in Hin.
  - destruct (decide (t0 = t)) as [->|Hne].
    + apply truncate_all_empty. rewrite try_truncate_get. by rewrite decide_True.
    + apply elem_of_cons in Hin as [->|Hin]; [done|].
      apply IH; [done| |by rewrite try_truncate_eq, tgt_execute_truncate_raises].
      rewrite try_truncate_get. case_decide; [naive_solver | done].
Qed.

(** ** Primary keys *)

(** C3, the claim as stated fails: for a table that does not exist and
    for a table that has no primary key, [get_pk] returns the empty list
    as a normal result; nothing is raised. *)
Lemma get_pk_returns_empty_list :
  get_pk shop "shop" "ghost" = Ok [] ∧ get_pk shop "shop" "regions" = Ok [].
Proof. split; vm_compute; reflexivity. Qed.

(** C3, amended: when the catalog holds no [PRIMARY] line for the table
    (it does not exist, or it has no primary key), [get_pk] returns the
    empty list as a normal result; it raises only when the catalog query
    itself does, and then with the database's error. *)
Theorem get_pk_no_primary_key src db table :
  primary_key_rows src db table = [] →
  get_pk src db table =
    if src_raises src (QPrimaryKey db table) then Raise DatabaseError else Ok [].
Proof.
  intros Hnone. unfold get_pk, execute.
  destruct (src_raises src _); simpl; [done|]. by rewrite Hnone.
Qed.

Lemma get_pk_no_primary_key_witness :
  primary_key_rows shop "shop" "regions" = [] ∧ get_pk shop "shop" "regions" = Ok [].
Proof.
  split; [vm_compute; reflexivity|].
  apply (get_pk_no_primary_key shop "shop" "regions"). vm_compute; reflexivity.
Defined.

(** ** Materialization *)

Lemma try_insert_tables t tgt r :
  tgt_tables (try_insert t tgt r) = tgt_tables tgt ∨ (insert_row tgt t r).2 = Ok tt.
Proof.
  rewrite try_insert_eq. destruct (insert_row tgt t r).2 as [[]|e] eqn:Hres; [by right|].
  left. by eapply tgt_execute_Raise.
Qed.

(** C7: materialization never stops on a refused row.  For each table
    in turn the target receives an [INSERT] for every collected row, in
    order, whatever the earlier ones did, then one [COMMIT]; the loop gets
    through every table unless a [COMMIT], which is under no [try],
    raises, and a target that refuses no [COMMIT] lets the loop return
    whatever rows it refuses.  A refused [INSERT] leaves the tables as they
    were.  The rows of a table are not committed while they are being
    inserted; they are once the commit of the table has gone through, and
    a commit that raises commits nothing. *)
Theorem insert_errors_isolated references c tgt :
  (∃ done rest,
     ordered_tables references c = done ++ rest
     ∧ tgt_log (materialize references c tgt).1
       = tgt_log tgt ++ concat (table_stmts c <$> done)
     ∧ ((materialize references c tgt).2 = Ok tt → rest = []))
  ∧ ((∀ log, tgt_connection_raises tgt log SCommit = false) →
     (materialize references c tgt).2 = Ok tt)
  ∧ (∀ tgt0 t r,
       tgt_log (try_insert t tgt0 r) = tgt_log tgt0 ++ [insert_stmt t r]
       ∧ (tgt_tables (try_insert t tgt0 r) = tgt_tables tgt0
          ∨ (insert_row tgt0 t r).2 = Ok tt))
  ∧ (∀ tgt0 t,
       let inserted := foldl (try_insert t) tgt0 (dict_values (collected_rows c t)) in
       tgt_log (materialize_table c tgt0 t).1 = tgt_log tgt0 ++ table_stmts c t
       ∧ tgt_committed inserted = tgt_committed tgt0
       ∧ tgt_tables (materialize_table c tgt0 t).1 = tgt_tables inserted
       ∧ ((materialize_table c tgt0 t).2 = Ok tt →
          tgt_committed (materialize_table c tgt0 t).1 = tgt_tables inserted)
       ∧ (∀ e, (materialize_table c tgt0 t).2 = Raise e →
               tgt_committed (materialize_table c tgt0 t).1 = tgt_committed tgt0)).
Proof.
  split_and!.
  - apply materialize_tables_log.
  - apply materialize_tables_Ok.
  - intros. split; [apply try_insert_log | apply try_insert_tables].
  - intros tgt0 t inserted. split_and!.
    + apply materialize_table_log.
    + apply insert_rows_committed.
    + apply commit_tables.
    + by intros (_ & ? & _)%commit_Ok.
    + intros e (_ & Hc)%commit_Raise. unfold materialize_table. rewrite Hc.
      apply insert_rows_committed.
Qed.

(** A refused row in the middle: the rows after it still land. *)
Example insert_errors_isolated_run :
  let tgt := {| tgt_tables := [("orders", [])]; tgt_committed := [("orders", [])];
                tgt_fk_checks := true; tgt_log := [];
                tgt_truncate_raises := λ _, false;
                tgt_insert_raises := λ _ _ r, bool_decide (r = order 11 2);
                tgt_connection_raises := λ _ _, false |} in
  let c := [("orders", [([VInt 10], order 10 1); ([VInt 11], order 11 2);
                        ([VInt 12], order 12 3)])] in
  (materialize ∅ c tgt).2 = Ok tt
  ∧ tgt_committed (materialize ∅ c tgt).1 = [("orders", [order 10 1; order 12 3])].
Proof. split; vm_compute; reflexivity. Qed.

(** A refused commit: on a connection lost at the commit of the first
    table, [regions], the run ends there with the exception; the row of
    [regions] was sent and is not committed, and the other tables are
    never reached. *)
Example commit_error_aborts_run :
  match main 11 (shop_cfg "Springfield") shop staging_lost with
  | Some (tgt', res) =>
      res = Raise DatabaseError
      ∧ length (inserts_into "regions" (tgt_log tgt')) = 1
      ∧ inserts_into "customers" (tgt_log tgt') = []
      ∧ length <$> dict_get (tgt_tables tgt') "regions" = Some 1
      ∧ dict_get (tgt_committed tgt') "regions" = Some []
  | None => False
  end.
Proof. vm_compute. split_and!; reflexivity. Qed.

Lemma graph_get_append g t' e t :
  graph_get (graph_append g t' e) t
  = if decide (t' = t) then graph_get g t ++ [e] else graph_get g t.
Proof.
  unfold graph_get, graph_append. rewrite lookup_insert.
  case_decide; [by subst | done].
Qed.

(** [references[t]] lists the foreign keys that leave [t], and
    [referenced_by[t]] those that point at it. *)
Lemma discover_fk_graphs src db references referenced_by t :
  discover_fk src db = Ok (references, referenced_by) →
  graph_get references t = outgoing_edges src db t
  ∧ graph_get referenced_by t = incoming_edges src db t.
Proof.
  unfold discover_fk, outgoing_edges, incoming_edges.
  intros (_ & _ & [= Hfold])%bind_Ok. revert Hfold.
  assert (Hgen : ∀ rows g1 g2 refs refd,
    foldl (λ '(references, referenced_by) '(tbl, col, ref_tbl, ref_col),
             (graph_append references tbl (ref_tbl, col, ref_col),
              graph_append referenced_by ref_tbl (tbl, col, ref_col)))
          (g1, g2) rows = (refs, refd) →
    graph_get refs t
      = graph_get g1 t ++ omap (λ '(tbl, col, ref_tbl, ref_col),
          if decide (tbl = t) then Some (ref_tbl, col, ref_col) else None) rows
    ∧ graph_get refd t
      = graph_get g2 t ++ omap (λ '(tbl, col, ref_tbl, ref_col),
          if decide (ref_tbl = t) then Some (tbl, col, ref_col) else None) rows).
  { induction rows as [|[[[tbl col] ref_tbl] ref_col] rows IH]; intros g1 g2 refs refd; simpl.
    - intros [= <- <-]. by rewrite !app_nil_r.
    - intros Hfold. apply IH in Hfold as [-> ->]. rewrite !graph_get_append.
      split; case_decide; simpl; by rewrite <- ?app_assoc. }
  intros Hfold. apply Hgen in Hfold as [-> ->]. done.
Qed.


(** The shop: [regions] has no foreign key, [customers] and [orders] one
    each; [regions] was collected second and is materialized first. *)
Example materialize_order_run :
  ∃ references c,
    closure 10 (shop_cfg "Springfield") shop = Some (Ok (Some (references, c)))
    ∧ dict_keys c = ["customers"; "regions"; "orders"]
    ∧ ordered_tables references c = ["regions"; "customers"; "orders"].
Proof.
  exists (run_closure 10 (shop_cfg "Springfield") shop).1,
         (run_closure 10 (shop_cfg "Springfield") shop).2.
  split_and!; vm_compute; reflexivity.
Qed.

(** ** Clearing the target *)

Lemma truncate_all_connection_raises ts tgt :
  tgt_connection_raises (foldl try_truncate tgt ts) = tgt_connection_raises tgt.
Proof.
  revert tgt. induction ts as [|t ts IH]; intros tgt; simpl; [done|].
  by rewrite IH, try_truncate_eq, tgt_execute_connection_raises.
Qed.

Lemma truncate_all_committed ts tgt :
  tgt_committed (foldl try_truncate tgt ts) = tgt_committed tgt.
Proof.
  revert tgt. induction ts as [|t ts IH]; intros tgt; simpl; [done|].
  by rewrite IH, try_truncate_eq, tgt_execute_committed.
Qed.

(** What the clear and its commit have sent when one of their unguarded
    statements raises: the statements up to that one. *)
Lemma cleared_log tgt :
  ∃ stmts later,
    clear_stmts tgt = stmts ++ later
    ∧ tgt_log (cleared tgt).1 = tgt_log tgt ++ stmts
    ∧ ((cleared tgt).2 = Ok tt → later = []).
Proof.
  unfold cleared, clear_target_database, clear_stmts, and_then, commit. simpl.
  destruct (tgt_connection_raises tgt (tgt_log tgt) SListTables); simpl.
  { by exists [SListTables], ([SSetForeignKeyChecks false]
       ++ (STruncate <$> dict_keys (tgt_tables tgt)) ++ [SSetForeignKeyChecks true; SCommit]). }
  destruct (tgt_connection_raises tgt _ (SSetForeignKeyChecks false)); simpl.
  { exists [SListTables; SSetForeignKeyChecks false],
      ((STruncate <$> dict_keys (tgt_tables tgt)) ++ [SSetForeignKeyChecks true; SCommit]).
    by rewrite <- app_assoc. }
  match goal with |- context [foldl try_truncate ?t0 ?ts] =>
    pose proof (truncate_all_log ts t0) as Hlog;
    pose proof (truncate_all_connection_raises ts t0) as Hconn;
    destruct (foldl try_truncate t0 ts) as [tbl com fk log tr ir cr] eqn:Hfold
  end.
  simpl in *. subst cr log.
  destruct (tgt_connection_raises tgt _ (SSetForeignKeyChecks true)); simpl.
  { exists ([SListTables; SSetForeignKeyChecks false]
            ++ (STruncate <$> dict_keys (tgt_tables tgt)) ++ [SSetForeignKeyChecks true]),
      [SCommit].
    split; [by rewrite <- !app_assoc|]. split; [|done]. by rewrite <- !app_assoc. }
  exists ([SListTables; SSetForeignKeyChecks false]
          ++ (STruncate <$> dict_keys (tgt_tables tgt)) ++ [SSetForeignKeyChecks true; SCommit]),
    [].
  split; [by rewrite app_nil_r|].
  destruct (tgt_connection_raises tgt _ SCommit); simpl; by rewrite <- !app_assoc.
Qed.

(** When the clear and its commit go through, every statement of the
    clear was sent, the tables are what the [TRUNCATE]s left and are
    committed, and the foreign-key checks are on. *)
Lemma cleared_Ok tgt tgt' :
  cleared tgt = (tgt', Ok tt) →
  tgt_log tgt' = tgt_log tgt ++ clear_stmts tgt
  ∧ (∃ tgt0, tgt_tables tgt0 = tgt_tables tgt
             ∧ tgt_truncate_raises tgt0 = tgt_truncate_raises tgt
             ∧ tgt_tables tgt'
               = tgt_tables (foldl try_truncate tgt0 (dict_keys (tgt_tables tgt))))
  ∧ tgt_committed tgt' = tgt_tables tgt'
  ∧ tgt_fk_checks tgt' = true.
Proof.
  intros Hcleared.
  destruct (cleared_log tgt) as (stmts & later & Hstmts & Hlog & Hlater).
  rewrite Hcleared in Hlog, Hlater. simpl in *.
  rewrite Hlater in Hstmts by done. rewrite app_nil_r in Hstmts. subst stmts.
  split; [done|]. clear Hlog Hlater. revert Hcleared.
  unfold cleared, clear_target_database, and_then, commit. simpl.
  destruct (tgt_connection_raises tgt (tgt_log tgt) SListTables); simpl; [done|].
  destruct (tgt_connection_raises tgt _ (SSetForeignKeyChecks false)); simpl; [done|].
  match goal with |- context [foldl try_truncate ?t0 ?ts] =>
    pose proof (truncate_all_connection_raises ts t0) as Hconn;
    set (tgt0 := t0) in *;
    destruct (foldl try_truncate tgt0 ts) as [tbl com fk log tr ir cr] eqn:Hfold
  end.
  simpl in Hconn. subst cr. simpl.
  destruct (tgt_connection_raises tgt _ (SSetForeignKeyChecks true)); simpl; [done|].
  destruct (tgt_connection_raises tgt _ SCommit); simpl; [done|].
  intros [= <-]. simpl. split; [|done].
  exists tgt0. by rewrite Hfold.
Qed.


(** ** The collected rows *)

Lemma collected_rows_set c t d t' :
  collected_rows (dict_set c t d) t' = if decide (t = t') then d else collected_rows c t'.
Proof. unfold collected_rows. rewrite dict_get_set. by case_decide. Qed.

Lemma collected_item_rows c t : (collected_item c t).2 = collected_rows c t.
Proof. unfold collected_item, collected_rows. by destruct (dict_get c t). Qed.

(** Reading a table that is not there creates it, and changes no row. *)
Lemma collected_item_lookup c t t' k :
  lookup_row (collected_item c t).1 t' k = lookup_row c t' k.
Proof.
  unfold collected_item, lookup_row. destruct (dict_get c t) eqn:Hget; simpl; [done|].
  rewrite collected_rows_set. case_decide; [|done]. subst.
  unfold collected_rows. by rewrite Hget.
Qed.

Lemma collected_item_size c t t' :
  length (collected_rows (collected_item c t).1 t') = length (collected_rows c t').
Proof.
  unfold collected_item. destruct (dict_get c t) eqn:Hget; simpl; [done|].
  rewrite collected_rows_set. case_decide; [|done]. subst.
  unfold collected_rows. by rewrite Hget.
Qed.

Lemma collected_item_keys_unique c t : keys_unique c → keys_unique (collected_item c t).1.
Proof.
  intros [Hts Hks]. unfold collected_item. destruct (dict_get c t) eqn:Hget; simpl; [done|].
  split; [by apply dict_set_NoDup|]. intros t'. rewrite collected_rows_set.
  case_decide; [apply NoDup_nil_2 | apply Hks].
Qed.

Lemma collected_store_eq c t k r :
  collected_store c t k r
  = dict_set (collected_item c t).1 t (dict_set (collected_item c t).2 k r).
Proof. unfold collected_store. by destruct (collected_item c t). Qed.

Lemma collected_store_lookup c t k r t' k' :
  lookup_row (collected_store c t k r) t' k'
  = if decide (t = t' ∧ k = k') then Some r else lookup_row c t' k'.
Proof.
  rewrite collected_store_eq. unfold lookup_row at 1. rewrite collected_rows_set.
  destruct (decide (t = t')) as [<-|Hne].
  - rewrite dict_get_set, collected_item_rows.
    destruct (decide (k = k')); case_decide; naive_solver.
  - fold (lookup_row (collected_item c t).1 t' k'). rewrite collected_item_lookup.
    case_decide; naive_solver.
Qed.

Lemma dict_set_length {K V} `{EqDecision K} (d : list (K * V)) k v :
  length d ≤ length (dict_set d k v).
Proof. induction d as [|[k0 v0] d IH]; simpl; [lia|]. case_decide; simpl; lia. Qed.

Lemma collected_store_size c t k r t' :
  length (collected_rows c t') ≤ length (collected_rows (collected_store c t k r) t').
Proof.
  rewrite collected_store_eq, collected_rows_set. case_decide.
  - subst. rewrite collected_item_rows. apply dict_set_length.
  - by rewrite collected_item_size.
Qed.

Lemma collected_store_keys_unique c t k r :
  keys_unique c → keys_unique (collected_store c t k r).
Proof.
  intros Hu. pose proof (collected_item_keys_unique c t Hu) as [Hts Hks].
  rewrite collected_store_eq. split; [by apply dict_set_NoDup|].
  intros t'. rewrite collected_rows_set. case_decide; [|apply Hks].
  apply dict_set_NoDup. rewrite collected_item_rows. apply Hu.
Qed.

(** With unique keys, being listed and being looked up are the same. *)
Lemma lookup_row_elem c t k r :
  keys_unique c → (k, r) ∈ collected_rows c t ↔ lookup_row c t k = Some r.
Proof.
  intros [_ Hks]. split; [by apply dict_elem_get | apply dict_get_Some_elem].
Qed.

(** ** The potential *)

Lemma filter_length_lt {A} (P1 P2 : A → Prop) `{∀ x, Decision (P1 x)}
      `{∀ x, Decision (P2 x)} (l : list A) x :
  (∀ y, P2 y → P1 y) → x ∈ l → P1 x → ¬ P2 x →
  length (filter P2 l) < length (filter P1 l).
Proof.
  intros Himp Hx H1 H2.
  assert (Hle : ∀ l0, length (filter P2 l0) ≤ length (filter P1 l0)).
  { induction l0 as [|y l0 IH]; simpl; [lia|]. rewrite !filter_cons.
    destruct (decide (P2 y)), (decide (P1 y)); simpl; try lia. naive_solver. }
  induction l as [|y l IH]; [by apply elem_of_nil in Hx|].
  rewrite !filter_cons. apply elem_of_cons in Hx as [<-|Hx].
  - rewrite decide_False, decide_True by done. simpl. specialize (Hle l). lia.
  - specialize (IH Hx). destruct (decide (P2 y)), (decide (P1 y)); simpl; try lia.
    naive_solver.
Qed.

Section ClosureFacts.
Variables (src : Source) (dbname : string).
Variables (references referenced_by : Graph).

Lemma universe_elem t r pk k :
  r ∈ table_rows src t → get_pk src dbname t = Ok pk → row_key r pk = Ok k →
  (t, k) ∈ universe src dbname.
Proof.
  intros Hr Hpk Hk. unfold universe, table_rows in *.
  destruct (dict_get (src_tables src) t) as [rows|] eqn:Hget; simpl in Hr;
    [|by apply elem_of_nil in Hr].
  apply dict_get_Some_elem in Hget.
  apply list_elem_of_bind. exists (t, rows). split; [|done].
  apply list_elem_of_bind. exists r. split; [|done].
  rewrite Hpk, Hk. apply list_elem_of_singleton. done.
Qed.

Lemma missing_length c : length (missing src dbname c) ≤ length (universe src dbname).
Proof. apply length_filter. Qed.

(** Collecting a key of the universe that was missing uses up potential. *)
Lemma missing_store c t k r :
  (t, k) ∈ universe src dbname → lookup_row c t k = None →
  length (missing src dbname (collected_store c t k r)) < length (missing src dbname c).
Proof.
  intros Hu Hnone. unfold missing. eapply filter_length_lt; [|exact Hu|done|].
  - intros [t' k']. simpl. rewrite collected_store_lookup. by case_decide.
  - simpl. rewrite collected_store_lookup. rewrite decide_True by done. done.
Qed.
End ClosureFacts.

(** ** One traversal coming after another *)

Section Extends.
Variables (src : Source) (dbname : string).

Lemma extends_refl st : extends src dbname st st.
Proof.
  split; try done.
  - exists []. split; [by rewrite app_nil_r|]. intros ? ? ? Hin. by apply elem_of_nil in Hin.
  - auto.
Qed.

Lemma extends_trans st1 st2 st3 :
  extends src dbname st1 st2 → extends src dbname st2 st3 → extends src dbname st1 st3.
Proof.
  intros [Hr1 (new1 & Hq1 & Hn1) He1 Hs1 Hp1] [Hr2 (new2 & Hq2 & Hn2) He2 Hs2 Hp2].
  split.
  - auto.
  - exists (new1 ++ new2). split; [by rewrite Hq2, Hq1, app_assoc|].
    intros t pk k [Hin|Hin]%elem_of_app; [eauto|].
    specialize (Hn2 _ _ _ Hin).
    destruct (lookup_row (collected st1) t k) eqn:Hl; [|done].
    apply Hr1 in Hl. congruence.
  - intros t k Hsome. destruct (He2 _ _ Hsome) as [Hsome2|?]; [|by right].
    destruct (He1 _ _ Hsome2) as [?|[pk Hin]]; [by left|].
    right. exists pk. rewrite Hq2. apply elem_of_app. by left.
  - intros t. etrans; [apply Hs1 | apply Hs2].
  - lia.
Qed.

Lemma missing_ext c c' :
  (∀ t k, lookup_row c' t k = lookup_row c t k) →
  missing src dbname c' = missing src dbname c.
Proof. intros Heq. unfold missing. apply list_filter_iff. intros [t k]. simpl. by rewrite Heq. Qed.

(** Reading [collected[t]] is not seen by the properties. *)
Lemma touch_extends st t :
  extends src dbname st
    {| collected := (collected_item (collected st) t).1; pk_cache := pk_cache st; q := q st |}.
Proof.
  split; simpl.
  - intros ? ? ?. by rewrite collected_item_lookup.
  - exists []. split; [by rewrite app_nil_r|]. intros ? ? ? Hin. by apply elem_of_nil in Hin.
  - intros ? ?. rewrite collected_item_lookup. auto.
  - intros ?. by rewrite collected_item_size.
  - unfold potential. simpl. rewrite (missing_ext (collected st)); [done|].
    intros ? ?. apply collected_item_lookup.
Qed.

Lemma touch_ok st t :
  traversal_ok src dbname st →
  traversal_ok src dbname
    {| collected := (collected_item (collected st) t).1; pk_cache := pk_cache st; q := q st |}.
Proof.
  intros (Hc & Hr & Hu). split_and!; simpl; [done| |by apply collected_item_keys_unique].
  intros t' k r. rewrite collected_item_lookup. apply Hr.
Qed.

Lemma ensure_pk_spec cache t pk cache' :
  cache_ok src dbname cache → ensure_pk src dbname cache t = Ok (pk, cache') →
  get_pk src dbname t = Ok pk ∧ cache_ok src dbname cache'
  ∧ (∀ t' pk', cache !! t' = Some pk' → cache' !! t' = Some pk').
Proof.
  intros Hok. unfold ensure_pk. destruct (cache !! t) as [pk0|] eqn:Hc.
  - intros [= <- <-]. auto.
  - intros (pk0 & Hpk & [= <- <-])%bind_Ok. split_and!; [done| |].
    + intros t' pk'. rewrite lookup_insert. case_decide; [|apply Hok].
      intros [= <-]. by subst.
    + intros t' pk' Hc'. rewrite lookup_insert_ne; [done|]. congruence.
Qed.

(** Lines 204-208 and 221-225: a fetched row of the source is collected
    under its row key, unless that key is collected already. *)
Lemma collect_row_extends tbl r st st' :
  traversal_ok src dbname st → r ∈ table_rows src tbl →
  collect_row src dbname tbl r st = Ok st' →
  traversal_ok src dbname st' ∧ extends src dbname st st'
  ∧ ∃ pk k, get_pk src dbname tbl = Ok pk ∧ row_key r pk = Ok k
            ∧ is_Some (lookup_row (collected st') tbl k).
Proof.
  intros (Hc & Hr & Hu) Hin. unfold collect_row.
  intros ([pk cache] & Hpk & (key & Hkey & Hrun)%bind_Ok)%bind_Ok.
  apply ensure_pk_spec in Hpk as (Hpk & Hc' & _); [|done].
  destruct (collected_item (collected st) tbl) as [c1 d] eqn:Hitem.
  assert (Hc1 : c1 = (collected_item (collected st) tbl).1) by by rewrite Hitem.
  assert (Hd : d = collected_rows (collected st) tbl).
  { rewrite <- collected_item_rows. by rewrite Hitem. }
  destruct (dict_mem d key) eqn:Hmem; injection Hrun as <-.
  - apply dict_mem_true in Hmem. rewrite Hd in Hmem.
    pose proof (touch_extends st tbl) as Hext. pose proof (touch_ok st tbl) as Hok.
    rewrite <- Hc1 in Hext, Hok. split_and!.
    + destruct Hok as (_ & Hr1 & Hu1); [done|]. by split_and!.
    + destruct Hext. split; done.
    + exists pk, key. split_and!; [done..|]. simpl. subst c1.
      by rewrite collected_item_lookup.
  - apply dict_mem_false in Hmem. rewrite Hd in Hmem.
    assert (Hstore : dict_set c1 tbl (dict_set d key r)
                     = collected_store (collected st) tbl key r).
    { rewrite collected_store_eq. rewrite <- Hc1, collected_item_rows. by rewrite Hd. }
    rewrite Hstore. split_and!.
    + split_and!; simpl; [done| |by apply collected_store_keys_unique].
      intros t k r'. rewrite collected_store_lookup. case_decide as Heq; [|apply Hr].
      destruct Heq as [<- <-]. intros [= <-]. eauto.
    + split; simpl.
      * intros t k r' Hl. rewrite collected_store_lookup. case_decide as Heq; [|done].
        destruct Heq as [<- <-]. unfold lookup_row in Hl. congruence.
      * exists [(tbl, pk, key)]. split; [done|].
        by intros t pk' k [= -> -> ->]%list_elem_of_singleton.
      * intros t k. rewrite collected_store_lookup. case_decide as Heq; [|auto].
        destruct Heq as [<- <-]. intros _. right. exists pk.
        apply elem_of_app. right. by apply list_elem_of_singleton.
      * intros t. apply collected_store_size.
      * unfold potential. simpl. rewrite length_app. simpl.
        assert (Hlt := missing_store src dbname (collected st) tbl key r
                         (universe_elem src dbname tbl r pk key Hin Hpk Hkey) Hmem). lia.
    + exists pk, key. split_and!; [done..|]. simpl.
      rewrite collected_store_lookup, decide_True by done. eauto.
Qed.
End Extends.

(** ** One turn of the traversal *)

Lemma sql_eq_true a b : sql_eq a b = true → a = b ∧ is_None a = false.
Proof.
  unfold sql_eq. intros [[Ha _]%andb_prop Hab%bool_decide_eq_true]%andb_prop.
  split; [done|]. by apply negb_true_iff.
Qed.

Lemma select_where_elem src t col v r :
  r ∈ select_where src t col v ↔ sql_eq (row_get r col) v = true ∧ r ∈ table_rows src t.
Proof. unfold select_where. by rewrite list_elem_of_filter. Qed.

Section Turn.
Variables (src : Source) (dbname : string).
Variables (references referenced_by : Graph).

Lemma edge_served_mono c c' r e :
  (∀ t k p, lookup_row c t k = Some p → lookup_row c' t k = Some p) →
  edge_served src dbname c r e → edge_served src dbname c' r e.
Proof.
  intros Hmono. destruct e as [[parent_tbl fk_col] parent_pk_col]. simpl.
  intros Hserved Hnn. destruct (Hserved Hnn) as [(k & p' & p & Hl & ?)|?]; [|by right].
  left. exists k, p', p. split; [by apply Hmono | done].
Qed.

Lemma follow_parent_extends row st e st' :
  traversal_ok src dbname st → follow_parent src dbname row st e = Ok st' →
  traversal_ok src dbname st' ∧ extends src dbname st st'
  ∧ edge_served src dbname (collected st') row e.
Proof.
  intros Hok. destruct e as [[parent_tbl fk_col] parent_pk_col]. simpl.
  destruct (is_None (row_get row fk_col)) eqn:Hnull.
  { intros [= <-]. split_and!; [done | apply extends_refl | done]. }
  intros (_ & _ & Hrun)%bind_Ok.
  destruct (head (select_where src parent_tbl parent_pk_col (row_get row fk_col)))
    as [parent|] eqn:Hhead.
  - apply head_Some_elem_of, select_where_elem in Hhead as [Heq Hin].
    apply sql_eq_true in Heq as [Heq Hnn].
    destruct (truthy parent) eqn:Htruthy.
    + apply collect_row_extends in Hrun as (Hok' & Hext & pk & k & Hpk & Hk & [p' Hp']);
        [|done..].
      split_and!; [done..|]. intros _. left. exists k, p', parent. eauto 10.
    + destruct parent; [|done]. done.
  - injection Hrun as <-. split_and!; [done | apply extends_refl |].
    intros _. right. by destruct (select_where _ _ _ _).
Qed.

Lemma follow_child_extends row st e st' :
  traversal_ok src dbname st → follow_child src dbname row st e = Ok st' →
  traversal_ok src dbname st' ∧ extends src dbname st st'.
Proof.
  intros Hok. destruct e as [[child_tbl child_fk_col] child_ref_col]. simpl.
  destruct (is_None (row_get row child_ref_col)).
  { intros [= <-]. split; [done | apply extends_refl]. }
  intros (_ & _ & Hrun)%bind_Ok. revert Hrun.
  apply (for_each_inv _ (λ s, traversal_ok src dbname s ∧ extends src dbname st s)).
  - intros s child s' [_ Hin]%select_where_elem [Hoks Hexts] Hstep.
    apply collect_row_extends in Hstep as (? & ? & _); [|done..].
    split; [done|]. by eapply extends_trans.
  - split; [done | apply extends_refl].
Qed.

(** The body of [while q:]: the row taken from the queue has each of its
    foreign keys served when the turn ends, and everything collected
    before is still there. *)
Lemma bfs_body_extends table pk_key st st' :
  traversal_ok src dbname st →
  bfs_body src dbname references referenced_by table pk_key st = Ok st' →
  traversal_ok src dbname st' ∧ extends src dbname st st'
  ∧ ∃ row, lookup_row (collected st) table pk_key = Some row
           ∧ ∀ e, e ∈ graph_get references table →
                  edge_served src dbname (collected st') row e.
Proof.
  intros Hok. unfold bfs_body.
  pose proof (touch_extends src dbname st table) as Hext0.
  pose proof (touch_ok src dbname st table Hok) as Hok0.
  pose proof (collected_item_rows (collected st) table) as Hrows.
  destruct (collected_item (collected st) table) as [c1 d]. simpl in *.
  intros (row & Hrow & (st1 & Hparents & Hchildren)%bind_Ok)%bind_Ok.
  assert (Hl : lookup_row (collected st) table pk_key = Some row).
  { unfold lookup_row. rewrite <- Hrows. by destruct (dict_get d pk_key) as [?|]; simplify_eq. }
  clear Hrow. set (st0 := {| collected := c1; pk_cache := pk_cache st; q := q st |}) in *.
  apply (for_each_post _
           (λ s, traversal_ok src dbname s ∧ extends src dbname st s)
           (λ e s, edge_served src dbname (collected s) row e)) in Hparents
    as [[Hok1 Hext1] Hserved1].
  - assert (Hrun : traversal_ok src dbname st' ∧ extends src dbname st1 st').
    { revert Hchildren.
      apply (for_each_inv _ (λ s, traversal_ok src dbname s ∧ extends src dbname st1 s)).
      - intros s e s' _ [Hoks Hexts] Hstep.
        apply follow_child_extends in Hstep as [? ?]; [|done].
        split; [done|]. by eapply extends_trans.
      - split; [done | apply extends_refl]. }
    destruct Hrun as [Hok' Hext']. split_and!; [done | by eapply extends_trans |].
    exists row. split; [done|]. intros e He.
    eapply edge_served_mono; [apply Hext' | by apply Hserved1].
  - intros s e s' _ [Hoks Hexts] Hstep.
    apply follow_parent_extends in Hstep as (? & ? & ?); [|done].
    split; [|done]. split; [done|]. by eapply extends_trans.
  - intros s e e0 s' [Hoks _] Hserved Hstep.
    apply follow_parent_extends in Hstep as (_ & Hext & _); [|done].
    eapply edge_served_mono; [apply Hext | done].
  - done.
Qed.
End Turn.

(** ** Seeding *)

Lemma select_seeds_elem src root_table city_filter seeds r :
  select_seeds src root_table city_filter = Ok seeds → r ∈ seeds →
  r ∈ table_rows src root_table.
Proof.
  destruct city_filter; simpl; intros (_ & _ & [= <-])%bind_Ok.
  - rewrite list_elem_of_filter. tauto.
  - rewrite select_where_elem. tauto.
Qed.

Lemma select_seeds_length src root_table city_filter seeds :
  select_seeds src root_table city_filter = Ok seeds →
  length seeds ≤ length (table_rows src root_table).
Proof.
  destruct city_filter; simpl; intros (_ & _ & [= <-])%bind_Ok; apply length_filter.
Qed.

Lemma seed_queue_length root_table root_pk seeds st st' :
  for_each (seed_row root_table root_pk) seeds st = Ok st' →
  length (q st') = length (q st) + length seeds.
Proof.
  revert st. induction seeds as [|r seeds IH]; intros st; simpl.
  - intros [= <-]. lia.
  - intros (st1 & (key & _ & [= <-])%bind_Ok & Hrest)%bind_Ok.
    rewrite (IH _ Hrest). simpl. rewrite length_app. simpl. lia.
Qed.

(** Lines 180-183: every seed row is collected under its row key and
    queued; a seed with the key of an earlier seed takes its place. *)
Lemma seed_row_ok src dbname root_table root_pk st row st' :
  get_pk src dbname root_table = Ok root_pk →
  row ∈ table_rows src root_table →
  traversal_ok src dbname st →
  (∀ t k, is_Some (lookup_row (collected st) t k) → ∃ pk, (t, pk, k) ∈ q st) →
  seed_row root_table root_pk st row = Ok st' →
  traversal_ok src dbname st'
  ∧ ∀ t k, is_Some (lookup_row (collected st') t k) → ∃ pk, (t, pk, k) ∈ q st'.
Proof.
  intros Hpk Hin (Hc & Hr & Hu) Hq (key & Hkey & [= <-])%bind_Ok. simpl. split.
  - split_and!; simpl; [done| |by apply collected_store_keys_unique].
    intros t k r. rewrite collected_store_lookup. case_decide as Heq; [|apply Hr].
    destruct Heq as [<- <-]. intros [= <-]. eauto.
  - intros t k. rewrite collected_store_lookup. case_decide as Heq.
    + destruct Heq as [<- <-]. intros _. exists root_pk.
      apply elem_of_app. right. by apply list_elem_of_singleton.
    + intros [pk ?]%Hq. exists pk. apply elem_of_app. by left.
Qed.

Lemma seed_ok src dbname root_table root_pk seeds st0 :
  get_pk src dbname root_table = Ok root_pk →
  (∀ r, r ∈ seeds → r ∈ table_rows src root_table) →
  seed root_table root_pk seeds = Ok st0 →
  traversal_ok src dbname st0
  ∧ (∀ t k, is_Some (lookup_row (collected st0) t k) → ∃ pk, (t, pk, k) ∈ q st0)
  ∧ length (q st0) = length seeds.
Proof.
  intros Hpk Hseeds Hrun.
  cut (traversal_ok src dbname st0
       ∧ ∀ t k, is_Some (lookup_row (collected st0) t k) → ∃ pk, (t, pk, k) ∈ q st0).
  { intros [? ?]. split_and!; [done..|]. by apply seed_queue_length in Hrun. }
  revert Hrun. unfold seed.
  apply (for_each_inv _ (λ s, traversal_ok src dbname s
           ∧ ∀ t k, is_Some (lookup_row (collected s) t k) → ∃ pk, (t, pk, k) ∈ q s)).
  - intros s r s' Hin [Hok Hq] Hstep. eapply seed_row_ok; eauto.
  - split.
    + split_and!; [done..|]. split; [apply NoDup_nil_2 | intros; apply NoDup_nil_2].
    + by intros t k [? ?].
Qed.

Lemma start_inv cfg src references referenced_by st0 :
  start cfg src = Ok (references, referenced_by, st0) →
  discover_fk src (source_database cfg) = Ok (references, referenced_by)
  ∧ traversal_ok src (source_database cfg) st0
  ∧ pending_or_served src (source_database cfg) references st0
  ∧ potential src (source_database cfg) st0 ≤ traversal_bound cfg src.
Proof.
  unfold start.
  intros ([refs refd] & Hfk & (root_pk & Hpk & (seeds & Hseeds &
            (st & Hseed & [= <- <- <-])%bind_Ok)%bind_Ok)%bind_Ok)%bind_Ok.
  eapply seed_ok in Hseed as (Hok & Hq & Hlen); [|done|intros r; by eapply select_seeds_elem].
  split_and!; [done..| |].
  - intros t k r Hl. left. apply Hq. by rewrite Hl.
  - unfold potential, traversal_bound. rewrite Hlen.
    pose proof (select_seeds_length _ _ _ _ Hseeds).
    pose proof (missing_length src (source_database cfg) (collected st)). lia.
Qed.

(** ** The loop *)

Section Loop.
Variables (src : Source) (dbname : string).
Variables (references referenced_by : Graph).

Lemma popleft_potential st x rest :
  q st = x :: rest → potential src dbname (popleft st) + 1 = potential src dbname st.
Proof. unfold potential. simpl. intros ->. simpl. lia. Qed.

(** One turn: the state stays well formed, what was collected stays,
    the queue loses its head and gains only keys that were not collected,
    and the potential goes down. *)
Lemma bfs_step_inv st st' :
  traversal_ok src dbname st →
  bfs_step src dbname references referenced_by st st' →
  traversal_ok src dbname st'
  ∧ extends src dbname (popleft st) st'
  ∧ potential src dbname st' < potential src dbname st.
Proof.
  intros Hok (table & pk_cols & pk_key & rest & Hq & Hbody).
  apply bfs_body_extends in Hbody as (Hok' & Hext & _); [|done].
  split_and!; [done..|]. pose proof (ext_potential _ _ _ _ Hext).
  pose proof (popleft_potential _ _ _ Hq). lia.
Qed.

Lemma bfs_step_pending st st' :
  traversal_ok src dbname st →
  bfs_step src dbname references referenced_by st st' →
  pending_or_served src dbname references st →
  pending_or_served src dbname references st'.
Proof.
  intros Hok (table & pk_cols & pk_key & rest & Hq & Hbody) Hpend.
  apply bfs_body_extends in Hbody as (Hok' & Hext & row & Hrow & Hserved); [|done].
  destruct Hext as [Hrows (new & Hq' & Hnew) Hfresh _ _]. simpl in *. rewrite Hq in Hq'.
  simpl in Hq'. intros t k r Hl.
  destruct (Hfresh t k) as [[r0 Hl0]|?]; [by rewrite Hl | | by left].
  assert (r0 = r) as -> by (apply Hrows in Hl0; congruence).
  destruct (Hpend t k r Hl0) as [[pk Hin]|Hdone].
  - rewrite Hq in Hin. apply elem_of_cons in Hin as [[= -> _ ->]|Hin].
    + right. assert (row = r) as -> by congruence. done.
    + left. exists pk. rewrite Hq'. apply elem_of_app. by left.
  - right. intros e He. eapply edge_served_mono; [apply Hrows | by apply Hdone].
Qed.

(** The loop ends: fuel above the potential is never used up. *)
Lemma bfs_enough_fuel fuel st :
  traversal_ok src dbname st → potential src dbname st ≤ fuel →
  is_Some (bfs src dbname references referenced_by fuel st).
Proof.
  revert st. induction fuel as [|fuel IH]; intros st Hok Hfuel.
  - unfold potential in Hfuel. destruct st as [c cache [|x rest]]; simpl in *; [eauto | lia].
  - destruct (q st) as [|[[table pk_cols] pk_key] rest] eqn:Hq.
    { destruct st; simpl in *. subst. simpl. eauto. }
    assert (Hbfs : bfs src dbname references referenced_by (S fuel) st
                   = match bfs_body src dbname references referenced_by table pk_key
                             (popleft st) with
                     | Ok st' => bfs src dbname references referenced_by fuel st'
                     | Raise e => Some (Raise e)
                     end).
    { simpl. by rewrite Hq. }
    rewrite Hbfs. destruct (bfs_body _ _ _ _ _ _ _) as [st'|e] eqn:Hbody; [|eauto].
    destruct (bfs_step_inv st st') as (Hok' & _ & Hlt); [done| |].
    { by exists table, pk_cols, pk_key, rest. }
    apply IH; [done | lia].
Qed.

(** When the loop ends without an exception the queue is empty, and the
    invariants of the turns hold of the final state. *)
Lemma bfs_Ok fuel st st' :
  bfs src dbname references referenced_by fuel st = Some (Ok st') →
  traversal_ok src dbname st →
  q st' = []
  ∧ traversal_ok src dbname st'
  ∧ (pending_or_served src dbname references st →
     pending_or_served src dbname references st')
  ∧ (∀ t k r, lookup_row (collected st) t k = Some r →
              lookup_row (collected st') t k = Some r).
Proof.
  revert st. induction fuel as [|fuel IH]; intros st Hrun Hok.
  - destruct st as [c cache [|[[? ?] ?] rest]]; simpl in Hrun; [|done].
    injection Hrun as <-. done.
  - destruct (q st) as [|[[table pk_cols] pk_key] rest] eqn:Hq.
    { simpl in Hrun. rewrite Hq in Hrun. injection Hrun as <-. done. }
    simpl in Hrun. rewrite Hq in Hrun.
    destruct (bfs_body _ _ _ _ _ _ _) as [st1|e] eqn:Hbody; [|done].
    assert (Hstep : bfs_step src dbname references referenced_by st st1).
    { by exists table, pk_cols, pk_key, rest. }
    destruct (bfs_step_inv st st1) as (Hok1 & Hext & _); [done..|].
    destruct (IH st1 Hrun Hok1) as (Hq' & Hok' & Hpend & Hrows).
    split; [done|]. split; [done|]. split.
    + intros Hp. apply Hpend. by apply (bfs_step_pending st st1).
    + intros t k r Hl. apply Hrows. by apply (ext_rows _ _ _ _ Hext).
Qed.


End Loop.

(** ** Runs of [main] *)

Lemma closure_of_start fuel cfg src references referenced_by st0 :
  start cfg src = Ok (references, referenced_by, st0) →
  closure fuel cfg src =
    match q st0 with
    | [] => Some (Ok None)
    | _ :: _ =>
        match bfs src (source_database cfg) references referenced_by fuel st0 with
        | None => None
        | Some (Raise e) => Some (Raise e)
        | Some (Ok st) => Some (Ok (Some (references, collected st)))
        end
    end.
Proof.
  unfold start, closure.
  destruct (discover_fk src (source_database cfg)) as [[refs refd]|]; simpl; [|done].
  destruct (get_pk src (source_database cfg) (root_table cfg)) as [root_pk|]; simpl; [|done].
  destruct (select_seeds src (root_table cfg) (city_filter cfg)) as [seeds|]; simpl; [|done].
  destruct (seed (root_table cfg) root_pk seeds) as [st|] eqn:Hseed; simpl; [|done].
  intros [= <- <- <-]. apply seed_queue_length in Hseed. simpl in Hseed.
  destruct seeds as [|r seeds]; simpl in *.
  - by destruct (q st).
  - destruct (q st); simpl in *; [lia | done].
Qed.

Lemma closure_of_start_Raise fuel cfg src e :
  start cfg src = Raise e → closure fuel cfg src = Some (Raise e).
Proof.
  unfold start, closure.
  destruct (discover_fk src (source_database cfg)) as [[refs refd]|]; simpl; [|congruence].
  destruct (get_pk src (source_database cfg) (root_table cfg)) as [root_pk|]; simpl;
    [|congruence].
  destruct (select_seeds src (root_table cfg) (city_filter cfg)) as [seeds|] eqn:Hsel; simpl;
    [|congruence].
  destruct (seed (root_table cfg) root_pk seeds) as [st|] eqn:Hseed; simpl; [done|].
  intros [= <-]. destruct seeds; [done|]. done.
Qed.

Lemma closure_Some fuel cfg src references c :
  closure fuel cfg src = Some (Ok (Some (references, c))) →
  ∃ referenced_by st0 st,
    start cfg src = Ok (references, referenced_by, st0)
    ∧ bfs src (source_database cfg) references referenced_by fuel st0 = Some (Ok st)
    ∧ c = collected st.
Proof.
  destruct (start cfg src) as [[[refs refd] st0]|e] eqn:Hstart.
  - rewrite (closure_of_start fuel _ _ _ _ _ Hstart).
    destruct (q st0); [done|].
    destruct (bfs _ _ _ _ _ _) as [[st|]|] eqn:Hbfs; [|done..].
    intros [= <- <-]. eauto 10.
  - by rewrite (closure_of_start_Raise fuel _ _ _ Hstart).
Qed.

Lemma reachable_ok cfg src st :
  reachable cfg src st → traversal_ok src (source_database cfg) st.
Proof.
  induction 1 as [refs refd st0 Hstart | refs refd st st' _ _ IH Hstep].
  - by apply start_inv in Hstart as (_ & ? & _).
  - by destruct (bfs_step_inv _ _ _ _ st st' IH Hstep) as (? & _).
Qed.

Lemma reachable_bfs cfg src references referenced_by fuel st st' :
  discover_fk src (source_database cfg) = Ok (references, referenced_by) →
  reachable cfg src st →
  bfs src (source_database cfg) references referenced_by fuel st = Some (Ok st') →
  reachable cfg src st'.
Proof.
  intros Hfk. revert st. induction fuel as [|fuel IH]; intros st Hreach Hrun.
  - destruct st as [c cache [|[[? ?] ?] rest]]; simpl in Hrun; [|done]. by injection Hrun as <-.
  - destruct (q st) as [|[[table pk_cols] pk_key] rest] eqn:Hq; simpl in Hrun;
      rewrite Hq in Hrun.
    { by injection Hrun as <-. }
    destruct (bfs_body _ _ _ _ _ _ _) as [st1|e] eqn:Hbody; [|done].
    apply (IH st1); [|done]. eapply reach_step; [done..|].
    by exists table, pk_cols, pk_key, rest.
Qed.


Lemma table_keys_unique_spec src dbname t pk r1 r2 k :
  table_keys_unique src dbname t = true →
  get_pk src dbname t = Ok pk →
  r1 ∈ table_rows src t → r2 ∈ table_rows src t →
  row_key r1 pk = Ok k → row_key r2 pk = Ok k → r1 = r2.
Proof.
  unfold table_keys_unique. intros Hall Hpk Hr1 Hr2 Hk1 Hk2. rewrite Hpk in Hall.
  rewrite forallb_forall in Hall.
  apply list_elem_of_In in Hr1, Hr2. specialize (Hall _ Hr1).
  rewrite forallb_forall in Hall. specialize (Hall _ Hr2). simpl in Hall.
  rewrite Hk1, Hk2 in Hall. rewrite bool_decide_eq_true_2 in Hall by done.
  simpl in Hall. by apply bool_decide_eq_true in Hall.
Qed.

(** ** Closure completeness *)

(** C1, the script omits an existing parent: [regions] has no primary
    key, so its rows all get the empty row key.  Customer 2 is collected
    and points at region ["B"], which exists in the source, but the only
    region collected is ["A"], which took the empty key first: the subset
    lacks a row the script's own header promises (all related rows, full
    referential integrity). *)
Lemma closure_omits_existing_parent :
  ∃ references c,
    closure 10 (shop_cfg "Springfield") shop = Some (Ok (Some (references, c)))
    ∧ lookup_row c "customers" [VInt 2] = Some (customer 2 "Springfield" "B")
    ∧ graph_get references "customers" = [("regions", "region", "code")]
    ∧ row_get (customer 2 "Springfield" "B") "region" = VStr "B"
    ∧ select_where shop "regions" "code" (VStr "B") = [[("code", VStr "B")]]
    ∧ collected_rows c "regions" = [([], [("code", VStr "A")])].
Proof.
  exists (run_closure 10 (shop_cfg "Springfield") shop).1,
         (run_closure 10 (shop_cfg "Springfield") shop).2.
  split_and!; vm_compute; reflexivity.
Qed.


(** ** Termination *)

Lemma closure_enough_fuel fuel cfg src :
  traversal_bound cfg src ≤ fuel → is_Some (closure fuel cfg src).
Proof.
  intros Hfuel. destruct (start cfg src) as [[[refs refd] st0]|e] eqn:Hstart.
  - rewrite (closure_of_start fuel _ _ _ _ _ Hstart). destruct (q st0) eqn:Hq; [eauto|].
    apply start_inv in Hstart as (_ & Hok & _ & Hbound).
    destruct (bfs_enough_fuel src (source_database cfg) refs refd fuel st0) as [res Hres];
      [done | lia |].
    rewrite Hres. destruct res; eauto.
  - rewrite (closure_of_start_Raise fuel _ _ _ Hstart). eauto.
Qed.

Lemma main_enough_fuel fuel cfg src tgt :
  traversal_bound cfg src ≤ fuel → is_Some (main fuel cfg src tgt).
Proof.
  intros [res Hres]%closure_enough_fuel. unfold main. rewrite Hres.
  destruct (cleared tgt) as [tgt0 [[]|e]]; [|eauto].
  destruct res as [[[refs c]|]|]; eauto.
Qed.

(** C2: the traversal terminates on every source (the tables of a source
    are finite lists of rows), whatever the foreign-key graph: with fuel
    for as many turns as the root table has rows plus the source has row
    keys, the run of [main] ends; the loop ends with an exception or with
    the queue empty; and this is because every turn takes one key off the
    queue, keeps what is collected, and queues only keys that were not
    collected, of which the source has finitely many left. *)
Theorem traversal_terminates fuel cfg src tgt :
  traversal_bound cfg src ≤ fuel →
  is_Some (main fuel cfg src tgt)
  ∧ (∀ references referenced_by st0,
       start cfg src = Ok (references, referenced_by, st0) →
       ∃ res, bfs src (source_database cfg) references referenced_by fuel st0 = Some res
              ∧ ∀ st, res = Ok st → q st = [])
  ∧ (∀ references referenced_by st st',
       reachable cfg src st →
       bfs_step src (source_database cfg) references referenced_by st st' →
       potential src (source_database cfg) st' < potential src (source_database cfg) st
       ∧ (∀ t k r, lookup_row (collected st) t k = Some r →
                   lookup_row (collected st') t k = Some r)
       ∧ ∃ new, q st' = tail (q st) ++ new
                ∧ ∀ t pk k, (t, pk, k) ∈ new → lookup_row (collected st) t k = None).
Proof.
  intros Hfuel. split_and!.
  - by apply main_enough_fuel.
  - intros refs refd st0 Hstart.
    pose proof Hstart as (_ & Hok & _ & Hbound)%start_inv.
    destruct (bfs_enough_fuel src (source_database cfg) refs refd fuel st0) as [res Hres];
      [done | lia |].
    exists res. split; [done|]. intros st ->.
    by destruct (bfs_Ok _ _ _ _ _ _ _ Hres Hok) as (? & _).
  - intros refs refd st st' Hreach Hstep. apply reachable_ok in Hreach.
    destruct (bfs_step_inv _ _ _ _ _ _ Hreach Hstep) as (_ & Hext & Hlt).
    split; [done|]. split; apply Hext.
Qed.

(** A self-referencing table whose rows form a cycle. *)
Lemma traversal_terminates_witness :
  traversal_bound staff_cfg staff ≤ 4
  ∧ graph_get (run_graphs staff_cfg staff).1 "employees" = [("employees", "manager_id", "id")]
  ∧ is_Some (main 4 staff_cfg staff (staging true)).
Proof.
  split; [vm_compute; lia|]. split; [vm_compute; reflexivity|].
  apply (traversal_terminates 4 staff_cfg staff (staging true)).
  vm_compute. lia.
Defined.

(** The cycle is followed once around: both employees are collected. *)
Example traversal_of_cycle :
  ∃ references c,
    closure 4 staff_cfg staff = Some (Ok (Some (references, c)))
    ∧ collected_rows c "employees"
      = [ ([VInt 1], employee 1 "Springfield" 2); ([VInt 2], employee 2 "Shelbyville" 1) ].
Proof.
  exists (run_closure 4 staff_cfg staff).1, (run_closure 4 staff_cfg staff).2.
  split; vm_compute; reflexivity.
Qed.

(** ** The collected set only grows *)

(** C4: throughout the traversal no table and, within a table, no row key
    is listed twice, and a turn of the loop keeps every collected row where
    it is, filed under the same key and unchanged, so that no table's part
    of the collected set gets smaller. *)
Theorem collected_set_monotone cfg src references referenced_by st st' :
  reachable cfg src st →
  bfs_step src (source_database cfg) references referenced_by st st' →
  keys_unique (collected st) ∧ keys_unique (collected st')
  ∧ (∀ t k r, lookup_row (collected st) t k = Some r →
              lookup_row (collected st') t k = Some r)
  ∧ (∀ t k r, (k, r) ∈ collected_rows (collected st) t →
              (k, r) ∈ collected_rows (collected st') t)
  ∧ (∀ t, length (collected_rows (collected st) t)
          ≤ length (collected_rows (collected st') t)).
Proof.
  intros Hok%reachable_ok Hstep.
  destruct (bfs_step_inv _ _ _ _ _ _ Hok Hstep) as (Hok' & Hext & _).
  destruct Hok as (_ & _ & Hu), Hok' as (_ & _ & Hu'). split_and!; [done..| | |].
  - apply Hext.
  - intros t k r Hin%lookup_row_elem; [|done]. apply lookup_row_elem; [done|].
    by apply (ext_rows _ _ _ _ Hext).
  - apply Hext.
Qed.

Lemma collected_set_monotone_witness :
  let cfg := shop_cfg "Springfield" in
  let st := run_start cfg shop in
  let st' := run_turn cfg shop st in
  reachable cfg shop st
  ∧ keys_unique (collected st')
  ∧ length (collected_rows (collected st) "regions") = 0
  ∧ length (collected_rows (collected st') "regions") = 1.
Proof.
  intros cfg st st'.
  assert (Hreach : reachable cfg shop st).
  { apply (reach_start cfg shop (run_graphs cfg shop).1 (run_graphs cfg shop).2).
    vm_compute; reflexivity. }
  assert (Hstep : bfs_step shop "shop" (run_graphs cfg shop).1 (run_graphs cfg shop).2 st st').
  { exists "customers", ["id"], [VInt 1], [("customers", ["id"], [VInt 2])].
    split; vm_compute; reflexivity. }
  destruct (collected_set_monotone cfg shop (run_graphs cfg shop).1 (run_graphs cfg shop).2
              st st' Hreach Hstep) as (_ & Hu & _).
  split_and!; [exact Hreach | exact Hu | vm_compute; reflexivity..].
Defined.

(** ** What [main] sends to the target *)

(** A run sends the statements of the clear, then those of the tables
    it materializes, in order; it stops short of the end only where an
    unguarded statement raises. *)
Lemma main_log fuel cfg src tgt tgt' res :
  main fuel cfg src tgt = Some (tgt', res) →
  ∃ stmts ts,
    tgt_log tgt' = tgt_log tgt ++ stmts ++
      match closure fuel cfg src with
      | Some (Ok (Some (references, c))) => concat (table_stmts c <$> ts)
      | _ => []
      end
    ∧ (∃ later, clear_stmts tgt = stmts ++ later)
    ∧ match closure fuel cfg src with
      | Some (Ok (Some (references, c))) => ∃ rest, ordered_tables references c = ts ++ rest
      | _ => True
      end.
Proof.
  unfold main. destruct (cleared_log tgt) as (stmts & later & Hstmts & Hlog & Hlater).
  destruct (cleared tgt) as [tgt0 [[]|e0]]; simpl in *.
  - rewrite Hlater in Hstmts by done. rewrite app_nil_r in Hstmts. subst stmts.
    destruct (closure fuel cfg src) as [[[[refs c]|]|e]|].
    + destruct (materialize_tables_log c (ordered_tables refs c) tgt0)
        as (done & rest & Hsplit & Hlog' & _).
      unfold materialize. intros [= Hrun]. rewrite Hrun in Hlog'. simpl in Hlog'.
      exists (clear_stmts tgt), done. rewrite Hlog', Hlog, <- app_assoc.
      split; [done|]. split; [by exists []; rewrite app_nil_r | eauto].
    + intros [= <- <-]. exists (clear_stmts tgt), [].
      split_and!; [by rewrite Hlog, app_nil_r | by exists []; rewrite app_nil_r | done].
    + intros [= <- <-]. exists (clear_stmts tgt), [].
      split_and!; [by rewrite Hlog, app_nil_r | by exists []; rewrite app_nil_r | done].
    + done.
  - intros [= <- <-]. exists stmts, []. split_and!.
    + rewrite Hlog. destruct (closure fuel cfg src) as [[[[refs c]|]|e]|]; simpl;
        by rewrite app_nil_r.
    + eauto.
    + destruct (closure fuel cfg src) as [[[[refs c]|]|e]|]; [by eexists | done..].
Qed.

Lemma inserts_into_app t l1 l2 :
  inserts_into t (l1 ++ l2) = inserts_into t l1 ++ inserts_into t l2.
Proof. apply filter_app. Qed.

Lemma inserts_into_clear_stmts t tgt : inserts_into t (clear_stmts tgt) = [].
Proof.
  unfold clear_stmts, inserts_into. simpl.
  induction (dict_keys (tgt_tables tgt)) as [|t0 ts IH]; [done|].
  simpl. rewrite !filter_cons in *. simpl in *. done.
Qed.

Lemma clear_stmts_no_insert tgt :
  filter (λ s, is_insert s = true) (clear_stmts tgt) = [].
Proof. unfold clear_stmts. simpl. induction (dict_keys (tgt_tables tgt)); simpl; auto. Qed.

Lemma inserts_into_clear_prefix t tgt stmts later :
  clear_stmts tgt = stmts ++ later → inserts_into t stmts = [].
Proof.
  intros Hsplit. pose proof (inserts_into_clear_stmts t tgt) as Hnone.
  rewrite Hsplit, inserts_into_app in Hnone. by apply app_eq_nil in Hnone as [? _].
Qed.

Lemma inserts_into_insert_stmts t t' (rows : list Row) :
  length (inserts_into t (insert_stmt t' <$> rows))
  = if decide (t' = t) then length rows else 0.
Proof.
  unfold inserts_into. induction rows as [|r rows IH]; [by case_decide|].
  rewrite fmap_cons, filter_cons.
  change (is_insert_into t (insert_stmt t' r)) with (bool_decide (t' = t)).
  destruct (decide (t' = t)) as [->|Hne].
  - rewrite bool_decide_eq_true_2, decide_True in * by done. simpl. by rewrite IH.
  - rewrite bool_decide_eq_false_2, decide_False in * by done. done.
Qed.

Lemma inserts_into_table_stmts c t t' :
  length (inserts_into t (table_stmts c t'))
  = if decide (t' = t) then length (collected_rows c t) else 0.
Proof.
  unfold table_stmts. rewrite inserts_into_app, length_app, inserts_into_insert_stmts.
  unfold dict_values. rewrite length_fmap. simpl.
  case_decide; subst; simpl; lia.
Qed.

(** A table listed once contributes its collected rows once. *)
Lemma inserts_into_tables c t ts :
  NoDup ts →
  length (inserts_into t (concat (table_stmts c <$> ts))) ≤ length (collected_rows c t).
Proof.
  induction ts as [|t0 ts IH]; [simpl; lia|].
  intros [Hnotin Hnd]%NoDup_cons.
  rewrite fmap_cons, concat_cons, inserts_into_app, length_app, inserts_into_table_stmts.
  destruct (decide (t0 = t)) as [->|Hne]; [|by apply IH].
  assert (length (inserts_into t (concat (table_stmts c <$> ts))) = 0) as ->; [|lia].
  clear IH Hnd. induction ts as [|t1 ts IH]; [done|].
  apply not_elem_of_cons in Hnotin as [Hne Hnotin].
  rewrite fmap_cons, concat_cons, inserts_into_app, length_app, inserts_into_table_stmts.
  rewrite decide_False by done. by apply IH.
Qed.

Lemma NoDup_constant {A} (l : list A) a :
  NoDup l → (∀ x, x ∈ l → x = a) → length l ≤ 1.
Proof.
  destruct l as [|x [|y l]]; simpl; [lia..|].
  intros [Hx _]%NoDup_cons Hall. exfalso. apply Hx.
  rewrite (Hall x), (Hall y); [left | right; left | left].
Qed.

(** A table whose primary key is empty has at most one collected row. *)
Lemma empty_pk_one_row src dbname st t :
  traversal_ok src dbname st → get_pk src dbname t = Ok [] →
  length (collected_rows (collected st) t) ≤ 1.
Proof.
  intros (_ & Hrows & Hu) Hpk.
  assert (Hlen : length (collected_rows (collected st) t)
                 = length (dict_keys (collected_rows (collected st) t))).
  { unfold dict_keys. by rewrite length_fmap. }
  rewrite Hlen. apply (NoDup_constant _ []); [apply Hu|].
  intros k ([k' r] & -> & Hin)%list_elem_of_fmap. simpl.
  apply lookup_row_elem in Hin; [|done].
  destruct (Hrows _ _ _ Hin) as (_ & pk & Hpk' & Hk).
  rewrite Hpk in Hpk'. injection Hpk' as <-. simpl in Hk. congruence.
Qed.

(** ** Empty primary keys *)

(** C9: when the primary-key lookup of a table yields no column, every
    row of the table has the empty tuple for row key, so at every turn of
    the traversal the table has at most one collected row, and a run of
    [main], which ends given enough fuel, sends the target at most one
    [INSERT] for the table. *)
Theorem empty_pk_collapse cfg src t :
  get_pk src (source_database cfg) t = Ok [] →
  (∀ pk r, get_pk src (source_database cfg) t = Ok pk → row_key r pk = Ok [])
  ∧ (∀ st, reachable cfg src st → length (collected_rows (collected st) t) ≤ 1)
  ∧ (∀ fuel tgt, traversal_bound cfg src ≤ fuel → is_Some (main fuel cfg src tgt))
  ∧ (∀ fuel tgt tgt' res,
       main fuel cfg src tgt = Some (tgt', res) →
       length (inserts_into t (drop (length (tgt_log tgt)) (tgt_log tgt'))) ≤ 1).
Proof.
  intros Hpk. split_and!.
  - intros pk r Hpk'. rewrite Hpk in Hpk'. by injection Hpk' as <-.
  - intros st Hok%reachable_ok. by eapply empty_pk_one_row.
  - intros fuel tgt. apply main_enough_fuel.
  - intros fuel tgt tgt' res Hmain.
    destruct (main_log _ _ _ _ _ _ Hmain) as (stmts & ts & -> & [later Hclear] & Hts).
    rewrite drop_app_length, inserts_into_app.
    rewrite (inserts_into_clear_prefix _ _ _ _ Hclear). simpl.
    destruct (closure fuel cfg src) as [[[[refs c]|]|e]|] eqn:Hclosure; simpl; try lia.
    destruct Hts as [rest Hts].
    apply closure_Some in Hclosure as (refd & st0 & st & Hstart & Hrun & ->).
    assert (Hreach : reachable cfg src st).
    { pose proof Hstart as (Hfk & _)%start_inv.
      eapply reachable_bfs; [done | by eapply reach_start | done]. }
    apply reachable_ok in Hreach as Hok.
    etrans; [apply inserts_into_tables | by eapply empty_pk_one_row].
    assert (Hnd : NoDup (ordered_tables refs (collected st))).
    { unfold ordered_tables. rewrite sort_by_Permutation. apply Hok. }
    rewrite Hts in Hnd. by apply NoDup_app in Hnd as [? _].
Qed.

Lemma empty_pk_collapse_witness :
  get_pk shop "shop" "regions" = Ok []
  ∧ length (table_rows shop "regions") = 2
  ∧ match main 11 (shop_cfg "Springfield") shop (staging true) with
    | Some (tgt', _) => length (inserts_into "regions" (tgt_log tgt')) ≤ 1
    | None => False
    end.
Proof.
  split; [vm_compute; reflexivity|]. split; [vm_compute; reflexivity|].
  destruct (empty_pk_collapse (shop_cfg "Springfield") shop "regions")
    as (_ & _ & _ & Hmain).
  { vm_compute; reflexivity. }
  destruct (main 11 (shop_cfg "Springfield") shop (staging true)) as [[tgt' res]|] eqn:Hrun.
  - exact (Hmain 11 (staging true) tgt' res Hrun).
  - vm_compute in Hrun. discriminate.
Defined.

(** The same on a connection lost at the commit of the first table: the
    run is cut short and the bound holds for what was sent. *)
Example empty_pk_collapse_lost_run :
  match main 11 (shop_cfg "Springfield") shop staging_lost with
  | Some (tgt', res) =>
      res = Raise DatabaseError ∧ length (inserts_into "regions" (tgt_log tgt')) = 1
  | None => False
  end.
Proof. vm_compute. split; reflexivity. Qed.

(** ** Dangling references *)

(** C5: when a row taken from the queue has a foreign-key value that is
    not null and the lookup of the parent comes back empty, the turn for
    that foreign key raises nothing and changes nothing (no row is added
    for the missing parent, the referencing row stays collected), the loop
    over the foreign keys goes on with the next one, and the referencing
    row is still in the collected set when the traversal ends. *)
Theorem dangling_reference_skipped src dbname row st parent_tbl fk_col parent_pk_col :
  row_get row fk_col ≠ VNull →
  src_raises src (QParent parent_tbl parent_pk_col (row_get row fk_col)) = false →
  select_where src parent_tbl parent_pk_col (row_get row fk_col) = [] →
  follow_parent src dbname row st (parent_tbl, fk_col, parent_pk_col) = Ok st
  ∧ (∀ edges, for_each (follow_parent src dbname row)
                       ((parent_tbl, fk_col, parent_pk_col) :: edges) st
              = for_each (follow_parent src dbname row) edges st)
  ∧ (∀ references referenced_by fuel st' t k,
       traversal_ok src dbname st →
       lookup_row (collected st) t k = Some row →
       bfs src dbname references referenced_by fuel st = Some (Ok st') →
       lookup_row (collected st') t k = Some row).
Proof.
  intros Hnn Hexec Hnone.
  assert (Hturn : follow_parent src dbname row st (parent_tbl, fk_col, parent_pk_col) = Ok st).
  { simpl. unfold execute. rewrite Hexec, Hnone. simpl. by destruct (row_get row fk_col). }
  split_and!.
  - done.
  - intros edges. change (for_each ?f (?e :: ?es) ?s) with (bind (f s e) (for_each f es)).
    by rewrite Hturn.
  - intros refs refd fuel st' t k Hok Hl Hrun.
    destruct (bfs_Ok _ _ _ _ _ _ _ Hrun Hok) as (_ & _ & _ & Hrows). by apply Hrows.
Qed.

Lemma dangling_reference_skipped_witness :
  let row := customer 2 "Springfield" "B" in
  select_where shop_dangling "regions" "code" (VStr "B") = []
  ∧ follow_parent shop_dangling "shop" row
      (run_start (shop_cfg "Springfield") shop_dangling) ("regions", "region", "code")
    = Ok (run_start (shop_cfg "Springfield") shop_dangling).
Proof.
  intros row. split; [vm_compute; reflexivity|].
  apply (dangling_reference_skipped shop_dangling "shop" row
           (run_start (shop_cfg "Springfield") shop_dangling) "regions" "region" "code").
  - vm_compute. discriminate.
  - vm_compute; reflexivity.
  - vm_compute; reflexivity.
Defined.

(** The whole run on the source with the dangling reference: nothing is
    raised, customer 2 is collected, and no region stands in for ["B"]. *)
Example dangling_reference_run :
  ∃ references c,
    closure 10 (shop_cfg "Springfield") shop_dangling = Some (Ok (Some (references, c)))
    ∧ lookup_row c "customers" [VInt 2] = Some (customer 2 "Springfield" "B")
    ∧ collected_rows c "regions" = [([VStr "A"], [("code", VStr "A")])].
Proof.
  exists (run_closure 10 (shop_cfg "Springfield") shop_dangling).1,
         (run_closure 10 (shop_cfg "Springfield") shop_dangling).2.
  split_and!; vm_compute; reflexivity.
Qed.

(** ** Errors of the source *)






(** ** Empty seed *)

(** C10, the claim as stated fails: with no seed the run ends normally
    and has inserted nothing, but a table whose [TRUNCATE] raises has not
    been cleared. *)
Lemma empty_seed_view_not_cleared :
  select_seeds shop "customers" (CityList [VStr "Atlantis"]) = Ok []
  ∧ ∃ tgt', main 0 (shop_cfg "Atlantis") shop (staging true) = Some (tgt', Ok tt)
            ∧ dict_get (tgt_tables tgt') "v_report" = Some [[("n", VInt 1)]]
            ∧ dict_get (tgt_committed tgt') "v_report" = Some [[("n", VInt 1)]].
Proof.
  split; [vm_compute; reflexivity|]. exists (cleared (staging true)).1.
  split_and!; vm_compute; reflexivity.
Qed.

(** C10, amended: the target is cleared and committed before the seed
    query runs, which it does once the clear and its commit have gone
    through, so when no root row matches, the run ends normally having
    sent the target nothing but the clear: the table listing, foreign-key
    checks off, one [TRUNCATE] per table, foreign-key checks on, and a
    commit; nothing is inserted.  Every table whose [TRUNCATE] does not
    raise is empty, a table whose [TRUNCATE] raises keeps its rows (the
    error is caught and the clear goes on), no table appears or disappears,
    foreign-key checks end up on, and the result is committed.  The clear
    comes first in every run, whatever the source does afterwards. *)
Theorem empty_seed_clears_target fuel cfg src tgt tgt' graphs root_pk :
  cleared tgt = (tgt', Ok tt) →
  discover_fk src (source_database cfg) = Ok graphs →
  get_pk src (source_database cfg) (root_table cfg) = Ok root_pk →
  select_seeds src (root_table cfg) (city_filter cfg) = Ok [] →
  main fuel cfg src tgt = Some (tgt', Ok tt)
  ∧ tgt_log tgt' = tgt_log tgt ++ clear_stmts tgt
  ∧ filter (λ s, is_insert s = true) (clear_stmts tgt) = []
  ∧ tgt_fk_checks tgt' = true
  ∧ tgt_committed tgt' = tgt_tables tgt'
  ∧ dict_keys (tgt_tables tgt') = dict_keys (tgt_tables tgt)
  ∧ (∀ t, t ∈ dict_keys (tgt_tables tgt) → tgt_truncate_raises tgt t = false →
          dict_get (tgt_tables tgt') t = Some [])
  ∧ (∀ t, tgt_truncate_raises tgt t = true →
          dict_get (tgt_tables tgt') t = dict_get (tgt_tables tgt) t)
  ∧ (∀ fuel0 cfg0 src0 tgt0 res,
       main fuel0 cfg0 src0 tgt = Some (tgt0, res) →
       ∃ later, tgt_log tgt0 = tgt_log tgt ++ clear_stmts tgt ++ later).
Proof.
  intros Hcleared Hfk Hpk Hseeds.
  pose proof (cleared_Ok _ _ Hcleared)
    as (Hlog & (tgt1 & Hsame & Hraises & Htables) & Hcommitted & Hchecks).
  split_and!.
  - unfold main, closure. rewrite Hcleared, Hfk. destruct graphs as [refs refd].
    by rewrite Hpk, Hseeds.
  - done.
  - apply clear_stmts_no_insert.
  - done.
  - done.
  - by rewrite Htables, truncate_all_keys, Hsame.
  - intros t Hin Hr. rewrite Htables.
    apply truncate_all_cleared; [done| |by rewrite Hraises].
    rewrite Hsame. destruct (dict_get (tgt_tables tgt) t) eqn:Hget; [eauto|].
    by apply dict_get_None in Hget.
  - intros t Hr. rewrite Htables, truncate_all_kept, Hsame; [done|by rewrite Hraises].
  - intros fuel0 cfg0 src0 tgt0 res Hmain. revert Hmain. unfold main. rewrite Hcleared.
    destruct (closure fuel0 cfg0 src0) as [[[[refs c]|]|e]|].
    + destruct (materialize_tables_log c (ordered_tables refs c) tgt')
        as (done & rest & _ & Hlog' & _).
      unfold materialize. intros [= Hrun]. rewrite Hrun in Hlog'. simpl in Hlog'.
      rewrite Hlog', Hlog, <- app_assoc. eauto.
    + intros [= <- <-]. exists []. by rewrite app_nil_r.
    + intros [= <- <-]. exists []. by rewrite app_nil_r.
    + done.
Qed.

Lemma empty_seed_clears_target_witness :
  select_seeds shop "customers" (CityList [VStr "Atlantis"]) = Ok []
  ∧ cleared (staging false) = ((cleared (staging false)).1, Ok tt)
  ∧ main 0 (shop_cfg "Atlantis") shop (staging false)
    = Some ((cleared (staging false)).1, Ok tt)
  ∧ tgt_tables (cleared (staging false)).1
    = [("customers", []); ("orders", []); ("regions", []); ("v_report", [])].
Proof.
  split; [vm_compute; reflexivity|]. split; [vm_compute; reflexivity|].
  split; [|vm_compute; reflexivity].
  eapply (empty_seed_clears_target 0 (shop_cfg "Atlantis") shop (staging false)
            (cleared (staging false)).1 (run_graphs (shop_cfg "Atlantis") shop) ["id"]).
  - vm_compute; reflexivity.
  - vm_compute; reflexivity.
  - vm_compute; reflexivity.
  - vm_compute; reflexivity.
Defined.

(** * Further properties *)

(** ** The foreign-key graph *)

Lemma discover_fk_rows_elem src db tbl col ref_tbl ref_col :
  (tbl, col, ref_tbl, ref_col) ∈ discover_fk_rows src db
  ↔ ∃ r, r ∈ src_catalog src ∧ TABLE_SCHEMA r = db ∧ TABLE_NAME r = tbl
         ∧ COLUMN_NAME r = col ∧ REFERENCED r = Some (ref_tbl, ref_col).
Proof.
  unfold discover_fk_rows. rewrite list_elem_of_omap. split.
  - intros (r & Hin & Hr). exists r. case_decide; [|done].
    destruct (REFERENCED r) as [[p pc]|]; simpl in Hr; [|done].
    injection Hr as <- <- <- <-. done.
  - intros (r & Hin & <- & <- & <- & Href). exists r. split; [done|].
    rewrite decide_True by done. by rewrite Href.
Qed.

Lemma outgoing_edges_elem src db t p c pc :
  (p, c, pc) ∈ outgoing_edges src db t ↔ (t, c, p, pc) ∈ discover_fk_rows src db.
Proof.
  unfold outgoing_edges. rewrite list_elem_of_omap. split.
  - intros ([[[tbl col] ref_tbl] ref_col] & Hin & Hf). case_decide; [|done].
    injection Hf as <- <- <-. by subst.
  - intros Hin. exists (t, c, p, pc). split; [done|]. by rewrite decide_True.
Qed.

Lemma incoming_edges_elem src db p t c pc :
  (t, c, pc) ∈ incoming_edges src db p ↔ (t, c, p, pc) ∈ discover_fk_rows src db.
Proof.
  unfold incoming_edges. rewrite list_elem_of_omap. split.
  - intros ([[[tbl col] ref_tbl] ref_col] & Hin & Hf). case_decide; [|done].
    injection Hf as <- <- <-. by subst.
  - intros Hin. exists (t, c, p, pc). split; [done|]. by rewrite decide_True.
Qed.

(** [defaultdict(list)] with [append]: no table is entered with an empty
    list. *)
Lemma graph_append_nonempty (g : Graph) t e :
  (∀ t0 l, g !! t0 = Some l → l ≠ []) →
  ∀ t0 l, graph_append g t e !! t0 = Some l → l ≠ [].
Proof.
  intros Hg t0 l. unfold graph_append. rewrite lookup_insert. case_decide; [|apply Hg].
  intros [= <-]. by destruct (default [] (g !! t)).
Qed.

Lemma discover_fk_nonempty src db references referenced_by :
  discover_fk src db = Ok (references, referenced_by) →
  (∀ t l, references !! t = Some l → l ≠ [])
  ∧ (∀ t l, referenced_by !! t = Some l → l ≠ []).
Proof.
  unfold discover_fk. intros (_ & _ & [= Hfold])%bind_Ok. revert Hfold.
  assert (Hgen : ∀ rows (g1 g2 refs refd : Graph),
    (∀ t l, g1 !! t = Some l → l ≠ []) → (∀ t l, g2 !! t = Some l → l ≠ []) →
    foldl (λ '(references, referenced_by) '(tbl, col, ref_tbl, ref_col),
             (graph_append references tbl (ref_tbl, col, ref_col),
              graph_append referenced_by ref_tbl (tbl, col, ref_col)))
          (g1, g2) rows = (refs, refd) →
    (∀ t l, refs !! t = Some l → l ≠ []) ∧ (∀ t l, refd !! t = Some l → l ≠ [])).
  { induction rows as [|[[[tbl col] ref_tbl] ref_col] rows IH];
      intros g1 g2 refs refd H1 H2; simpl.
    - by intros [= <- <-].
    - apply IH; by apply graph_append_nonempty. }
  apply Hgen; intros t l; by rewrite lookup_empty.
Qed.

(** X1: when the catalog query goes through, [references[t]] holds exactly
    the foreign keys of the schema that leave [t], one entry per catalog
    line and in catalog order, lines of other schemas and lines that are
    not foreign keys never appear, and a table without foreign key has no
    entry at all (never an empty list). *)
Theorem discover_fk_references src db references referenced_by :
  discover_fk src db = Ok (references, referenced_by) →
  (∀ t p c pc,
     (p, c, pc) ∈ graph_get references t
     ↔ ∃ r, r ∈ src_catalog src ∧ TABLE_SCHEMA r = db ∧ TABLE_NAME r = t
            ∧ COLUMN_NAME r = c ∧ REFERENCED r = Some (p, pc))
  ∧ (∀ t, graph_get references t = outgoing_edges src db t)
  ∧ (∀ t, references !! t = None ↔ outgoing_edges src db t = []).
Proof.
  intros Hfk. split_and!.
  - intros t p c pc. destruct (discover_fk_graphs _ _ _ _ t Hfk) as [-> _].
    by rewrite outgoing_edges_elem, discover_fk_rows_elem.
  - intros t. by destruct (discover_fk_graphs _ _ _ _ t Hfk).
  - intros t. destruct (discover_fk_graphs _ _ _ _ t Hfk) as [<- _].
    destruct (discover_fk_nonempty _ _ _ _ Hfk) as [Hne _].
    unfold graph_get. destruct (references !! t) as [l|] eqn:Hl; simpl; [|done].
    split; [done|]. intros ->. by destruct (Hne _ _ Hl).
Qed.

Lemma discover_fk_references_witness :
  graph_get (run_graphs (shop_cfg "Springfield") shop).1 "orders"
  = outgoing_edges shop "shop" "orders"
  ∧ outgoing_edges shop "shop" "orders" = [("customers", "customer_id", "id")]
  ∧ (run_graphs (shop_cfg "Springfield") shop).1 !! "regions" = None.
Proof.
  destruct (discover_fk_references shop "shop"
              (run_graphs (shop_cfg "Springfield") shop).1
              (run_graphs (shop_cfg "Springfield") shop).2) as (_ & Hout & Hnone).
  { vm_compute; reflexivity. }
  split; [apply Hout|]. split; [vm_compute; reflexivity|]. apply Hnone.
  vm_compute; reflexivity.
Defined.

(** X2: the two graphs mirror each other: table [t] refers to [p] through
    column [c] exactly when [p] is referred to by [t] through [c]. *)
Theorem discover_fk_mirror src db references referenced_by t p c pc :
  discover_fk src db = Ok (references, referenced_by) →
  (p, c, pc) ∈ graph_get references t ↔ (t, c, pc) ∈ graph_get referenced_by p.
Proof.
  intros Hfk. destruct (discover_fk_graphs _ _ _ _ t Hfk) as [-> _].
  destruct (discover_fk_graphs _ _ _ _ p Hfk) as [_ ->].
  by rewrite outgoing_edges_elem, incoming_edges_elem.
Qed.

Lemma discover_fk_mirror_witness :
  ("customers", "customer_id", "id")
    ∈ graph_get (run_graphs (shop_cfg "Springfield") shop).1 "orders"
  ↔ ("orders", "customer_id", "id")
    ∈ graph_get (run_graphs (shop_cfg "Springfield") shop).2 "customers".
Proof.
  apply (discover_fk_mirror shop "shop"). vm_compute. reflexivity.
Defined.

(** ** Primary keys, in order *)

Lemma NoDup_fmap_inj_elem {A B} (f : A → B) (l : list A) x y :
  NoDup (f <$> l) → x ∈ l → y ∈ l → f x = f y → x = y.
Proof.
  induction l as [|z l IH]; csimpl; [by intros _ Hx; apply elem_of_nil in Hx|].
  intros [Hz Hnd]%NoDup_cons [->|Hx]%elem_of_cons [->|Hy]%elem_of_cons Heq; auto.
  - exfalso. apply Hz. rewrite Heq. by apply list_elem_of_fmap_2.
  - exfalso. apply Hz. rewrite <- Heq. by apply list_elem_of_fmap_2.
Qed.

(** X3: [get_pk] lists the columns of the table's [PRIMARY] lines in
    ascending [ORDINAL_POSITION], each line once; and when the positions
    are distinct, the order of the lines in the catalog does not matter. *)
Theorem get_pk_ordered src db table pk :
  get_pk src db table = Ok pk →
  (∃ rows, pk = COLUMN_NAME <$> rows
           ∧ rows ≡ₚ primary_key_rows src db table
           ∧ StronglySorted (key_le ORDINAL_POSITION) rows)
  ∧ (∀ src',
       src_catalog src' ≡ₚ src_catalog src →
       src_raises src' (QPrimaryKey db table) = false →
       NoDup (ORDINAL_POSITION <$> primary_key_rows src db table) →
       get_pk src' db table = Ok pk).
Proof.
  unfold get_pk. intros (_ & _ & [= <-])%bind_Ok. split.
  - eexists. split; [done|]. split; [apply sort_by_Permutation | apply sort_by_sorted].
  - intros src' Hperm Hexec Hnd. unfold execute. rewrite Hexec. simpl. do 2 f_equal.
    assert (Hrows : primary_key_rows src' db table ≡ₚ primary_key_rows src db table).
    { unfold primary_key_rows. by rewrite Hperm. }
    apply (StronglySorted_unique_strong (key_le ORDINAL_POSITION)).
    + intros x1 x2 Hx1 Hx2 H12 H21. unfold key_le in *.
      rewrite (sort_by_Permutation ORDINAL_POSITION), Hrows in Hx1.
      rewrite (sort_by_Permutation ORDINAL_POSITION) in Hx2.
      apply (NoDup_fmap_inj_elem ORDINAL_POSITION (primary_key_rows src db table));
        [done..|lia].
    + apply sort_by_sorted.
    + apply sort_by_sorted.
    + by rewrite !sort_by_Permutation.
Qed.

Lemma get_pk_ordered_witness :
  get_pk (details true) "shop" "order_details" = Ok ["order_id"; "product_id"]
  ∧ get_pk (details false) "shop" "order_details" = Ok ["order_id"; "product_id"].
Proof.
  split; [vm_compute; reflexivity|].
  destruct (get_pk_ordered (details true) "shop" "order_details" ["order_id"; "product_id"])
    as [_ Hany]; [vm_compute; reflexivity|].
  apply Hany.
  - apply perm_swap.
  - vm_compute; reflexivity.
  - vm_compute. apply NoDup_cons. split; [|apply NoDup_singleton].
    intros Hin%list_elem_of_singleton. discriminate.
Defined.

(** ** Row keys *)

(** A row key fails to build only on a column the row lacks. *)
Lemma row_key_Raise row pk e :
  row_key row pk = Raise e → ∃ c, c ∈ pk ∧ dict_get row c = None.
Proof.
  induction pk as [|c pk IH]; simpl; [done|].
  unfold row_item. destruct (dict_get row c) as [v|] eqn:Hc; simpl.
  - destruct (row_key row pk) as [key|e0]; simpl; [done|].
    intros [= ->]. destruct IH as (c' & Hin & Hnone); [done|]. exists c'. split; [by right|done].
  - intros _. exists c. split; [left|done].
Qed.

(** X4: the row key has one value per primary-key column, the row's value
    for that column, in order; and it cannot be built, with [KeyError] and
    no other exception, exactly when the row lacks one of the columns.  A
    null value is a value like any other. *)
Theorem row_key_columns row pk :
  match row_key row pk with
  | Ok key => Forall2 (λ c v, dict_get row c = Some v) pk key
  | Raise e => e = KeyError ∧ ∃ c, c ∈ pk ∧ dict_get row c = None
  end.
Proof.
  induction pk as [|c pk IH]; simpl; [constructor|].
  unfold row_item. destruct (dict_get row c) as [v|] eqn:Hc; simpl.
  - destruct (row_key row pk) as [key|e]; simpl.
    + by constructor.
    + destruct IH as (-> & c' & Hin & Hnone). split; [done|]. exists c'. split; [by right|done].
  - split; [done|]. exists c. split; [left|done].
Qed.

Example row_key_run :
  row_key (order_detail 10 7 1) ["order_id"; "product_id"] = Ok [VInt 10; VInt 7]
  ∧ row_key (order_detail 10 7 1) ["order_id"; "sku"] = Raise KeyError
  ∧ row_key [("id", VNull)] ["id"] = Ok [VNull].
Proof. split_and!; reflexivity. Qed.

(** ** Memoized primary keys *)

(** X5: [ensure_pk] asks the catalog at most once per table: once it has
    returned a primary key, a further call for that table returns the same
    key from [pk_cache] without a query (so even if the catalog has become
    unreachable), and the entries of other tables are untouched. *)
Theorem ensure_pk_memoized src dbname cache table pk cache' :
  ensure_pk src dbname cache table = Ok (pk, cache') →
  cache' !! table = Some pk
  ∧ (∀ t, t ≠ table → cache' !! t = cache !! t)
  ∧ (∀ src', ensure_pk src' dbname cache' table = Ok (pk, cache'))
  ∧ (cache !! table = None → get_pk src dbname table = Ok pk).
Proof.
  unfold ensure_pk. destruct (cache !! table) as [pk0|] eqn:Hc.
  - intros [= <- <-]. split_and!; [done..| |done]. intros src'. by rewrite Hc.
  - intros (pk0 & Hpk & [= <- <-])%bind_Ok. split_and!.
    + apply lookup_insert_eq.
    + intros t Hne. by rewrite lookup_insert_ne.
    + intros src'. by rewrite lookup_insert_eq.
    + done.
Qed.

Lemma ensure_pk_memoized_witness :
  let unreachable := {| src_catalog := []; src_tables := [];
                        src_raises := λ _, true |} in
  ∃ cache', ensure_pk shop "shop" ∅ "orders" = Ok (["id"], cache')
            ∧ ensure_pk unreachable "shop" cache' "orders" = Ok (["id"], cache').
Proof.
  intros unreachable. exists (<["orders" := ["id"]]> ∅).
  split; [vm_compute; reflexivity|].
  apply (ensure_pk_memoized shop "shop" ∅ "orders"). vm_compute; reflexivity.
Defined.

(** ** What a turn does to the collected rows, case by case *)

Lemma sql_eq_null_r a : sql_eq a VNull = false.
Proof. unfold sql_eq. by destruct a. Qed.

Lemma select_where_null src t col v : is_None v = true → select_where src t col v = [].
Proof.
  destruct v; [|done..]. intros _. unfold select_where.
  induction (table_rows src t) as [|r rows IH]; [done|].
  rewrite filter_cons. rewrite decide_False; [done|]. by rewrite sql_eq_null_r.
Qed.

Lemma start_parts cfg src references referenced_by st0 :
  start cfg src = Ok (references, referenced_by, st0) →
  ∃ root_pk seeds,
    discover_fk src (source_database cfg) = Ok (references, referenced_by)
    ∧ get_pk src (source_database cfg) (root_table cfg) = Ok root_pk
    ∧ select_seeds src (root_table cfg) (city_filter cfg) = Ok seeds
    ∧ seed (root_table cfg) root_pk seeds = Ok st0.
Proof.
  unfold start.
  intros ([refs refd] & Hfk & (root_pk & Hpk & (seeds & Hseeds &
            (st & Hseed & [= <- <- <-])%bind_Ok)%bind_Ok)%bind_Ok)%bind_Ok.
  eauto 10.
Qed.

Section Cases.
Variables (src : Source) (dbname : string).

(** Lines 204-208 and 221-225 either leave the collected rows and the
    queue alone, or add one row under a key that was not there and queue
    that key. *)
Lemma collect_row_cases tbl r st st' :
  collect_row src dbname tbl r st = Ok st' →
  ∃ pk key,
    ensure_pk src dbname (pk_cache st) tbl = Ok (pk, pk_cache st')
    ∧ row_key r pk = Ok key
    ∧ ((is_Some (lookup_row (collected st) tbl key) ∧ q st' = q st
        ∧ ∀ t k, lookup_row (collected st') t k = lookup_row (collected st) t k)
       ∨ (lookup_row (collected st) tbl key = None
          ∧ q st' = q st ++ [(tbl, pk, key)]
          ∧ ∀ t k, lookup_row (collected st') t k
                   = if decide (tbl = t ∧ key = k) then Some r
                     else lookup_row (collected st) t k)).
Proof.
  unfold collect_row.
  intros ([pk cache] & Hpk & (key & Hkey & Hrun)%bind_Ok)%bind_Ok.
  pose proof (collected_item_rows (collected st) tbl) as Hd.
  pose proof (collected_store_eq (collected st) tbl key r) as Hstore.
  pose proof (λ t k, collected_item_lookup (collected st) tbl t k) as Hc1.
  destruct (collected_item (collected st) tbl) as [c1 d]. simpl in *. subst d.
  exists pk, key. destruct (dict_mem _ key) eqn:Hmem; injection Hrun as <-; simpl.
  - apply dict_mem_true in Hmem. split_and!; [done..|]. left. done.
  - apply dict_mem_false in Hmem. split_and!; [done..|]. right.
    split_and!; [done..|]. intros t k. by rewrite <- Hstore, collected_store_lookup.
Qed.
End Cases.

(** ** Properties kept all along a traversal *)

Section Keeps.
Variables (src : Source) (dbname : string).
Variables (references referenced_by : Graph).
Variables (I : Traversal → Prop) (A : string → Row → Prop).
Hypothesis I_same : ∀ st st',
  (∀ t k, lookup_row (collected st') t k = lookup_row (collected st) t k) →
  q st' = q st → I st → I st'.
Hypothesis I_new : ∀ st st' tbl pk key r,
  I st → A tbl r → lookup_row (collected st) tbl key = None →
  q st' = q st ++ [(tbl, pk, key)] →
  (∀ t k, lookup_row (collected st') t k
          = if decide (tbl = t ∧ key = k) then Some r else lookup_row (collected st) t k) →
  I st'.
Hypothesis A_row : ∀ st t k r, I st → lookup_row (collected st) t k = Some r → A t r.
Hypothesis A_parent : ∀ t r parent_tbl fk_col parent_pk_col parent,
  A t r → (parent_tbl, fk_col, parent_pk_col) ∈ graph_get references t →
  parent ∈ select_where src parent_tbl parent_pk_col (row_get r fk_col) →
  A parent_tbl parent.
Hypothesis A_child : ∀ t r child_tbl child_fk_col child_ref_col child,
  A t r → (child_tbl, child_fk_col, child_ref_col) ∈ graph_get referenced_by t →
  child ∈ select_where src child_tbl child_fk_col (row_get r child_ref_col) →
  A child_tbl child.

Lemma collect_row_keeps tbl r st st' :
  I st → A tbl r → collect_row src dbname tbl r st = Ok st' → I st'.
Proof.
  intros HI HA (pk & key & _ & _ & [(_ & Hq & Hl)|(Hnone & Hq & Hl)])%collect_row_cases.
  - by eapply I_same.
  - by eapply I_new.
Qed.

Lemma follow_parent_keeps t row e st st' :
  I st → A t row → e ∈ graph_get references t →
  follow_parent src dbname row st e = Ok st' → I st'.
Proof.
  intros HI HA He. destruct e as [[parent_tbl fk_col] parent_pk_col]. simpl.
  destruct (is_None (row_get row fk_col)); [by intros [= <-]|].
  intros (_ & _ & Hrun)%bind_Ok.
  destruct (head _) as [parent|] eqn:Hhead; [|by injection Hrun as <-].
  destruct (truthy parent); [|by injection Hrun as <-].
  eapply collect_row_keeps; [done| |done].
  eapply A_parent; [done..|]. by apply head_Some_elem_of.
Qed.

Lemma follow_child_keeps t row e st st' :
  I st → A t row → e ∈ graph_get referenced_by t →
  follow_child src dbname row st e = Ok st' → I st'.
Proof.
  intros HI HA He. destruct e as [[child_tbl child_fk_col] child_ref_col]. simpl.
  destruct (is_None (row_get row child_ref_col)); [by intros [= <-]|].
  intros (_ & _ & Hrun)%bind_Ok. revert Hrun. apply for_each_inv; [|done].
  intros s child s' Hin Hs Hstep. eapply collect_row_keeps; [done| |done].
  by eapply A_child.
Qed.

Lemma bfs_body_keeps table pk_key st st' :
  I st → bfs_body src dbname references referenced_by table pk_key st = Ok st' → I st'.
Proof.
  intros HI. unfold bfs_body.
  pose proof (collected_item_rows (collected st) table) as Hrows.
  pose proof (λ t k, collected_item_lookup (collected st) table t k) as Hc1.
  destruct (collected_item (collected st) table) as [c1 d]. simpl in *.
  intros (row & Hrow & (st1 & Hparents & Hchildren)%bind_Ok)%bind_Ok.
  assert (Hl : lookup_row (collected st) table pk_key = Some row).
  { unfold lookup_row. rewrite <- Hrows. by destruct (dict_get d pk_key) as [?|]; simplify_eq. }
  pose proof (A_row _ _ _ _ HI Hl) as HA.
  assert (HI1 : I st1).
  { revert Hparents. apply for_each_inv.
    - intros s e s' He Hs Hstep. by eapply follow_parent_keeps.
    - eapply I_same; [| |exact HI]; done. }
  revert Hchildren. apply for_each_inv; [|done].
  intros s e s' He Hs Hstep. by eapply follow_child_keeps.
Qed.

Hypothesis I_pop : ∀ st, I st → I (popleft st).

Lemma bfs_keeps fuel st st' :
  I st → bfs src dbname references referenced_by fuel st = Some (Ok st') → I st'.
Proof.
  revert st. induction fuel as [|fuel IH]; intros st HI Hrun.
  - destruct st as [c cache [|[[? ?] ?] rest]]; simpl in Hrun; [|done]. by injection Hrun as <-.
  - destruct (q st) as [|[[table pk_cols] pk_key] rest] eqn:Hq; simpl in Hrun;
      rewrite Hq in Hrun.
    { by injection Hrun as <-. }
    destruct (bfs_body _ _ _ _ _ _ _) as [st1|e] eqn:Hbody; [|done].
    apply (IH st1); [|done]. eapply bfs_body_keeps; [|done]. by apply I_pop.
Qed.
End Keeps.

(** ** What seeding leaves *)

Lemma seed_row_cases root_table root_pk st row st' :
  seed_row root_table root_pk st row = Ok st' →
  ∃ key, row_key row root_pk = Ok key
         ∧ q st' = q st ++ [(root_table, root_pk, key)]
         ∧ ∀ t k, lookup_row (collected st') t k
                  = if decide (root_table = t ∧ key = k) then Some row
                    else lookup_row (collected st) t k.
Proof.
  intros (key & Hkey & [= <-])%bind_Ok. exists key. simpl. split_and!; [done..|].
  intros t k. apply collected_store_lookup.
Qed.

Lemma seed_rows root_table root_pk seeds st0 :
  seed root_table root_pk seeds = Ok st0 →
  queue_ok st0
  ∧ (∀ t k r, lookup_row (collected st0) t k = Some r → t = root_table ∧ r ∈ seeds)
  ∧ (∀ r, r ∈ seeds → ∃ k, row_key r root_pk = Ok k
                            ∧ is_Some (lookup_row (collected st0) root_table k)).
Proof.
  unfold seed. intros Hrun.
  pose proof (for_each_post (seed_row root_table root_pk)
    (λ s, queue_ok s
          ∧ ∀ t k r, lookup_row (collected s) t k = Some r → t = root_table ∧ r ∈ seeds)
    (λ r s, ∃ k, row_key r root_pk = Ok k ∧ is_Some (lookup_row (collected s) root_table k))
    seeds) as Hpost.
  destruct (Hpost) with (s := {| collected := []; pk_cache := ∅; q := [] |}) (s' := st0)
    as [[Hq Hrows] Hseeds]; [| | |done|by split_and!].
  - intros s r s' Hin [Hqs Hrs] (key & Hkey & Hq' & Hl)%seed_row_cases. split_and!.
    + intros t pk k. rewrite Hq', Hl. intros [Hold|Hnew]%elem_of_app.
      * case_decide; [eauto|]. by eapply Hqs.
      * apply list_elem_of_singleton in Hnew as [= -> -> ->]. rewrite decide_True by done.
        eauto.
    + intros t k r0. rewrite Hl. case_decide as Heq; [|apply Hrs].
      destruct Heq as [<- <-]. by intros [= <-].
    + exists key. split; [done|]. rewrite Hl, decide_True by done. eauto.
  - intros s r r0 s' [Hqs Hrs] (k0 & Hk0 & Hsome) (key & Hkey & Hq' & Hl)%seed_row_cases.
    exists k0. split; [done|]. rewrite Hl. case_decide; [eauto|done].
  - split; [by intros t pk k Hin; apply elem_of_nil in Hin | done].
Qed.

(** ** The queue only names collected rows *)

Section QueueOk.
Variables (src : Source) (dbname : string).
Variables (references referenced_by : Graph).

Lemma queue_ok_body table pk_key st st' :
  queue_ok st →
  bfs_body src dbname references referenced_by table pk_key st = Ok st' → queue_ok st'.
Proof.
  apply (bfs_body_keeps src dbname references referenced_by queue_ok (λ _ _, True));
    try done.
  - intros s s' Hl Hq Hs t pk k. rewrite Hq, Hl. apply Hs.
  - intros s s' tbl pk key r Hs _ Hnone Hq Hl t pk0 k. rewrite Hq, Hl.
    intros [Hold|Hnew]%elem_of_app.
    + case_decide; [eauto|]. by eapply Hs.
    + apply list_elem_of_singleton in Hnew as [= -> -> ->]. rewrite decide_True by done.
      eauto.
Qed.

Lemma queue_ok_popleft st : queue_ok st → queue_ok (popleft st).
Proof.
  intros Hq t pk k Hin. apply (Hq t pk k). simpl in Hin.
  destruct (q st); [done|]. by right.
Qed.
End QueueOk.

Lemma reachable_queue_ok cfg src st : reachable cfg src st → queue_ok st.
Proof.
  induction 1 as [refs refd st0 Hstart | refs refd st st' _ _ IH Hstep].
  - apply start_parts in Hstart as (root_pk & seeds & _ & _ & _ & Hseed).
    by apply seed_rows in Hseed as (? & _).
  - destruct Hstep as (table & pk_cols & pk_key & rest & _ & Hbody).
    eapply queue_ok_body; [|done]. by apply queue_ok_popleft.
Qed.

(** X6: the lookup [collected[table][pk_key]] at the head of the loop
    never raises [KeyError]: at every turn of a run, the key taken from the
    queue is the key of a collected row, which is a row of that table in
    the source whose row key it is. *)
Theorem dequeued_key_is_collected cfg src st table pk_cols pk_key rest :
  reachable cfg src st →
  q st = (table, pk_cols, pk_key) :: rest →
  ∃ row, lookup_row (collected st) table pk_key = Some row
         ∧ row ∈ table_rows src table
         ∧ ∃ pk, get_pk src (source_database cfg) table = Ok pk
                 ∧ row_key row pk = Ok pk_key.
Proof.
  intros Hreach Hq.
  destruct (reachable_queue_ok _ _ _ Hreach table pk_cols pk_key) as [row Hrow].
  { rewrite Hq. left. }
  exists row. split; [done|].
  apply reachable_ok in Hreach as (_ & Hrows & _). by apply Hrows.
Qed.

Lemma dequeued_key_is_collected_witness :
  let cfg := shop_cfg "Springfield" in
  let st := run_turn cfg shop (run_start cfg shop) in
  q st = [ ("customers", ["id"], [VInt 2]); ("regions", [], []);
           ("orders", ["id"], [VInt 10]) ]
  ∧ ∃ row, lookup_row (collected st) "customers" [VInt 2] = Some row
           ∧ row ∈ table_rows shop "customers".
Proof.
  intros cfg st. split; [vm_compute; reflexivity|].
  assert (Hreach : reachable cfg shop st).
  { apply (reach_step cfg shop (run_graphs cfg shop).1 (run_graphs cfg shop).2
             (run_start cfg shop)).
    - vm_compute; reflexivity.
    - apply (reach_start cfg shop (run_graphs cfg shop).1 (run_graphs cfg shop).2).
      vm_compute; reflexivity.
    - exists "customers", ["id"], [VInt 1], [("customers", ["id"], [VInt 2])].
      split; vm_compute; reflexivity. }
  destruct (dequeued_key_is_collected cfg shop st "customers" ["id"] [VInt 2]
              [("regions", [], []); ("orders", ["id"], [VInt 10])] Hreach)
    as (row & Hrow & Hin & _); [vm_compute; reflexivity|].
  eauto.
Defined.

(** ** Nothing unrelated is collected *)

(** X7: the closure holds nothing that is not tied to a seed: every row
    of the final collected set is a seed, or was reached from a seed by
    following foreign keys, from a row to the row it refers to or to the
    rows that refer to it. *)
Theorem closure_only_related fuel cfg src references referenced_by c seeds t k r :
  closure fuel cfg src = Some (Ok (Some (references, c))) →
  discover_fk src (source_database cfg) = Ok (references, referenced_by) →
  select_seeds src (root_table cfg) (city_filter cfg) = Ok seeds →
  (k, r) ∈ collected_rows c t →
  related src references referenced_by (root_table cfg) seeds t r.
Proof.
  intros (refd & st0 & st & Hstart & Hrun & ->)%closure_Some Hfk Hseeds Hin.
  pose proof Hstart as (_ & Hok0 & _)%start_inv.
  apply start_parts in Hstart as (root_pk & seeds' & Hfk' & _ & Hseeds' & Hseed).
  rewrite Hfk in Hfk'. injection Hfk' as <-.
  rewrite Hseeds in Hseeds'. injection Hseeds' as <-.
  apply seed_rows in Hseed as (_ & Hrows0 & _).
  destruct (bfs_Ok _ _ _ _ _ _ _ Hrun Hok0) as (_ & (_ & _ & Hu) & _).
  apply lookup_row_elem in Hin; [|done]. revert t k r Hin.
  change ((λ s, ∀ t k r, lookup_row (collected s) t k = Some r →
             related src references referenced_by (root_table cfg) seeds t r) st).
  eapply (bfs_keeps src (source_database cfg) references referenced_by _
            (related src references referenced_by (root_table cfg) seeds));
    [..|exact Hrun]; simpl.
  - intros s s' Hl _ Hs t k r. rewrite Hl. apply Hs.
  - intros s s' tbl pk key r0 Hs HA _ _ Hl t k r. rewrite Hl.
    case_decide as Heq; [|apply Hs]. destruct Heq as [<- <-]. by intros [= <-].
  - intros s t k r Hs. apply Hs.
  - intros. by eapply related_parent.
  - intros. by eapply related_child.
  - intros s Hs. apply Hs.
  - intros t k r Hl. destruct (Hrows0 _ _ _ Hl) as [-> ?]. by apply related_seed.
Qed.

Lemma closure_only_related_witness :
  ∃ references c seeds,
    closure 10 (shop_cfg "Springfield") shop_keyed = Some (Ok (Some (references, c)))
    ∧ select_seeds shop_keyed "customers" (CityList [VStr "Springfield"]) = Ok seeds
    ∧ related shop_keyed references (run_graphs (shop_cfg "Springfield") shop_keyed).2
              "customers" seeds "orders" (order 12 3).
Proof.
  exists (run_closure 10 (shop_cfg "Springfield") shop_keyed).1,
         (run_closure 10 (shop_cfg "Springfield") shop_keyed).2,
         (run_seeds (shop_cfg "Springfield") shop_keyed).
  split; [vm_compute; reflexivity|]. split; [vm_compute; reflexivity|].
  apply (closure_only_related 10 (shop_cfg "Springfield") shop_keyed
           (run_closure 10 (shop_cfg "Springfield") shop_keyed).1
           (run_graphs (shop_cfg "Springfield") shop_keyed).2
           (run_closure 10 (shop_cfg "Springfield") shop_keyed).2
           (run_seeds (shop_cfg "Springfield") shop_keyed)
           "orders" [VInt 12]).
  - vm_compute; reflexivity.
  - vm_compute; reflexivity.
  - vm_compute; reflexivity.
  - apply list_elem_of_In. vm_compute. auto.
Defined.

(** ** Children *)

Section Children.
Variables (src : Source) (dbname : string).
Variables (references referenced_by : Graph).

Lemma collect_row_mono tbl r st st' :
  collect_row src dbname tbl r st = Ok st' →
  ∀ t k p, lookup_row (collected st) t k = Some p → lookup_row (collected st') t k = Some p.
Proof.
  intros (pk & key & _ & _ & [(_ & _ & Hl)|(Hnone & _ & Hl)])%collect_row_cases t k p Hp;
    rewrite Hl; [done|].
  case_decide as Heq; [|done]. destruct Heq as [<- <-]. congruence.
Qed.

Lemma children_served_mono c c' r e :
  (∀ t k p, lookup_row c t k = Some p → lookup_row c' t k = Some p) →
  children_served src dbname c r e → children_served src dbname c' r e.
Proof.
  intros Hmono. destruct e as [[child_tbl child_fk_col] child_ref_col]. simpl.
  intros Hserved child Hin. destruct (Hserved child Hin) as (pk & k & ? & ? & [p Hp]).
  exists pk, k. split_and!; [done..|]. apply Hmono in Hp. eauto.
Qed.

(** Lines 211-225: when the turn for an incoming foreign key is over,
    every row that refers to the row through it has its key collected. *)
Lemma follow_child_served row st e st' :
  traversal_ok src dbname st → follow_child src dbname row st e = Ok st' →
  children_served src dbname (collected st') row e.
Proof.
  intros Hok. destruct e as [[child_tbl child_fk_col] child_ref_col]. simpl.
  destruct (is_None (row_get row child_ref_col)) eqn:Hnull.
  { intros _ child. rewrite select_where_null by done. by intros ?%elem_of_nil. }
  intros (_ & _ & Hrun)%bind_Ok.
  apply (for_each_post _ (traversal_ok src dbname)
           (λ child s, ∃ pk k, get_pk src dbname child_tbl = Ok pk
                               ∧ row_key child pk = Ok k
                               ∧ is_Some (lookup_row (collected s) child_tbl k)))
    in Hrun as [_ Hall]; [done| | |done].
  - intros s child s' [_ Hin]%select_where_elem Hs Hstep.
    apply collect_row_extends in Hstep as (? & _ & ?); done.
  - intros s child child0 s' Hs (pk & k & ? & ? & [p Hp]) Hstep.
    exists pk, k. split_and!; [done..|]. eapply collect_row_mono in Hp; eauto.
Qed.

Lemma bfs_body_children table pk_key st st' row :
  traversal_ok src dbname st →
  bfs_body src dbname references referenced_by table pk_key st = Ok st' →
  lookup_row (collected st) table pk_key = Some row →
  ∀ e, e ∈ graph_get referenced_by table →
       children_served src dbname (collected st') row e.
Proof.
  intros Hok Hbody Hl. revert Hbody. unfold bfs_body.
  pose proof (touch_ok src dbname st table Hok) as Hok0.
  pose proof (collected_item_rows (collected st) table) as Hrows.
  destruct (collected_item (collected st) table) as [c1 d]. simpl in *.
  intros (row' & Hrow & (st1 & Hparents & Hchildren)%bind_Ok)%bind_Ok.
  assert (row' = row) as ->.
  { unfold lookup_row in Hl. rewrite <- Hrows in Hl.
    destruct (dict_get d pk_key); simplify_eq. done. }
  assert (Hok1 : traversal_ok src dbname st1).
  { revert Hparents. apply for_each_inv; [|done].
    intros s e s' _ Hs Hstep. by apply follow_parent_extends in Hstep as (? & _). }
  apply (for_each_post _ (traversal_ok src dbname)
           (λ e s, children_served src dbname (collected s) row e))
    in Hchildren as [_ Hall]; [done| | |done].
  - intros s e s' _ Hs Hstep. split.
    + by apply follow_child_extends in Hstep as (? & _).
    + by apply follow_child_served in Hstep.
  - intros s e e0 s' Hs Hserved Hstep.
    apply follow_child_extends in Hstep as (_ & Hext); [|done].
    eapply children_served_mono; [apply Hext | done].
Qed.
End Children.

(** ** Rows that are served once their turn has come *)

Section Served.
Variables (src : Source) (dbname : string).
Variables (references referenced_by : Graph).
Variable S : Collected → string → Row → Prop.
Hypothesis S_mono : ∀ c c' t r,
  (∀ t0 k p, lookup_row c t0 k = Some p → lookup_row c' t0 k = Some p) →
  S c t r → S c' t r.
Hypothesis S_body : ∀ table pk_key st st' row,
  traversal_ok src dbname st →
  bfs_body src dbname references referenced_by table pk_key st = Ok st' →
  lookup_row (collected st) table pk_key = Some row →
  S (collected st') table row.

Lemma bfs_step_pending_or st st' :
  traversal_ok src dbname st →
  bfs_step src dbname references referenced_by st st' →
  pending_or S st → pending_or S st'.
Proof.
  intros Hok (table & pk_cols & pk_key & rest & Hq & Hbody) Hpend.
  pose proof Hbody as (Hok' & Hext & row & Hrow & _)%bfs_body_extends; [|done].
  pose proof (S_body _ _ (popleft st) _ _ Hok Hbody Hrow) as Hserved.
  destruct Hext as [Hrows (new & Hq' & Hnew) Hfresh _ _]. simpl in *. rewrite Hq in Hq'.
  simpl in Hq'. intros t k r Hl.
  destruct (Hfresh t k) as [[r0 Hl0]|?]; [by rewrite Hl | | by left].
  assert (r0 = r) as -> by (apply Hrows in Hl0; congruence).
  destruct (Hpend t k r Hl0) as [[pk Hin]|Hdone].
  - rewrite Hq in Hin. apply elem_of_cons in Hin as [[= -> _ ->]|Hin].
    + right. assert (row = r) as -> by congruence. done.
    + left. exists pk. rewrite Hq'. apply elem_of_app. by left.
  - right. by eapply S_mono.
Qed.

Lemma bfs_served fuel st st' :
  bfs src dbname references referenced_by fuel st = Some (Ok st') →
  traversal_ok src dbname st → pending_or S st →
  ∀ t k r, lookup_row (collected st') t k = Some r → S (collected st') t r.
Proof.
  revert st. induction fuel as [|fuel IH]; intros st Hrun Hok Hpend.
  - destruct st as [c cache [|[[? ?] ?] rest]]; simpl in Hrun; [|done].
    injection Hrun as <-. intros t k r Hl. destruct (Hpend t k r Hl) as [[pk Hin]|?]; [|done].
    by apply elem_of_nil in Hin.
  - destruct (q st) as [|[[table pk_cols] pk_key] rest] eqn:Hq.
    { simpl in Hrun. rewrite Hq in Hrun. injection Hrun as <-.
      intros t k r Hl. destruct (Hpend t k r Hl) as [[pk Hin]|?]; [|done].
      rewrite Hq in Hin. by apply elem_of_nil in Hin. }
    simpl in Hrun. rewrite Hq in Hrun.
    destruct (bfs_body _ _ _ _ _ _ _) as [st1|e] eqn:Hbody; [|done].
    assert (Hstep : bfs_step src dbname references referenced_by st st1).
    { by exists table, pk_cols, pk_key, rest. }
    destruct (bfs_step_inv _ _ _ _ st st1 Hok Hstep) as (Hok1 & _).
    apply (IH st1); [done..|]. by apply (bfs_step_pending_or st st1).
Qed.
End Served.

Lemma start_pending_or cfg src references referenced_by st0 S :
  start cfg src = Ok (references, referenced_by, st0) → pending_or S st0.
Proof.
  intros (root_pk & seeds & _ & Hpk & Hseeds & Hseed)%start_parts.
  eapply seed_ok in Hseed as (_ & Hq & _); [|done|intros r; by eapply select_seeds_elem].
  intros t k r Hl. left. apply Hq. by rewrite Hl.
Qed.

(** X8: provided rows of the referring table with the same row key are
    the same row, the closure is complete downwards: for every row of the final
    collected set and every foreign key that points at its table, each
    source row that refers to it through that key (with a value that is not
    null) is in the final collected set too. *)
Theorem closure_children_complete fuel cfg src references referenced_by c
        t k r child_tbl child_fk_col child_ref_col child :
  table_keys_unique src (source_database cfg) child_tbl = true →
  closure fuel cfg src = Some (Ok (Some (references, c))) →
  discover_fk src (source_database cfg) = Ok (references, referenced_by) →
  (k, r) ∈ collected_rows c t →
  (child_tbl, child_fk_col, child_ref_col) ∈ graph_get referenced_by t →
  child ∈ table_rows src child_tbl →
  row_get r child_ref_col ≠ VNull →
  row_get child child_fk_col = row_get r child_ref_col →
  ∃ k', (k', child) ∈ collected_rows c child_tbl.
Proof.
  intros Huniq (refd & st0 & st & Hstart & Hrun & ->)%closure_Some Hfk Hin He Hchild Hnn Heq.
  pose proof Hstart as (Hfk' & Hok0 & _)%start_inv.
  rewrite Hfk in Hfk'. injection Hfk' as <-.
  destruct (bfs_Ok _ _ _ _ _ _ _ Hrun Hok0) as (_ & (_ & Hrows & Hu) & _).
  apply lookup_row_elem in Hin; [|done].
  assert (Hall : ∀ t0 k0 r0, lookup_row (collected st) t0 k0 = Some r0 →
            ∀ e, e ∈ graph_get referenced_by t0 →
                 children_served src (source_database cfg) (collected st) r0 e).
  { eapply (bfs_served src (source_database cfg) references referenced_by
              (λ c0 t0 r0, ∀ e, e ∈ graph_get referenced_by t0 →
                                children_served src (source_database cfg) c0 r0 e));
      [| |exact Hrun|done|by eapply start_pending_or].
    - intros c0 c' t0 r0 Hmono Hs e He0. eapply children_served_mono; [done | by apply Hs].
    - intros table pk_key s s' row Hs Hbody Hl. by eapply bfs_body_children. }
  specialize (Hall _ _ _ Hin _ He). simpl in Hall.
  destruct (Hall child) as (pk & k' & Hpk & Hk' & [p' Hp']).
  { apply select_where_elem. split; [|done]. rewrite Heq. unfold sql_eq.
    rewrite bool_decide_eq_true_2 by done. by destruct (row_get r child_ref_col). }
  exists k'. apply lookup_row_elem; [done|].
  destruct (Hrows _ _ _ Hp') as (Hin' & pk' & Hpk' & Hkp').
  assert (pk' = pk) as -> by congruence.
  by rewrite (table_keys_unique_spec _ _ _ _ child p' k' Huniq Hpk Hchild Hin' Hk' Hkp').
Qed.

Lemma closure_children_complete_witness :
  ∃ references c,
    closure 10 (shop_cfg "Springfield") shop_keyed = Some (Ok (Some (references, c)))
    ∧ ∃ k', (k', order 11 2) ∈ collected_rows c "orders".
Proof.
  exists (run_closure 10 (shop_cfg "Springfield") shop_keyed).1,
         (run_closure 10 (shop_cfg "Springfield") shop_keyed).2.
  split; [vm_compute; reflexivity|].
  apply (closure_children_complete 10 (shop_cfg "Springfield") shop_keyed
           (run_closure 10 (shop_cfg "Springfield") shop_keyed).1
           (run_graphs (shop_cfg "Springfield") shop_keyed).2
           (run_closure 10 (shop_cfg "Springfield") shop_keyed).2
           "customers" [VInt 2] (customer 2 "Springfield" "B") "orders" "customer_id" "id").
  - vm_compute; reflexivity.
  - vm_compute; reflexivity.
  - vm_compute; reflexivity.
  - apply list_elem_of_In. vm_compute. auto.
  - apply list_elem_of_In. vm_compute. auto.
  - apply list_elem_of_In. vm_compute. auto.
  - vm_compute. discriminate.
  - vm_compute; reflexivity.
Defined.

(** X17: provided rows of the referenced table with the same row key are
    the same row (as they are when it has a primary key), the closure is
    complete upwards: for every row of the final collected set and every
    outgoing foreign key of its table whose value on the row is not null,
    either a row of the referenced table with that value in the referenced
    column is in the final collected set, or the source has no such row.
    Nothing is asked of the other tables. *)
Theorem closure_parents_complete fuel cfg src references c t k r
        parent_tbl fk_col parent_pk_col :
  table_keys_unique src (source_database cfg) parent_tbl = true →
  closure fuel cfg src = Some (Ok (Some (references, c))) →
  (k, r) ∈ collected_rows c t →
  (parent_tbl, fk_col, parent_pk_col) ∈ graph_get references t →
  row_get r fk_col ≠ VNull →
  (∃ k' p, (k', p) ∈ collected_rows c parent_tbl
           ∧ p ∈ table_rows src parent_tbl
           ∧ row_get p parent_pk_col = row_get r fk_col)
  ∨ (∀ p, p ∈ table_rows src parent_tbl → row_get p parent_pk_col ≠ row_get r fk_col).
Proof.
  intros Huniq (refd & st0 & st & Hstart & Hrun & ->)%closure_Some Hin He Hnn.
  apply start_inv in Hstart as (_ & Hok0 & Hpend0 & _).
  destruct (bfs_Ok _ _ _ _ _ _ _ Hrun Hok0) as (Hq & Hok & Hpend & _).
  specialize (Hpend Hpend0). destruct Hok as (_ & Hrows & Hu).
  apply lookup_row_elem in Hin; [|done].
  destruct (Hpend t k r Hin) as [[pk Hpk]|Hserved].
  { rewrite Hq in Hpk. by apply elem_of_nil in Hpk. }
  specialize (Hserved _ He). simpl in Hserved.
  destruct Hserved as [(k' & p' & p & Hl & Hp & Hval & pk & Hpk & Hk)|Hnone].
  { by destruct (row_get r fk_col). }
  - left. exists k', p'. split; [by apply lookup_row_elem|].
    destruct (Hrows _ _ _ Hl) as (Hp' & pk' & Hpk' & Hk').
    assert (pk' = pk) as -> by congruence.
    assert (p' = p) as -> by by eapply table_keys_unique_spec.
    done.
  - right. intros p Hp Heq.
    assert (Hsel : p ∈ select_where src parent_tbl parent_pk_col (row_get r fk_col)).
    { apply select_where_elem. split; [|done]. rewrite Heq. unfold sql_eq.
      rewrite bool_decide_eq_true_2 by done. by destruct (row_get r fk_col). }
    rewrite Hnone in Hsel. by apply elem_of_nil in Hsel.
Qed.

(** The shop whose [regions] have a primary key: region ["B"] is
    collected for customer 2.  In the shop whose [regions] have none the
    hypothesis fails for [regions] and holds for [customers]. *)
Lemma closure_parents_complete_witness :
  table_keys_unique shop "shop" "regions" = false
  ∧ table_keys_unique shop "shop" "customers" = true
  ∧ ∃ references c,
      closure 10 (shop_cfg "Springfield") shop_keyed = Some (Ok (Some (references, c)))
      ∧ ((∃ k' p, (k', p) ∈ collected_rows c "regions"
                  ∧ p ∈ table_rows shop_keyed "regions"
                  ∧ row_get p "code" = row_get (customer 2 "Springfield" "B") "region")
         ∨ (∀ p, p ∈ table_rows shop_keyed "regions"
                 → row_get p "code" ≠ row_get (customer 2 "Springfield" "B") "region")).
Proof.
  split; [vm_compute; reflexivity|]. split; [vm_compute; reflexivity|].
  exists (run_closure 10 (shop_cfg "Springfield") shop_keyed).1,
         (run_closure 10 (shop_cfg "Springfield") shop_keyed).2.
  split; [vm_compute; reflexivity|].
  apply (closure_parents_complete 10 (shop_cfg "Springfield") shop_keyed
           (run_closure 10 (shop_cfg "Springfield") shop_keyed).1
           (run_closure 10 (shop_cfg "Springfield") shop_keyed).2
           "customers" [VInt 2] (customer 2 "Springfield" "B") "regions" "region" "code").
  - vm_compute; reflexivity.
  - vm_compute; reflexivity.
  - apply list_elem_of_In. vm_compute. auto.
  - apply list_elem_of_In. vm_compute. auto.
  - vm_compute. discriminate.
Defined.

(** ** The closure is made of source rows *)

(** X9: the closure is a part of the source: every row of the final
    collected set is a row of its table in the source, filed under its own
    row key; no row is collected twice; so the closure never holds more
    rows of a table than the source does. *)
Theorem closure_within_source fuel cfg src references c t :
  closure fuel cfg src = Some (Ok (Some (references, c))) →
  (∀ k r, (k, r) ∈ collected_rows c t →
          r ∈ table_rows src t
          ∧ ∃ pk, get_pk src (source_database cfg) t = Ok pk ∧ row_key r pk = Ok k)
  ∧ NoDup (dict_values (collected_rows c t))
  ∧ length (collected_rows c t) ≤ length (table_rows src t).
Proof.
  intros (refd & st0 & st & Hstart & Hrun & ->)%closure_Some.
  apply start_inv in Hstart as (_ & Hok0 & _).
  destruct (bfs_Ok _ _ _ _ _ _ _ Hrun Hok0) as (_ & (_ & Hrows & Hu) & _).
  assert (Hsound : ∀ k r, (k, r) ∈ collected_rows (collected st) t →
            r ∈ table_rows src t
            ∧ ∃ pk, get_pk src (source_database cfg) t = Ok pk ∧ row_key r pk = Ok k).
  { intros k r Hin%lookup_row_elem; [|done]. by apply Hrows. }
  assert (Hnd : NoDup (dict_values (collected_rows (collected st) t))).
  { unfold dict_values. apply NoDup_fmap_2_strong.
    - intros [k1 r1] [k2 r2] H1 H2. simpl. intros <-.
      destruct (Hsound _ _ H1) as (_ & pk1 & Hpk1 & Hk1).
      destruct (Hsound _ _ H2) as (_ & pk2 & Hpk2 & Hk2).
      rewrite Hpk1 in Hpk2. injection Hpk2 as <-. congruence.
    - eapply NoDup_fmap_1. apply Hu. }
  split_and!; [done..|].
  transitivity (length (dict_values (collected_rows (collected st) t))).
  { unfold dict_values. by rewrite length_fmap. }
  apply submseteq_length, NoDup_submseteq; [done|].
  intros r ([k r'] & -> & Hin)%list_elem_of_fmap. by apply Hsound in Hin as (? & _).
Qed.

Lemma closure_within_source_witness :
  ∃ references c,
    closure 10 (shop_cfg "Springfield") shop = Some (Ok (Some (references, c)))
    ∧ length (collected_rows c "regions") ≤ length (table_rows shop "regions").
Proof.
  exists (run_closure 10 (shop_cfg "Springfield") shop).1,
         (run_closure 10 (shop_cfg "Springfield") shop).2.
  split; [vm_compute; reflexivity|].
  apply (closure_within_source 10 (shop_cfg "Springfield") shop
           (run_closure 10 (shop_cfg "Springfield") shop).1
           (run_closure 10 (shop_cfg "Springfield") shop).2).
  vm_compute; reflexivity.
Defined.

(** X10: provided rows of the root table with the same row key are the
    same row, every row the seed query selected is in the final collected
    set. *)
Theorem seeds_in_closure fuel cfg src references c seeds r :
  table_keys_unique src (source_database cfg) (root_table cfg) = true →
  closure fuel cfg src = Some (Ok (Some (references, c))) →
  select_seeds src (root_table cfg) (city_filter cfg) = Ok seeds →
  r ∈ seeds →
  ∃ k, (k, r) ∈ collected_rows c (root_table cfg).
Proof.
  intros Huniq (refd & st0 & st & Hstart & Hrun & ->)%closure_Some Hseeds Hin.
  pose proof Hstart as (_ & Hok0 & _)%start_inv.
  apply start_parts in Hstart as (root_pk & seeds' & _ & Hpk & Hseeds' & Hseed).
  rewrite Hseeds in Hseeds'. injection Hseeds' as <-.
  apply seed_rows in Hseed as (_ & _ & Hall).
  destruct (Hall r Hin) as (k & Hk & [r' Hr']).
  destruct (bfs_Ok _ _ _ _ _ _ _ Hrun Hok0) as (_ & (_ & Hrows & Hu) & _ & Hkeep).
  apply Hkeep in Hr'. exists k. apply lookup_row_elem; [done|].
  destruct (Hrows _ _ _ Hr') as (Hin' & pk' & Hpk' & Hk').
  rewrite Hpk in Hpk'. injection Hpk' as <-.
  pose proof (select_seeds_elem _ _ _ _ _ Hseeds Hin) as Hrow.
  by rewrite (table_keys_unique_spec _ _ _ _ r r' k Huniq Hpk Hrow Hin' Hk Hk').
Qed.

Lemma seeds_in_closure_witness :
  ∃ references c,
    closure 10 (shop_cfg "Springfield") shop_keyed = Some (Ok (Some (references, c)))
    ∧ ∃ k, (k, customer 2 "Springfield" "B") ∈ collected_rows c "customers".
Proof.
  exists (run_closure 10 (shop_cfg "Springfield") shop_keyed).1,
         (run_closure 10 (shop_cfg "Springfield") shop_keyed).2.
  split; [vm_compute; reflexivity|].
  apply (seeds_in_closure 10 (shop_cfg "Springfield") shop_keyed
           (run_closure 10 (shop_cfg "Springfield") shop_keyed).1
           (run_closure 10 (shop_cfg "Springfield") shop_keyed).2
           (run_seeds (shop_cfg "Springfield") shop_keyed)).
  - vm_compute; reflexivity.
  - vm_compute; reflexivity.
  - vm_compute; reflexivity.
  - apply list_elem_of_In. vm_compute. auto.
Defined.

(** ** Which exceptions a run can end with *)

Lemma for_each_outcome {A S} (body : S → A → Result S) (P : S → Prop) (E : Exn → Prop) xs :
  (∀ s x, x ∈ xs → P s → match body s x with Ok s' => P s' | Raise e => E e end) →
  ∀ s, P s → match for_each body xs s with Ok s' => P s' | Raise e => E e end.
Proof.
  induction xs as [|x xs IH]; intros Hbody s HP; simpl; [done|].
  pose proof (Hbody s x (list_elem_of_here _ _) HP) as Hx.
  destruct (body s x) as [s1|e]; simpl; [|done].
  apply IH; [|done]. intros s0 y Hy. apply Hbody. by right.
Qed.

Lemma execute_Raise src query e :
  execute src query = Raise e → source_error src e.
Proof.
  unfold execute. destruct (src_raises src query) eqn:Hr; [|done].
  intros [= <-]. split; eauto.
Qed.

Lemma get_pk_Raise src dbname t e : get_pk src dbname t = Raise e → source_error src e.
Proof.
  unfold get_pk. destruct (execute src _) eqn:Hexec; simpl; [done|].
  intros [= <-]. by eapply execute_Raise.
Qed.

Lemma rows_have_pk_spec src dbname t pk r :
  rows_have_pk src dbname = true → get_pk src dbname t = Ok pk →
  r ∈ table_rows src t → ∃ k, row_key r pk = Ok k.
Proof.
  unfold rows_have_pk, table_rows. intros Hall Hpk Hr.
  destruct (dict_get (src_tables src) t) as [rows|] eqn:Hget; simpl in *;
    [|by apply elem_of_nil in Hr].
  apply dict_get_Some_elem, list_elem_of_In in Hget.
  rewrite forallb_forall in Hall. specialize (Hall _ Hget). simpl in Hall.
  rewrite Hpk in Hall. rewrite forallb_forall in Hall.
  apply list_elem_of_In in Hr. specialize (Hall _ Hr). rewrite forallb_forall in Hall.
  destruct (row_key r pk) as [k|e] eqn:Hkey; [eauto|].
  apply row_key_Raise in Hkey as (c & Hc%list_elem_of_In & Hnone).
  apply Hall, dict_mem_true in Hc. rewrite Hnone in Hc. by destruct Hc.
Qed.

Section Outcome.
Variables (src : Source) (dbname : string).
Variables (references referenced_by : Graph).
Hypothesis Hpk : rows_have_pk src dbname = true.

Lemma queue_ok_collect tbl r st st' :
  queue_ok st → collect_row src dbname tbl r st = Ok st' → queue_ok st'.
Proof.
  intros Hq (pk & key & _ & _ & [(_ & Hq' & Hl)|(Hnone & Hq' & Hl)])%collect_row_cases
         t pk0 k; rewrite Hq', Hl.
  - apply Hq.
  - intros [Hold|Hnew]%elem_of_app.
    + case_decide; [eauto|]. by eapply Hq.
    + apply list_elem_of_singleton in Hnew as [= -> -> ->]. rewrite decide_True by done.
      eauto.
Qed.

Lemma collect_row_outcome tbl r st :
  traversal_ok src dbname st ∧ queue_ok st → r ∈ table_rows src tbl →
  match collect_row src dbname tbl r st with
  | Ok st' => traversal_ok src dbname st' ∧ queue_ok st'
  | Raise e => source_error src e
  end.
Proof.
  intros [Hok Hq] Hin. destruct (collect_row src dbname tbl r st) as [st'|e] eqn:Hrun.
  - split; [by apply collect_row_extends in Hrun as (? & _) | by eapply queue_ok_collect].
  - revert Hrun. unfold collect_row, ensure_pk.
    destruct Hok as (Hcache & _).
    destruct (pk_cache st !! tbl) as [pk|] eqn:Hc; simpl.
    + destruct (rows_have_pk_spec _ _ _ _ _ Hpk (Hcache _ _ Hc) Hin) as [k ->]. simpl.
      destruct (collected_item _ _) as [c1 d]. by destruct (dict_mem d k).
    + destruct (get_pk src dbname tbl) as [pk|e0] eqn:Hget; simpl.
      * destruct (rows_have_pk_spec _ _ _ _ _ Hpk Hget Hin) as [k ->]. simpl.
        destruct (collected_item _ _) as [c1 d]. by destruct (dict_mem d k).
      * intros [= <-]. by eapply get_pk_Raise.
Qed.

Lemma follow_parent_outcome row st e :
  traversal_ok src dbname st ∧ queue_ok st →
  match follow_parent src dbname row st e with
  | Ok st' => traversal_ok src dbname st' ∧ queue_ok st'
  | Raise e => source_error src e
  end.
Proof.
  intros HP. destruct e as [[parent_tbl fk_col] parent_pk_col]. simpl.
  destruct (is_None (row_get row fk_col)); [done|].
  destruct (execute src _) as [[]|e] eqn:Hexec; simpl; [|by eapply execute_Raise].
  destruct (head _) as [parent|] eqn:Hhead; [|done].
  destruct (truthy parent); [|done].
  apply collect_row_outcome; [done|].
  by apply head_Some_elem_of, select_where_elem in Hhead as [_ ?].
Qed.

Lemma follow_child_outcome row st e :
  traversal_ok src dbname st ∧ queue_ok st →
  match follow_child src dbname row st e with
  | Ok st' => traversal_ok src dbname st' ∧ queue_ok st'
  | Raise e => source_error src e
  end.
Proof.
  intros HP. destruct e as [[child_tbl child_fk_col] child_ref_col]. simpl.
  destruct (is_None (row_get row child_ref_col)); [done|].
  destruct (execute src _) as [[]|e] eqn:Hexec; simpl; [|by eapply execute_Raise].
  apply for_each_outcome; [|done].
  intros s child [_ Hin]%select_where_elem Hs. by apply collect_row_outcome.
Qed.

Lemma bfs_body_outcome table pk_key st :
  traversal_ok src dbname st ∧ queue_ok st →
  is_Some (lookup_row (collected st) table pk_key) →
  match bfs_body src dbname references referenced_by table pk_key st with
  | Ok st' => traversal_ok src dbname st' ∧ queue_ok st'
  | Raise e => source_error src e
  end.
Proof.
  intros [Hok Hq] [row Hrow]. unfold bfs_body.
  pose proof (touch_ok src dbname st table Hok) as Hok0.
  pose proof (collected_item_rows (collected st) table) as Hrows.
  pose proof (λ t k, collected_item_lookup (collected st) table t k) as Hc1.
  destruct (collected_item (collected st) table) as [c1 d]. simpl in *.
  unfold lookup_row in Hrow. rewrite <- Hrows in Hrow. rewrite Hrow. simpl.
  pose proof (for_each_outcome (follow_parent src dbname row)
    (λ s, traversal_ok src dbname s ∧ queue_ok s) (source_error src)
    (graph_get references table)) as Hparents.
  match goal with |- context [for_each _ _ ?s0] => specialize (Hparents
    (λ s e _ Hs, follow_parent_outcome row s e Hs) s0) end.
  destruct (for_each (follow_parent src dbname row) _ _) as [st1|e]; simpl.
  - apply for_each_outcome.
    + intros s e _ Hs. by apply follow_child_outcome.
    + apply Hparents. split; [done|]. intros t pk k Hin. simpl. rewrite Hc1. by eapply Hq.
  - apply Hparents. split; [done|]. intros t pk k Hin. simpl. rewrite Hc1. by eapply Hq.
Qed.

Lemma bfs_outcome fuel st res :
  traversal_ok src dbname st ∧ queue_ok st →
  bfs src dbname references referenced_by fuel st = Some res →
  match res with Ok _ => True | Raise e => source_error src e end.
Proof.
  revert st. induction fuel as [|fuel IH]; intros st [Hok Hq] Hrun.
  - destruct st as [c cache [|[[? ?] ?] rest]]; simpl in Hrun; [|done]. by injection Hrun as <-.
  - destruct (q st) as [|[[table pk_cols] pk_key] rest] eqn:Hqs; simpl in Hrun;
      rewrite Hqs in Hrun.
    { by injection Hrun as <-. }
    pose proof (bfs_body_outcome table pk_key (popleft st)) as Hbody.
    destruct (bfs_body _ _ _ _ _ _ _) as [st1|e].
    + apply (IH st1); [|done]. apply Hbody.
      * split; [done | by apply queue_ok_popleft].
      * apply (Hq table pk_cols pk_key). rewrite Hqs. left.
    + injection Hrun as <-. apply Hbody.
      * split; [done | by apply queue_ok_popleft].
      * apply (Hq table pk_cols pk_key). rewrite Hqs. left.
Qed.
End Outcome.

Lemma start_Raise cfg src e :
  rows_have_pk src (source_database cfg) = true →
  start cfg src = Raise e → source_error src e.
Proof.
  intros Hpk. unfold start, discover_fk.
  destruct (execute src (QForeignKeys _)) as [[]|e0] eqn:Hfk; simpl;
    [|intros [= <-]; by eapply execute_Raise].
  destruct (foldl _ _ _) as [refs refd]. simpl.
  destruct (get_pk src _ _) as [root_pk|e0] eqn:Hroot; simpl;
    [|intros [= <-]; by eapply get_pk_Raise].
  destruct (select_seeds src _ _) as [seeds|e0] eqn:Hseeds; simpl.
  - assert (Hbody : ∀ s r, r ∈ seeds → True →
        match seed_row (root_table cfg) root_pk s r with
        | Ok _ => True
        | Raise _ => False
        end).
    { intros s r Hin _. unfold seed_row.
      destruct (rows_have_pk_spec _ _ _ _ r Hpk Hroot) as [k ->]; [|done].
      by eapply select_seeds_elem. }
    unfold seed.
    match goal with
    | |- context [for_each ?f ?xs ?s] =>
        pose proof (for_each_outcome f (λ _, True) (λ _, False) xs Hbody s I) as Hseed
    end.
    by destruct (for_each _ seeds _) as [st0|e0].
  - intros [= <-]. revert Hseeds. unfold select_seeds.
    destruct (city_filter cfg); simpl;
      (match goal with
       | |- context [execute src ?query] =>
           destruct (execute src query) as [u|e1] eqn:Hexec
       end; simpl; [intros ?; discriminate | intros [= <-]; by eapply execute_Raise]).
Qed.

Lemma tgt_execute_keeps_insert_raises tgt s :
  tgt_insert_raises (tgt_execute tgt s).1 = tgt_insert_raises tgt.
Proof. destruct s; simpl; repeat case_match; done. Qed.

Lemma truncate_all_keeps_insert_raises ts tgt :
  tgt_insert_raises (foldl try_truncate tgt ts) = tgt_insert_raises tgt.
Proof.
  revert tgt. induction ts as [|t ts IH]; intros tgt; simpl; [done|].
  by rewrite IH, try_truncate_eq, tgt_execute_keeps_insert_raises.
Qed.

(** The clear and its commit leave the target's dispositions alone. *)
Lemma cleared_oracles tgt :
  tgt_insert_raises (cleared tgt).1 = tgt_insert_raises tgt
  ∧ tgt_connection_raises (cleared tgt).1 = tgt_connection_raises tgt.
Proof.
  unfold cleared, clear_target_database, and_then, commit. simpl.
  destruct (tgt_connection_raises tgt (tgt_log tgt) SListTables); simpl; [done|].
  destruct (tgt_connection_raises tgt _ (SSetForeignKeyChecks false)); simpl; [done|].
  match goal with |- context [foldl try_truncate ?t0 ?ts] =>
    pose proof (truncate_all_connection_raises ts t0) as Hconn;
    pose proof (truncate_all_keeps_insert_raises ts t0) as Hins;
    destruct (foldl try_truncate t0 ts) as [tbl com fk log tr ir cr]
  end.
  simpl in *. subst cr ir.
  destruct (tgt_connection_raises tgt _ (SSetForeignKeyChecks true)); simpl; [done|].
  by destruct (tgt_connection_raises tgt _ SCommit).
Qed.

(** They raise only when the connection refuses one of their statements,
    and go through when it refuses none. *)
Lemma cleared_Raise tgt e : (cleared tgt).2 = Raise e → target_error tgt e.
Proof.
  unfold cleared, clear_target_database, and_then, commit, target_error. simpl.
  destruct (tgt_connection_raises tgt (tgt_log tgt) SListTables) eqn:H1; simpl;
    [intros [= <-]; eauto|].
  destruct (tgt_connection_raises tgt _ (SSetForeignKeyChecks false)) eqn:H2; simpl;
    [intros [= <-]; eauto|].
  match goal with |- context [foldl try_truncate ?t0 ?ts] =>
    pose proof (truncate_all_connection_raises ts t0) as Hconn;
    destruct (foldl try_truncate t0 ts) as [tbl com fk log tr ir cr]
  end.
  simpl in *. subst cr.
  destruct (tgt_connection_raises tgt _ (SSetForeignKeyChecks true)) eqn:H3; simpl;
    [intros [= <-]; eauto|].
  destruct (tgt_connection_raises tgt _ SCommit) eqn:H4; simpl; [intros [= <-]; eauto|done].
Qed.

Lemma cleared_holds tgt : connection_holds tgt → (cleared tgt).2 = Ok tt.
Proof.
  intros Hholds. destruct (cleared tgt).2 as [[]|e] eqn:Hres; [done|].
  apply cleared_Raise in Hres as (_ & log & s & Hraises). by rewrite Hholds in Hraises.
Qed.

(** The loop over the tables raises only when a commit is refused. *)
Lemma materialize_tables_Raise c ts tgt e :
  (materialize_tables c tgt ts).2 = Raise e → target_error tgt e.
Proof.
  revert tgt. induction ts as [|t ts IH]; intros tgt; simpl; [done|].
  pose proof (materialize_table_connection_raises c tgt t) as Hsame.
  assert (Hres : ∀ e0, (materialize_table c tgt t).2 = Raise e0 → target_error tgt e0).
  { unfold materialize_table. intros e0. rewrite commit_result, insert_rows_connection_raises.
    destruct (tgt_connection_raises tgt _ SCommit) eqn:Hraises; [|done].
    intros [= <-]. unfold target_error. eauto. }
  destruct (materialize_table c tgt t) as [tgt1 [[]|e0]]; simpl in *.
  - intros (-> & log & s & Hraises)%IH. rewrite Hsame in Hraises. unfold target_error. eauto.
  - intros [= <-]. by apply Hres.
Qed.

Lemma main_Raise fuel cfg src tgt tgt' e :
  rows_have_pk src (source_database cfg) = true →
  main fuel cfg src tgt = Some (tgt', Raise e) → source_error src e ∨ target_error tgt e.
Proof.
  intros Hpk. unfold main.
  pose proof (cleared_Raise tgt) as Hclear. pose proof (cleared_oracles tgt) as [_ Hsame].
  destruct (cleared tgt) as [tgt0 [[]|e0]]; simpl in *;
    [|intros [= _ <-]; right; by apply Hclear].
  destruct (closure fuel cfg src) as [[[[refs c]|]|e0]|] eqn:Hclosure; try done.
  { intros [= Hmat]. right.
    destruct (materialize_tables_Raise c (ordered_tables refs c) tgt0 e)
      as (-> & log & s & Hraises).
    - unfold materialize in Hmat. by rewrite Hmat.
    - rewrite Hsame in Hraises. unfold target_error. eauto. }
  intros [= _ <-]. left. destruct (start cfg src) as [[[refs refd] st0]|e1] eqn:Hstart.
  - rewrite (closure_of_start fuel _ _ _ _ _ Hstart) in Hclosure.
    destruct (q st0); [done|].
    destruct (bfs _ _ _ _ _ _) as [res|] eqn:Hrun; [|done].
    pose proof Hstart as (_ & Hok0 & _)%start_inv.
    apply start_parts in Hstart as (root_pk & seeds & _ & _ & _ & Hseed).
    apply seed_rows in Hseed as (Hq0 & _).
    pose proof (bfs_outcome src (source_database cfg) refs refd Hpk fuel st0 res
                  (conj Hok0 Hq0) Hrun) as Hres.
    destruct res; [done|]. by injection Hclosure as <-.
  - rewrite (closure_of_start_Raise fuel _ _ _ Hstart) in Hclosure.
    injection Hclosure as <-. by eapply start_Raise.
Qed.

(** X11: when every source row has the columns of its table's primary
    key, the only exception a run of [main] can end with is the database's,
    raised by a statement the source refused or by a statement outside a
    [try] that the target refused; it never ends with [KeyError]. *)
Theorem main_raises_only_database_errors fuel cfg src tgt tgt' e :
  rows_have_pk src (source_database cfg) = true →
  main fuel cfg src tgt = Some (tgt', Raise e) →
  e = DatabaseError
  ∧ ((∃ query, src_raises src query = true)
     ∨ (∃ log s, tgt_connection_raises tgt log s = true)).
Proof.
  intros Hpk Hrun.
  destruct (main_Raise _ _ _ _ _ _ Hpk Hrun) as [[-> ?]|[-> ?]]; split; auto.
Qed.

Lemma main_raises_only_database_errors_witness :
  rows_have_pk shop_flaky "shop" = true
  ∧ src_raises shop_flaky (QChildren "orders" "customer_id" (VInt 1)) = true
  ∧ main 11 (shop_cfg "Springfield") shop_flaky (staging false)
    = Some ((cleared (staging false)).1, Raise DatabaseError)
  ∧ DatabaseError = DatabaseError
  ∧ ((∃ query, src_raises shop_flaky query = true)
     ∨ (∃ log s, tgt_connection_raises (staging false) log s = true)).
Proof.
  split; [vm_compute; reflexivity|]. split; [vm_compute; reflexivity|].
  split; [vm_compute; reflexivity|].
  apply (main_raises_only_database_errors 11 (shop_cfg "Springfield") shop_flaky
           (staging false) (cleared (staging false)).1 DatabaseError).
  - vm_compute; reflexivity.
  - vm_compute; reflexivity.
Defined.

(** X12: when every source row has the columns of its table's primary
    key, the source refuses no statement and the target connection refuses
    none of those sent outside a [try], a run of [main] goes to its end
    and returns normally, whatever rows and truncations the target
    refuses. *)
Theorem healthy_run_completes fuel cfg src tgt :
  rows_have_pk src (source_database cfg) = true →
  (∀ query, src_raises src query = false) →
  connection_holds tgt →
  traversal_bound cfg src ≤ fuel →
  ∃ tgt', main fuel cfg src tgt = Some (tgt', Ok tt).
Proof.
  intros Hpk Hnever Hholds Hfuel.
  destruct (main_enough_fuel fuel cfg src tgt Hfuel) as [[tgt' [[]|e]] Hrun]; [eauto|].
  destruct (main_Raise _ _ _ _ _ _ Hpk Hrun) as [(_ & query & Hq)|(_ & log & s & Hs)].
  - by rewrite Hnever in Hq.
  - by rewrite Hholds in Hs.
Qed.

Lemma healthy_run_completes_witness :
  ∃ tgt', main 11 (shop_cfg "Springfield") shop (staging true) = Some (tgt', Ok tt).
Proof.
  apply (healthy_run_completes 11 (shop_cfg "Springfield") shop (staging true)).
  - vm_compute; reflexivity.
  - intros query. reflexivity.
  - intros log s. reflexivity.
  - vm_compute. lia.
Defined.



(** ** What lands in a target that refuses nothing *)

Lemma stored_row_id (r : Row) : NoDup (dict_keys r) → stored_row r = r.
Proof.
  unfold stored_row, dict_keys. induction r as [|[c v] r IH]; csimpl; [done|].
  intros [Hc Hnd]%NoDup_cons. unfold row_get at 1. simpl. rewrite decide_True by done.
  simpl. f_equal. rewrite <- (IH Hnd) at 3. f_equal.
  apply list_fmap_ext. intros i c' Hc'. unfold row_get. simpl.
  rewrite decide_False; [done|]. intros <-. apply Hc. by eapply list_elem_of_lookup_2.
Qed.

Lemma columns_distinct_spec src t r :
  columns_distinct src = true → r ∈ table_rows src t → NoDup (dict_keys r).
Proof.
  unfold columns_distinct, table_rows. intros Hall Hr.
  destruct (dict_get (src_tables src) t) as [rows|] eqn:Hget; simpl in *;
    [|by apply elem_of_nil in Hr].
  apply dict_get_Some_elem, list_elem_of_In in Hget.
  rewrite forallb_forall in Hall. specialize (Hall _ Hget). simpl in Hall.
  rewrite forallb_forall in Hall. apply list_elem_of_In in Hr.
  by apply Hall, bool_decide_eq_true in Hr.
Qed.

Lemma try_insert_accepts t tgt r : accepts_all tgt → accepts_all (try_insert t tgt r).
Proof.
  unfold accepts_all. rewrite try_insert_eq. unfold insert_row.
  by rewrite tgt_execute_keeps_insert_raises.
Qed.

Lemma try_insert_get t tgt r t' :
  accepts_all tgt →
  dict_get (tgt_tables (try_insert t tgt r)) t'
  = if decide (t = t')
    then (λ rows, rows ++ [stored_row r]) <$> dict_get (tgt_tables tgt) t'
    else dict_get (tgt_tables tgt) t'.
Proof.
  unfold accepts_all. intros Hacc. rewrite try_insert_eq. unfold insert_row. simpl.
  fold (stored_row r). destruct (dict_get (tgt_tables tgt) t) as [rows|] eqn:Ht.
  - rewrite Hacc. simpl. rewrite dict_get_set. case_decide; [|done]. subst. by rewrite Ht.
  - simpl. case_decide; [|done]. subst. by rewrite Ht.
Qed.

Lemma try_insert_keys t tgt r :
  dict_keys (tgt_tables (try_insert t tgt r)) = dict_keys (tgt_tables tgt).
Proof.
  rewrite try_insert_eq. unfold insert_row. simpl.
  destruct (dict_get (tgt_tables tgt) t) as [rows|] eqn:Ht; [|done].
  destruct (tgt_insert_raises _ _ _ _); [done|]. simpl.
  apply dict_keys_set_old. by rewrite Ht.
Qed.

Lemma insert_rows_get t rs tgt t' :
  accepts_all tgt →
  dict_get (tgt_tables (foldl (try_insert t) tgt rs)) t'
  = if decide (t = t')
    then (λ rows, rows ++ (stored_row <$> rs)) <$> dict_get (tgt_tables tgt) t'
    else dict_get (tgt_tables tgt) t'.
Proof.
  revert tgt. induction rs as [|r rs IH]; intros tgt Hacc; simpl.
  - case_decide; [|done]. destruct (dict_get _ _); simpl; [|done]. by rewrite app_nil_r.
  - rewrite IH by by apply try_insert_accepts. rewrite try_insert_get by done.
    case_decide; [|done]. destruct (dict_get (tgt_tables tgt) t'); simpl; [|done].
    by rewrite <- app_assoc.
Qed.

Lemma insert_rows_accepts t rs tgt : accepts_all tgt → accepts_all (foldl (try_insert t) tgt rs).
Proof.
  revert tgt. induction rs as [|r rs IH]; intros tgt Hacc; simpl; [done|].
  by apply IH, try_insert_accepts.
Qed.

Lemma insert_rows_keys t rs tgt :
  dict_keys (tgt_tables (foldl (try_insert t) tgt rs)) = dict_keys (tgt_tables tgt).
Proof.
  revert tgt. induction rs as [|r rs IH]; intros tgt; simpl; [done|].
  by rewrite IH, try_insert_keys.
Qed.

Lemma materialized_table_accepts c tgt t :
  accepts_all tgt → accepts_all (materialized_table c tgt t).
Proof.
  intros Hacc%(insert_rows_accepts t (dict_values (collected_rows c t))).
  unfold materialized_table, materialize_table, commit, accepts_all in *.
  by rewrite tgt_execute_keeps_insert_raises.
Qed.

Lemma materialized_table_holds c tgt t :
  connection_holds tgt → connection_holds (materialized_table c tgt t).
Proof.
  unfold connection_holds, materialized_table.
  by rewrite materialize_table_connection_raises.
Qed.

(** When no commit is refused the loop over the tables takes every turn. *)
Lemma materialize_tables_run c ts tgt :
  connection_holds tgt →
  materialize_tables c tgt ts = (foldl (materialized_table c) tgt ts, Ok tt).
Proof.
  revert tgt. induction ts as [|t ts IH]; intros tgt Hholds; simpl; [done|].
  pose proof (materialized_table_holds c tgt t Hholds) as Hholds'.
  assert (Hres : (materialize_table c tgt t).2 = Ok tt).
  { unfold materialize_table. rewrite commit_result, insert_rows_connection_raises.
    by rewrite Hholds. }
  unfold materialized_table in *.
  destruct (materialize_table c tgt t) as [tgt1 res]; simpl in *; subst res. simpl.
  by apply IH.
Qed.

Lemma materialized_tables_get c ts tgt t' :
  accepts_all tgt → NoDup ts →
  dict_get (tgt_tables (foldl (materialized_table c) tgt ts)) t'
  = if decide (t' ∈ ts)
    then (λ rows, rows ++ (stored_row <$> dict_values (collected_rows c t')))
           <$> dict_get (tgt_tables tgt) t'
    else dict_get (tgt_tables tgt) t'.
Proof.
  revert tgt. induction ts as [|t ts IH]; intros tgt Hacc Hnd; cbn [foldl].
  - rewrite decide_False; [done|]. apply not_elem_of_nil.
  - apply NoDup_cons in Hnd as [Hnotin Hnd].
    rewrite IH by (done || by apply materialized_table_accepts).
    assert (Hstep : dict_get (tgt_tables (materialized_table c tgt t)) t'
                    = if decide (t = t')
                      then (λ rows, rows ++ (stored_row <$> dict_values (collected_rows c t)))
                             <$> dict_get (tgt_tables tgt) t'
                      else dict_get (tgt_tables tgt) t').
    { unfold materialized_table, materialize_table. rewrite commit_tables.
      by apply insert_rows_get. }
    rewrite Hstep. destruct (decide (t = t')) as [->|Hne].
    + rewrite (decide_False (P := t' ∈ ts)) by done.
      rewrite (decide_True (P := t' ∈ t' :: ts)) by left. done.
    + destruct (decide (t' ∈ ts)) as [Hin|Hout].
      * rewrite (decide_True (P := t' ∈ t :: ts)) by by right. done.
      * rewrite (decide_False (P := t' ∈ t :: ts)); [done|].
        intros [?|?]%elem_of_cons; congruence.
Qed.

Lemma materialized_tables_keys c ts tgt :
  dict_keys (tgt_tables (foldl (materialized_table c) tgt ts)) = dict_keys (tgt_tables tgt).
Proof.
  revert tgt. induction ts as [|t ts IH]; intros tgt; simpl; [done|].
  rewrite IH. unfold materialized_table, materialize_table. rewrite commit_tables.
  apply insert_rows_keys.
Qed.

Lemma materialized_tables_committed c ts tgt :
  connection_holds tgt →
  tgt_committed tgt = tgt_tables tgt →
  tgt_committed (foldl (materialized_table c) tgt ts)
  = tgt_tables (foldl (materialized_table c) tgt ts).
Proof.
  revert tgt. induction ts as [|t ts IH]; intros tgt Hholds Heq; simpl; [done|].
  apply IH; [by apply materialized_table_holds|].
  unfold materialized_table, materialize_table.
  destruct (commit_Ok (foldl (try_insert t) tgt (dict_values (collected_rows c t))))
    as (-> & -> & _); [|done].
  rewrite commit_result, insert_rows_connection_raises. by rewrite Hholds.
Qed.

(** X13: into a target that refuses no statement, a run that ends its
    traversal normally copies the closure and nothing else: the run returns
    normally, every table of the target ends up holding exactly the rows
    collected for it, in collection order (none, for a table outside the
    closure, whatever it held before), no table appears or disappears, and
    all of it is committed. *)
Theorem permissive_target_receives_closure fuel cfg src tgt references c :
  accepts_all tgt →
  (∀ t, tgt_truncate_raises tgt t = false) →
  connection_holds tgt →
  columns_distinct src = true →
  closure fuel cfg src = Some (Ok (Some (references, c))) →
  ∃ tgt', main fuel cfg src tgt = Some (tgt', Ok tt)
          ∧ (∀ t, t ∈ dict_keys (tgt_tables tgt) →
                  dict_get (tgt_tables tgt') t = Some (dict_values (collected_rows c t)))
          ∧ dict_keys (tgt_tables tgt') = dict_keys (tgt_tables tgt)
          ∧ tgt_committed tgt' = tgt_tables tgt'.
Proof.
  intros Hacc Htrunc Hholds Hcols Hclosure.
  pose proof (cleared_holds tgt Hholds) as Hres.
  pose proof (cleared_oracles tgt) as [Hins Hconn].
  destruct (cleared tgt) as [tgt0 res] eqn:Hcleared. simpl in *. subst res.
  assert (Hacc0 : accepts_all tgt0) by (unfold accepts_all; by rewrite Hins).
  assert (Hholds0 : connection_holds tgt0) by (unfold connection_holds; by rewrite Hconn).
  pose proof (cleared_Ok _ _ Hcleared)
    as (_ & (tgt1 & Hsame & Hraises & Htables) & Hcommitted & _).
  exists (foldl (materialized_table c) tgt0 (ordered_tables references c)).
  split.
  { unfold main, materialize. by rewrite Hcleared, Hclosure, materialize_tables_run. }
  pose proof Hclosure as (refd & st0 & st & Hstart & Hrun & ->)%closure_Some.
  apply start_inv in Hstart as (_ & Hok0 & _).
  destruct (bfs_Ok _ _ _ _ _ _ _ Hrun Hok0) as (_ & (_ & Hrows & Hu) & _).
  assert (Hnd : NoDup (ordered_tables references (collected st))).
  { unfold ordered_tables. rewrite sort_by_Permutation. apply Hu. }
  split_and!.
  - intros t Hin. rewrite materialized_tables_get by done.
    assert (Hempty : dict_get (tgt_tables tgt0) t = Some []).
    { rewrite Htables. apply truncate_all_cleared; [done| |by rewrite Hraises].
      rewrite Hsame. destruct (dict_get (tgt_tables tgt) t) eqn:Hget; [eauto|].
      by apply dict_get_None in Hget. }
    rewrite Hempty. simpl. case_decide as Hord.
    + f_equal. rewrite <- (list_fmap_id (dict_values _)) at 2.
      apply list_fmap_ext. intros i r Hr. simpl. apply stored_row_id.
      apply list_elem_of_lookup_2 in Hr.
      apply list_elem_of_fmap in Hr as ([k r'] & -> & Hr). simpl.
      apply lookup_row_elem in Hr; [|done]. apply Hrows in Hr as [Hr _].
      by eapply columns_distinct_spec.
    + f_equal. unfold ordered_tables in Hord. rewrite sort_by_Permutation in Hord.
      apply dict_get_None in Hord. unfold collected_rows. by rewrite Hord.
  - by rewrite materialized_tables_keys, Htables, truncate_all_keys, Hsame.
  - by apply materialized_tables_committed.
Qed.

Lemma permissive_target_receives_closure_witness :
  ∃ tgt', main 11 (shop_cfg "Springfield") shop_keyed (staging false) = Some (tgt', Ok tt)
          ∧ dict_keys (tgt_tables tgt') = ["customers"; "orders"; "regions"; "v_report"]
          ∧ tgt_committed tgt' = tgt_tables tgt'.
Proof.
  destruct (permissive_target_receives_closure 11 (shop_cfg "Springfield") shop_keyed
              (staging false)
              (run_closure 11 (shop_cfg "Springfield") shop_keyed).1
              (run_closure 11 (shop_cfg "Springfield") shop_keyed).2)
    as (tgt' & Hmain & _ & Hkeys & Hcommitted).
  - intros tables t r. reflexivity.
  - intros t. reflexivity.
  - intros log s. reflexivity.
  - vm_compute; reflexivity.
  - vm_compute; reflexivity.
  - eauto.
Defined.

(** ** Memoized keys along a run *)

(** X14: at every turn of a run, each primary key held in [pk_cache] is
    the one the catalog gives for that table. *)
Theorem pk_cache_agrees_with_catalog cfg src st t pk :
  reachable cfg src st →
  pk_cache st !! t = Some pk →
  get_pk src (source_database cfg) t = Ok pk.
Proof. intros (Hcache & _)%reachable_ok Hpk. by apply Hcache. Qed.

Lemma pk_cache_agrees_with_catalog_witness :
  let cfg := shop_cfg "Springfield" in
  let st := run_turn cfg shop (run_start cfg shop) in
  pk_cache st !! "orders" = Some ["id"] ∧ get_pk shop "shop" "orders" = Ok ["id"].
Proof.
  intros cfg st. split; [vm_compute; reflexivity|].
  apply (pk_cache_agrees_with_catalog cfg shop st "orders" ["id"]);
    [|vm_compute; reflexivity].
  apply (reach_step cfg shop (run_graphs cfg shop).1 (run_graphs cfg shop).2
           (run_start cfg shop)).
  - vm_compute; reflexivity.
  - apply (reach_start cfg shop (run_graphs cfg shop).1 (run_graphs cfg shop).2).
    vm_compute; reflexivity.
  - exists "customers", ["id"], [VInt 1], [("customers", ["id"], [VInt 2])].
    split; vm_compute; reflexivity.
Defined.

(** ** A filter that matches nothing *)

Lemma filter_nil_Forall {A} (P : A → Prop) `{∀ x, Decision (P x)} (l : list A) :
  Forall (λ x, ¬ P x) l → filter P l = [].
Proof.
  induction 1 as [|x l Hx _ IH]; [done|]. by rewrite filter_cons, decide_False.
Qed.

Lemma existsb_sql_eq_null a cities :
  Forall (λ city, city = VNull) cities → existsb (sql_eq a) cities = false.
Proof.
  induction 1 as [|city cities -> _ IH]; simpl; [done|]. by rewrite sql_eq_null_r.
Qed.

(** X15: a configuration without [city_filter] (the value is then
    [None]), or whose list of cities holds only nulls or nothing, selects
    no seed, since a null equals nothing in SQL; provided the clear of the
    target went through and the source refuses no statement on the way,
    the run then ends normally with the target cleared and nothing
    copied. *)
Theorem null_city_filter_copies_nothing fuel cfg src tgt tgt' :
  Forall (λ city, city = VNull) (seed_params (city_filter cfg)) →
  cleared tgt = (tgt', Ok tt) →
  src_raises src (QForeignKeys (source_database cfg)) = false →
  src_raises src (QPrimaryKey (source_database cfg) (root_table cfg)) = false →
  (∀ query, query = QSeedIn (root_table cfg) (seed_params (city_filter cfg))
            ∨ query = QSeedEq (root_table cfg) VNull → src_raises src query = false) →
  select_seeds src (root_table cfg) (city_filter cfg) = Ok []
  ∧ main fuel cfg src tgt = Some (tgt', Ok tt)
  ∧ tgt_log tgt' = tgt_log tgt ++ clear_stmts tgt.
Proof.
  intros Hnull Hcleared Hfk Hpk Hseed.
  assert (Hseeds : select_seeds src (root_table cfg) (city_filter cfg) = Ok []).
  { unfold select_seeds, execute. destruct (city_filter cfg) as [cities|city]; simpl in *.
    - rewrite Hseed by auto. simpl. f_equal. apply filter_nil_Forall, Forall_forall.
      intros r _. apply not_true_iff_false. by apply existsb_sql_eq_null.
    - apply Forall_cons in Hnull as [-> _]. rewrite Hseed by auto. simpl. f_equal.
      by apply select_where_null. }
  split; [done|]. split; [|by apply cleared_Ok in Hcleared as (? & _)].
  unfold main, closure, discover_fk, get_pk, execute.
  rewrite Hcleared, Hfk, Hpk. simpl. destruct (foldl _ _ _) as [refs refd].
  by rewrite Hseeds.
Qed.

Lemma null_city_filter_copies_nothing_witness :
  let cfg := {| source_database := "shop"; city_filter := CityScalar VNull;
                root_table := "customers" |} in
  main 0 cfg shop (staging false) = Some ((cleared (staging false)).1, Ok tt).
Proof.
  intros cfg.
  apply (null_city_filter_copies_nothing 0 cfg shop (staging false)
           (cleared (staging false)).1).
  - simpl. repeat constructor.
  - vm_compute; reflexivity.
  - reflexivity.
  - reflexivity.
  - intros query _. reflexivity.
Defined.

(** ** Markers and parameters *)

Lemma count_percent_app s1 s2 :
  count_percent (s1 +:+ s2) = count_percent s1 + count_percent s2.
Proof. induction s1 as [|a s1 IH]; simpl; [done|]. rewrite IH. lia. Qed.

Lemma count_percent_join l :
  count_percent (join "," l) = sum_list (count_percent <$> l).
Proof.
  induction l as [|s l IH]; [done|]. destruct l as [|s' l]; [simpl; lia|].
  change (join "," (s :: s' :: l)) with (s +:+ "," +:+ join "," (s' :: l)).
  rewrite !count_percent_app, IH. simpl. lia.
Qed.

Lemma count_percent_placeholders n : count_percent (placeholders n) = n.
Proof.
  unfold placeholders. rewrite count_percent_join.
  induction n as [|n IH]; [done|].
  change (replicate (S n) "%s") with ("%s" :: replicate n "%s").
  rewrite fmap_cons. change (sum_list (?x :: ?l)) with (x + sum_list l).
  rewrite IH. reflexivity.
Qed.

Lemma count_percent_quoted cols :
  Forall (λ c, count_percent c = 0) cols →
  sum_list (count_percent <$> ((λ c, "`" +:+ c +:+ "`") <$> cols)) = 0.
Proof.
  induction 1 as [|c cols Hc _ IH]; [done|].
  rewrite !fmap_cons. change (sum_list (?x :: ?l)) with (x + sum_list l).
  rewrite IH, !count_percent_app, Hc. reflexivity.
Qed.

(** X16: every statement the script builds has as many [%s] markers as
    it is given parameters, whatever the number of columns or cities (none
    included), provided the table and column names hold no [%]: the
    [INSERT] of a row, the seed query, and the two fetches of the loop. *)
Theorem markers_match_parameters table row root_table city_filter t col :
  count_percent table = 0 →
  Forall (λ c, count_percent c = 0) (dict_keys row) →
  count_percent root_table = 0 →
  count_percent t = 0 → count_percent col = 0 →
  count_percent (insert_sql table (dict_keys row)) = length (insert_params row)
  ∧ count_percent (seed_sql root_table city_filter) = length (seed_params city_filter)
  ∧ count_percent (parent_sql t col) = 1
  ∧ count_percent (child_sql t col) = 1.
Proof.
  intros Htable Hcols Hroot Ht Hcol. split_and!.
  - unfold insert_sql, insert_params. rewrite !count_percent_app, count_percent_join.
    rewrite count_percent_quoted, count_percent_placeholders, Htable, length_fmap by done.
    simpl. lia.
  - destruct city_filter as [cities|city]; simpl;
      rewrite !count_percent_app, ?count_percent_placeholders, Hroot; simpl; lia.
  - unfold parent_sql. rewrite !count_percent_app, Ht, Hcol. simpl. lia.
  - unfold child_sql. rewrite !count_percent_app, Ht, Hcol. simpl. lia.
Qed.

Lemma markers_match_parameters_witness :
  insert_sql "orders" (dict_keys (order 10 1))
  = "INSERT INTO `orders` (`id`,`customer_id`) VALUES (%s,%s)"
  ∧ insert_sql "orders" [] = "INSERT INTO `orders` () VALUES ()"
  ∧ seed_sql "customers" (CityList []) = "SELECT * FROM customers WHERE city IN ()"
  ∧ count_percent (insert_sql "orders" (dict_keys (order 10 1)))
    = length (insert_params (order 10 1)).
Proof.
  split_and!; [reflexivity..|].
  apply (markers_match_parameters "orders" (order 10 1) "customers" (CityList [])
           "customers" "id").
  - reflexivity.
  - simpl. repeat constructor.
  - reflexivity.
  - reflexivity.
  - reflexivity.
Defined.
